(** * composlang: corpus reader and composition analysis

    A shallow embedding of the Python sources

    - [src/src/corpus.py]   (the checkpointed, batched [Corpus] reader),
    - [src/corpus.py]       (the earlier generator-style [Corpus] reader),
    - [src/composlang/composition.py] ([CompositionAnalysis]),

    followed by the properties established about them.

    Conventions of the embedding.
    - Python [int] is [Z]; [str] is [string] (byte strings: the ASCII part of
      Python's text model); [float] is modelled by real numbers together
      with the IEEE special values the code can produce (see [float]).
    - A raised exception is a value [Raise e] of the [result] type; the
      sequencing of statements is the bind of that monad.
    - [Counter] objects compared with [==] are finite maps ([gmap]); [dict]s
      and [Counter]s whose iteration order is observable are association
      lists in insertion order. *)

From Stdlib Require Import ZArith String Ascii List Reals Lra Lia.
From Stdlib Require Import Decimal DecimalString.
From stdpp Require Import base gmap strings list fin_maps.

Local Open Scope string_scope.
Local Open Scope Z_scope.

(** ** Python basics *)

Module Py.

(** The exceptions the modelled code can raise. [NotModelled] marks the
    places where a run leaves the fragment of Python covered here (a column
    type other than [int] or [str]). *)
Inductive exn : Type :=
  | IndexError | ValueError | KeyError | TypeError
  | AttributeError | UnboundLocalError | NotModelled.

Inductive result (A : Type) : Type :=
  | Ok (a : A)
  | Raise (e : exn).
Arguments Ok {A} a.
Arguments Raise {A} e.

#[export] Instance result_ret : MRet result := fun _ a => Ok a.
#[export] Instance result_bind : MBind result := fun _ _ f m =>
  match m with Ok a => f a | Raise e => Raise e end.
#[export] Instance result_fmap : FMap result := fun _ _ f m =>
  match m with Ok a => Ok (f a) | Raise e => Raise e end.

Definition is_Ok {A} (m : result A) : bool :=
  match m with Ok _ => true | Raise _ => false end.

#[export] Instance exn_eq_dec : EqDecision exn.
Proof. solve_decision. Defined.

(** [str.isspace] on the ASCII range: TAB, LF, VT, FF, CR, the separators
    0x1c..0x1f and the space. *)
Definition isspace (c : ascii) : bool :=
  let n := nat_of_ascii c in
  ((9 <=? n) && (n <=? 13) || (28 <=? n) && (n <=? 32))%nat.

Fixpoint lstrip (s : list ascii) : list ascii :=
  match s with
  | c :: s' => if isspace c then lstrip s' else s
  | [] => []
  end.

(** [s.strip()] *)
Definition strip (s : string) : string :=
  string_of_list_ascii
    (rev (lstrip (rev (lstrip (list_ascii_of_string s))))).

Fixpoint starts_with (p s : list ascii) : bool :=
  match p, s with
  | [], _ => true
  | a :: p', b :: s' => Ascii.eqb a b && starts_with p' s'
  | _ :: _, [] => false
  end.

(** [sub in s] for strings. *)
Fixpoint contains (sub s : list ascii) : bool :=
  starts_with sub s ||
  match s with
  | [] => false
  | _ :: s' => contains sub s'
  end.

Definition str_in (sub s : string) : bool :=
  contains (list_ascii_of_string sub) (list_ascii_of_string s).

(** The scan behind [s.split(sep)] for a non-empty [sep]: [skip] counts the
    characters of a separator occurrence still to be passed over, [cur] is
    the current field, reversed. *)
Fixpoint split_go (sep : list ascii) (skip : nat) (cur s : list ascii)
  : list string :=
  match s with
  | [] => [string_of_list_ascii (rev cur)]
  | c :: s' =>
      match skip with
      | S k => split_go sep k cur s'
      | O =>
          if starts_with sep s
          then string_of_list_ascii (rev cur)
                 :: split_go sep (length sep - 1)%nat [] s'
          else split_go sep O (c :: cur) s'
      end
  end.

(** [s.split(sep)]; an empty separator raises [ValueError]. *)
Definition split (s sep : string) : result (list string) :=
  match list_ascii_of_string sep with
  | [] => Raise ValueError
  | sp => Ok (split_go sp O [] (list_ascii_of_string s))
  end.

(** [sep.join(parts)] *)
Fixpoint join (sep : string) (parts : list string) : string :=
  match parts with
  | [] => ""
  | [p] => p
  | p :: ps => p +:+ sep +:+ join sep ps
  end.

(** [str(n)] for an [int]. *)
Definition str_of_int (n : Z) : string := NilZero.string_of_int (Z.to_int n).

Definition digit_of (c : ascii) : option Z :=
  let n := nat_of_ascii c in
  if ((48 <=? n) && (n <=? 57))%nat then Some (Z.of_nat n - 48) else None.

(** Digits of an integer literal as [int(s)] accepts them: decimal digits,
    single underscores allowed between digits only. [prev] tells whether the
    previous character was a digit. *)
Fixpoint int_digits (acc : Z) (prev : bool) (s : list ascii) : option Z :=
  match s with
  | [] => if prev then Some acc else None
  | c :: s' =>
      match digit_of c with
      | Some d => int_digits (10 * acc + d) true s'
      | None =>
          if Ascii.eqb c "_"%char && prev then
            match s' with
            | [] => None
            | _ => int_digits acc false s'
            end
          else None
      end
  end.

(** [int(s)] for a string: surrounding whitespace is stripped, one optional
    sign, then the digits; anything else raises [ValueError]. *)
Definition int_of_str (s : string) : result Z :=
  let body := list_ascii_of_string (strip s) in
  let '(neg, ds) :=
    match body with
    | "-"%char :: r => (true, r)
    | "+"%char :: r => (false, r)
    | r => (false, r)
    end in
  match ds with
  | [] => Raise ValueError
  | c :: _ =>
      match digit_of c, int_digits 0 false ds with
      | Some _, Some n => Ok (if neg then - n else n)
      | _, _ => Raise ValueError
      end
  end.

(** The values a column can hold: the integer and string semantic types. *)
Inductive pyval : Type :=
  | VInt (n : Z)
  | VStr (s : string).

#[export] Instance pyval_eq_dec : EqDecision pyval.
Proof. solve_decision. Defined.

#[export] Instance pyval_countable : Countable pyval.
Proof.
  refine (inj_countable'
            (fun v => match v with VInt n => inl n | VStr s => inr s end)
            (fun x => match x with inl n => VInt n | inr s => VStr s end) _).
  by intros [].
Defined.

(** [f"{v}"] *)
Definition format (v : pyval) : string :=
  match v with
  | VInt n => str_of_int n
  | VStr s => s
  end.

(** A [dict] with string keys, in insertion order. [d[k] = v] keeps the
    position of an existing key. *)
Definition dict (V : Type) : Type := list (string * V).

Fixpoint dict_get {V} (d : dict V) (k : string) : result V :=
  match d with
  | [] => Raise KeyError
  | (k', v) :: d' => if String.eqb k' k then Ok v else dict_get d' k
  end.

Fixpoint dict_set {V} (d : dict V) (k : string) (v : V) : dict V :=
  match d with
  | [] => [(k, v)]
  | (k', v') :: d' =>
      if String.eqb k' k then (k, v) :: d' else (k', v') :: dict_set d' k v
  end.

(** [d.get(k)], with [None] for a missing key. *)
Definition dict_get_opt {V} (d : dict V) (k : string) : option V :=
  match dict_get d k with Ok v => Some v | Raise _ => None end.

(** [xs[i]] on a list: negative indices count from the end. *)
Definition list_index {A} (xs : list A) (i : Z) : result A :=
  let n := Z.of_nat (length xs) in
  let j := if i <? 0 then i + n else i in
  if (0 <=? j) && (j <? n) then
    match nth_error xs (Z.to_nat j) with
    | Some x => Ok x
    | None => Raise IndexError
    end
  else Raise IndexError.

(** [pydoc.locate(typ)] applied to a field, for the two column types of the
    data format. Any other type name is outside the model. *)
Definition typecast (typ : string) (field : string) : result pyval :=
  if String.eqb typ "int" then VInt <$> int_of_str field
  else if String.eqb typ "str" then Ok (VStr field)
  else Raise NotModelled.

(** [Corpus.segment_line(line, sep, fmt)], the same [classmethod] in both
    versions of [corpus.py]: the columns of one token line as a labelled
    record, in the order of [fmt]. *)
Fixpoint segment_fields (row : list string) (doc : dict pyval) (i : nat)
    (fmt : list string) : result (dict pyval) :=
  match fmt with
  | [] => Ok doc
  | item :: fmt' =>
      parts ← split item ":";
      match parts with
      | [label; typ] =>
          match nth_error row i with
          | None => Raise IndexError
          | Some field =>
              value ← typecast (if String.eqb typ "" then "str" else typ) field;
              segment_fields row (dict_set doc label value) (S i) fmt'
          end
      | _ => Raise ValueError
      end
  end.

Definition segment_line (line sep : string) (fmt : list string)
  : result (dict pyval) :=
  row ← split (strip line) sep;
  segment_fields row [] O fmt.

End Py.

(** ** The parser collaborator and the counters *)

Module Stanza.
Import Py.

(** An attribute of a parsed word: [None] when the token record has no such
    field. *)
Definition field : Type := option pyval.

Record word : Type := mk_word { text : field; upos : field; head : field }.

(** A sentence is its list of words ([sent.words]). *)
Definition sentence : Type := list word.

(** Modelled from the spec: the parser collaborator, stanza's
    [Document([records]).sentences], is an external library. Given the
    buffered token records of one sentence it returns a sentence exposing,
    per record, the word's text, category tag and parent index. *)
Definition Document (records : list (dict pyval)) : sentence :=
  map (fun r => {| text := dict_get_opt r "text";
                   upos := dict_get_opt r "upos";
                   head := dict_get_opt r "head" |}) records.

(** [Word(text, upos)]: a value compared and hashed by both fields. *)
Definition Word : Type := field * field.
Definition Edge : Type := Word * Word.

Definition Word_of (w : word) : Word := (text w, upos w).

(** The loop of [_extract_edges_from_sentence] / [_extract_edges]: the root
    ([head == 0]) is skipped, every other word is paired with
    [sentence.words[w.head-1]]. *)
Fixpoint extract_edges_go (words : sentence) (ws : list word)
  : result (list Edge) :=
  match ws with
  | [] => Ok []
  | w :: ws' =>
      match head w with
      | Some (VInt 0) => extract_edges_go words ws'
      | Some (VInt h) =>
          p ← list_index words (h - 1);
          rest ← extract_edges_go words ws';
          Ok ((Word_of w, Word_of p) :: rest)
      | _ => Raise TypeError
      end
  end.

Definition _extract_edges_from_sentence (sent : sentence)
  : result (list Edge) :=
  extract_edges_go sent sent.

End Stanza.

Module Counter.

Section counter.
Context {K : Type} `{Countable K}.

(** [c[k]], zero for a missing key. *)
Definition count (c : gmap K Z) (k : K) : Z := default 0 (c !! k).

(** [c[k] = n + c.get(k, 0)] *)
Definition add (k : K) (n : Z) (c : gmap K Z) : gmap K Z :=
  <[k := n + count c k]> c.

(** [Counter(iterable)] *)
Definition of_list (l : list K) : gmap K Z :=
  foldl (fun c k => add k 1 c) ∅ l.

(** [self.update(other)] for a mapping [other]: every count of [other] is
    added to the count in [self]. *)
Definition update (self other : gmap K Z) : gmap K Z :=
  map_fold add self other.
End counter.

End Counter.

(** ** The checkpointed reader: [src/src/corpus.py] *)

Module CachedCorpus.
Import Py Stanza.

(** [n_sentences]: an [int] or [float('inf')]. *)
Inductive bound : Type :=
  | Finite (n : Z)
  | Infinite.

(** [x >= b] for an integer [x]. *)
Definition reaches (x : Z) (b : bound) : bool :=
  match b with
  | Finite n => n <=? x
  | Infinite => false
  end.

(** The [SqliteDict] behind [self.cache]: one optional entry per attribute
    of [_attrs_to_cache]. Only committed contents are represented. *)
Record store : Type := mk_store {
  c_sentences_seen : option Z;
  c_lines_read : option Z;
  c_current_file : option (option string);
  c_pair_stats : option (gmap Edge Z);
  c_token_stats : option (gmap Word Z);
  c_files : option (list string);
  c_total : option (option Z);
  c_n_sentences : option bound
}.

Definition empty_store : store :=
  mk_store None None None None None None None None.

Record t : Type := mk {
  _fmt : list string;
  _sep : string;
  _lower : bool;
  _files : list string;
  _n_sentences : bound;
  _current_file : option string;
  _lines_read : Z;
  _sentences_seen : Z;
  _total : option Z;
  _token_stats : gmap Word Z;
  _pair_stats : gmap Edge Z;
  cache : store
}.

Definition set_n_sentences (v : bound) (s : t) : t :=
  mk (_fmt s) (_sep s) (_lower s) (_files s) v (_current_file s)
     (_lines_read s) (_sentences_seen s) (_total s) (_token_stats s)
     (_pair_stats s) (cache s).
Definition set_current_file (v : option string) (s : t) : t :=
  mk (_fmt s) (_sep s) (_lower s) (_files s) (_n_sentences s) v
     (_lines_read s) (_sentences_seen s) (_total s) (_token_stats s)
     (_pair_stats s) (cache s).
Definition set_lines_read (v : Z) (s : t) : t :=
  mk (_fmt s) (_sep s) (_lower s) (_files s) (_n_sentences s)
     (_current_file s) v (_sentences_seen s) (_total s) (_token_stats s)
     (_pair_stats s) (cache s).
Definition set_sentences_seen (v : Z) (s : t) : t :=
  mk (_fmt s) (_sep s) (_lower s) (_files s) (_n_sentences s)
     (_current_file s) (_lines_read s) v (_total s) (_token_stats s)
     (_pair_stats s) (cache s).
Definition set_total (v : option Z) (s : t) : t :=
  mk (_fmt s) (_sep s) (_lower s) (_files s) (_n_sentences s)
     (_current_file s) (_lines_read s) (_sentences_seen s) v (_token_stats s)
     (_pair_stats s) (cache s).
Definition set_token_stats (v : gmap Word Z) (s : t) : t :=
  mk (_fmt s) (_sep s) (_lower s) (_files s) (_n_sentences s)
     (_current_file s) (_lines_read s) (_sentences_seen s) (_total s) v
     (_pair_stats s) (cache s).
Definition set_pair_stats (v : gmap Edge Z) (s : t) : t :=
  mk (_fmt s) (_sep s) (_lower s) (_files s) (_n_sentences s)
     (_current_file s) (_lines_read s) (_sentences_seen s) (_total s)
     (_token_stats s) v (cache s).
Definition set_files (v : list string) (s : t) : t :=
  mk (_fmt s) (_sep s) (_lower s) v (_n_sentences s)
     (_current_file s) (_lines_read s) (_sentences_seen s) (_total s)
     (_token_stats s) (_pair_stats s) (cache s).
Definition set_cache (v : store) (s : t) : t :=
  mk (_fmt s) (_sep s) (_lower s) (_files s) (_n_sentences s)
     (_current_file s) (_lines_read s) (_sentences_seen s) (_total s)
     (_token_stats s) (_pair_stats s) v.

(** [sorted(paths)] *)
Fixpoint insert_sorted (x : string) (l : list string) : list string :=
  match l with
  | [] => [x]
  | y :: l' => if String.leb x y then x :: l else y :: insert_sorted x l'
  end.

Definition sorted (l : list string) : list string :=
  foldr insert_sorted [] l.

(** One step of the loop of [load_cache]: [setattr] when the attribute is
    in the cache, [KeyError] re-raised unless [allow_empty]. *)
Definition load_attr {A} (allow_empty : bool) (entry : option A)
    (setter : A -> t -> t) (self : t) : result t :=
  match entry with
  | Some obj => Ok (setter obj self)
  | None => if allow_empty then Ok self else Raise KeyError
  end.

Definition load_cache (allow_empty : bool) (self : t) : result t :=
  let c := cache self in
  self ← load_attr allow_empty (c_sentences_seen c) set_sentences_seen self;
  self ← load_attr allow_empty (c_lines_read c) set_lines_read self;
  self ← load_attr allow_empty (c_current_file c) set_current_file self;
  self ← load_attr allow_empty (c_pair_stats c) set_pair_stats self;
  self ← load_attr allow_empty (c_token_stats c) set_token_stats self;
  self ← load_attr allow_empty (c_files c) set_files self;
  self ← load_attr allow_empty (c_total c) set_total self;
  load_attr allow_empty (c_n_sentences c) set_n_sentences self.

(** The cache content written by [to_cache]: every attribute of
    [_attrs_to_cache]. *)
Definition snapshot (self : t) : store :=
  {| c_sentences_seen := Some (_sentences_seen self);
     c_lines_read := Some (_lines_read self);
     c_current_file := Some (_current_file self);
     c_pair_stats := Some (_pair_stats self);
     c_token_stats := Some (_token_stats self);
     c_files := Some (_files self);
     c_total := Some (_total self);
     c_n_sentences := Some (_n_sentences self) |}.

(** [to_cache]: the attributes are written, then the cache is committed. *)
Definition to_cache (self : t) : t := set_cache (snapshot self) self.

(** [Corpus.__init__]. [listing] is what the helper
    [iterable_from_directory_or_filelist] (module [src.utils], not part of
    the sources at hand) yields for [directory_or_filelist]; [stored] is the
    committed content of the [SqliteDict] that [_get_cache] opens for
    [cache_tag]. [n_sentences] is [None] or an [int]. *)
Definition __init__ (listing : list string) (stored : store)
    (n_sentences : option Z) (fmt : list string) (sep : string)
    (lowercase : bool) : result t :=
  let self :=
    {| _fmt := fmt; _sep := sep; _lower := lowercase;
       _files := sorted listing;
       _n_sentences := Infinite;
       _current_file := None; _lines_read := 0; _sentences_seen := 0;
       _total := None;
       _token_stats := ∅; _pair_stats := ∅;
       cache := stored |} in
  self ← load_cache true self;
  Ok (set_n_sentences
        (match n_sentences with
         | Some n => if n =? 0 then Infinite else Finite n
         | None => Infinite
         end) self).

(** [_digest_sentence] *)
Definition _digest_sentence (sent : sentence)
  : result (gmap Word Z * gmap Edge Z) :=
  let ts := Counter.of_list (map Word_of sent) in
  edges ← _extract_edges_from_sentence sent;
  Ok (ts, Counter.of_list edges).

(** [Parallel(...)(delayed(f)(x) for x in xs)]: the list of all results, in
    order; an exception in any task is raised instead. *)
Fixpoint Parallel {A B} (f : A -> result B) (xs : list A) : result (list B) :=
  match xs with
  | [] => Ok []
  | x :: xs' =>
      y ← f x;
      ys ← Parallel f xs';
      Ok (y :: ys)
  end.

(** The body of the merge loop of [digest_sentencebatch]: both tables are
    updated with the tables of one sentence. *)
Definition merge_one (self : t) (st : gmap Word Z * gmap Edge Z) : t :=
  set_pair_stats (Counter.update (_pair_stats self) st.2)
    (set_token_stats (Counter.update (_token_stats self) st.1) self).

Definition merge_stats (self : t)
    (stats : list (gmap Word Z * gmap Edge Z)) : t :=
  foldl merge_one self stats.

Definition digest_sentencebatch (self : t) (sb : list sentence) : result t :=
  stats ← Parallel _digest_sentence sb;
  Ok (merge_stats self stats).

(** What a call of [read] leaves behind: the object as it is when the call
    ends, the exception that ended it (if any), and every state the cache
    was committed in, oldest first. A process interrupted during [read]
    leaves on disk the last state committed before the interruption. *)
Record run : Type := mk_run {
  final : t;
  raised : option exn;
  commits : list store
}.

Definition returns (self : t) : run := mk_run self None [].
Definition raises (self : t) (e : exn) : run := mk_run self (Some e) [].
Definition committed (c : store) (r : run) : run :=
  mk_run (final r) (raised r) (c :: commits r).

(** The sentinel line peeked at the end of input. *)
Definition dummy_line (sep : string) : string :=
  "__EOF__" +:+ sep +:+ join sep (map str_of_int (map Z.of_nat (seq 0 16))).

(** [segment_line] followed by the rewriting of [sentence_id] into the
    composite id [f"{filename}_{sentence_id}"]. *)
Definition parse_line (self : t) (filename line : string)
  : result (dict pyval * string) :=
  parse ← segment_line line (_sep self) (_fmt self);
  sid ← dict_get parse "sentence_id";
  let cid := filename +:+ "_" +:+ format sid in
  Ok (dict_set parse "sentence_id" (VStr cid), cid).

(** Lines 219-229 of [read]: a batch is digested, the position counters are
    advanced and the state is cached. *)
Definition flush_batch (self : t) (sentence_batch : list sentence)
  : result t :=
  let sents_read := Z.of_nat (length sentence_batch) in
  self ← digest_sentencebatch self sentence_batch;
  let lines_read :=
    foldr Z.add 0 (map (fun s : sentence => Z.of_nat (length s)) sentence_batch) in
  let self := set_lines_read (_lines_read self + lines_read) self in
  let self := set_sentences_seen (_sentences_seen self + sents_read) self in
  Ok (to_cache self).

(** The [for line in f] loop of [read]. [f] is the rest of the line stream,
    each line with the name of the file it comes from
    ([fileinput.filename()]); [eof_name] is the file name [fileinput]
    reports once the input is exhausted. *)
Fixpoint read_loop (batch_size : Z) (n_sentences : bound) (eof_name : string)
    (f : list (string * string)) (lines_to_skip : Z)
    (this_sentence : list (dict pyval)) (sentence_batch : list sentence)
    (self : t) : run :=
  match f with
  | [] => returns self
  | (filename, line) :: f' =>
      if 0 <? lines_to_skip then
        read_loop batch_size n_sentences eof_name f' (lines_to_skip - 1)
                  this_sentence sentence_batch self
      else
        let self :=
          if decide (_current_file self = Some filename) then self
          else set_current_file (Some filename) self in
        match parse_line self filename line with
        | Raise e => raises self e
        | Ok (parse, cid) =>
        let this_sentence := (this_sentence ++ [parse])%list in
        let peeked :=
          match f' with
          | [] => (eof_name, dummy_line (_sep self))
          | next :: _ => next
          end in
        match parse_line self peeked.1 peeked.2 with
        | Raise e => raises self e
        | Ok (_, next_cid) =>
        let continue this_sentence sentence_batch self :=
          if reaches (_sentences_seen self) n_sentences
          then committed (cache (to_cache self)) (returns (to_cache self))
          else read_loop batch_size n_sentences eof_name f' lines_to_skip
                         this_sentence sentence_batch self in
        if negb (String.eqb next_cid cid) then
          let sentence_batch :=
            (sentence_batch ++ [Document this_sentence])%list in
          let sents_read := Z.of_nat (length sentence_batch) in
          if (batch_size <=? sents_read)
             || reaches (_sentences_seen self + sents_read) n_sentences
          then
            match flush_batch self sentence_batch with
            | Raise e => raises self e
            | Ok self => committed (cache self) (continue [] [] self)
            end
          else continue [] sentence_batch self
        else continue this_sentence sentence_batch self
        end
        end
  end.

(** The stream [fileinput.input(files=...)] iterates over, for a non-empty
    list of files (with an empty list [fileinput] reads the standard input,
    which is not modelled). [fs] gives the lines of each file. *)
Definition fileinput (fs : string -> list string) (files : list string)
  : list (string * string) :=
  flat_map (fun name => map (pair name) (fs name)) files.

(** [Corpus.read(batch_size)] *)
Definition read (fs : string -> list string) (batch_size : Z) (self : t)
  : run :=
  let lines_to_skip := _lines_read self in
  let n_sentences := _n_sentences self in
  let f := fileinput fs (_files self) in
  let self :=
    match _total self with
    | None =>
        set_total (Some (match n_sentences with
                         | Infinite => Z.of_nat (length f)
                         | Finite n => n
                         end)) self
    | Some _ => self
    end in
  let self := set_current_file None self in
  read_loop batch_size n_sentences (List.last (_files self) "")
            f lines_to_skip [] [] self.

End CachedCorpus.

(** ** The generator-style reader: [src/corpus.py] *)

Module StreamCorpus.
Import Py Stanza.

Definition bound := CachedCorpus.bound.
Definition reaches := CachedCorpus.reaches.

(** [_upos_token_stats], a [defaultdict] of [defaultdict(int)], is kept as
    one map keyed by (category, text). *)
Record t : Type := mk {
  _fmt : list string;
  _sep : string;
  _lower : bool;
  _n_sentences : bound;
  _store : bool;
  _parsed : bool;
  _files : list string;
  _upos_token_stats : gmap (field * field) Z;
  _pair_stats : gmap Edge Z;
  _sentences_seen : Z;
  _parsed_sentences : list sentence
}.

(** The [for ... else] scan over [fmt] in [__init__]: is there an item
    containing the text ["sentence_id:"]? *)
Definition has_sentence_id (fmt : list string) : bool :=
  existsb (str_in "sentence_id:") fmt.

(** [Corpus.__init__]. [files] is the list of resolved paths after
    [random.shuffle] (path resolution and the shuffle are external). *)
Definition __init__ (files : list string) (n_sentences : option Z)
    (store : bool) (fmt : list string) (sep : string) (lowercase : bool)
    (parsed : bool) : result t :=
  if negb (has_sentence_id fmt) then Raise ValueError
  else if negb parsed then Raise ValueError
  else
    Ok {| _fmt := fmt; _sep := sep; _lower := lowercase;
          _n_sentences :=
            match n_sentences with
            | Some n => if n =? 0 then CachedCorpus.Infinite
                        else CachedCorpus.Finite n
            | None => CachedCorpus.Infinite
            end;
          _store := store; _parsed := parsed; _files := files;
          _upos_token_stats := ∅; _pair_stats := ∅;
          _sentences_seen := 0; _parsed_sentences := [] |}.

(** [s.lower()] on the ASCII range. *)
Definition lower_char (c : ascii) : ascii :=
  let n := nat_of_ascii c in
  if ((65 <=? n) && (n <=? 90))%nat then ascii_of_nat (n + 32) else c.

Definition lower (s : string) : string :=
  string_of_list_ascii (map lower_char (list_ascii_of_string s)).

(** The statistics loop over [sent.words]: optional lowercasing of the
    text (an attribute of [str] only), then one increment per word. The
    counts made before an exception stay in the table. *)
Fixpoint count_words (lowercase : bool) (stats : gmap (field * field) Z)
    (ws : list word) : gmap (field * field) Z * result (list word) :=
  match ws with
  | [] => (stats, Ok [])
  | w :: ws' =>
      match (if lowercase then
               match text w with
               | Some (VStr s) =>
                   Ok (mk_word (Some (VStr (lower s))) (upos w) (head w))
               | _ => Raise AttributeError
               end
             else Ok w) with
      | Raise e => (stats, Raise e)
      | Ok w =>
          let r :=
            count_words lowercase (Counter.add (upos w, text w) 1 stats) ws' in
          (r.1, cons w <$> r.2)
      end
  end.

Definition set_stats (v : gmap (field * field) Z) (seen : Z)
    (stored : list sentence) (s : t) : t :=
  mk (_fmt s) (_sep s) (_lower s) (_n_sentences s) (_store s) (_parsed s)
     (_files s) v (_pair_stats s) seen stored.

(** What exhausting the generator [read()] produces: the sentences yielded,
    in order, the object afterwards, and the exception that ended the
    iteration, if any. *)
Record run : Type := mk_run {
  yielded : list sentence;
  final : t;
  raised : option exn
}.

Definition yields (s : sentence) (r : run) : run :=
  mk_run (s :: yielded r) (final r) (raised r).

Definition parse_line (self : t) (filename line : string)
  : result (dict pyval * string) :=
  parse ← segment_line line (_sep self) (_fmt self);
  sid ← dict_get parse "sentence_id";
  let cid := filename +:+ "_" +:+ format sid in
  Ok (dict_set parse "sentence_id" (VStr cid), cid).

(** The sentinel line of this version: the current composite id followed
    by ["_EOF"]. *)
Definition dummy_line (sep cid : string) : string :=
  (cid +:+ "_EOF") +:+ sep +:+
  join sep (map str_of_int (map Z.of_nat (seq 0 16))).

(** The [for line in f] loop of [read]. *)
Fixpoint read_loop (return_sentences : bool) (n_sentences : bound)
    (eof_name : string) (f : list (string * string))
    (this_sentence : list (dict pyval)) (self : t) : run :=
  match f with
  | [] => mk_run [] self None
  | (filename, line) :: f' =>
      if String.eqb (strip line) "" then
        read_loop return_sentences n_sentences eof_name f' this_sentence self
      else
        match parse_line self filename line with
        | Raise e => mk_run [] self (Some e)
        | Ok (parse, cid) =>
        let this_sentence := (this_sentence ++ [parse])%list in
        let peeked :=
          match f' with
          | [] => (eof_name, dummy_line (_sep self) cid)
          | next :: _ => next
          end in
        match parse_line self peeked.1 peeked.2 with
        | Raise e => mk_run [] self (Some e)
        | Ok (_, next_cid) =>
        let continue this_sentence self :=
          if reaches (_sentences_seen self) n_sentences
          then mk_run [] self None
          else read_loop return_sentences n_sentences eof_name f'
                         this_sentence self in
        if negb (String.eqb next_cid cid) then
          match count_words (_lower self) (_upos_token_stats self)
                            (Document this_sentence) with
          | (stats, Raise e) =>
              mk_run [] (set_stats stats (_sentences_seen self)
                                   (_parsed_sentences self) self) (Some e)
          | (stats, Ok sent) =>
              let self :=
                set_stats stats (_sentences_seen self + 1)
                  (if _store self
                   then (_parsed_sentences self ++ [sent])%list
                   else _parsed_sentences self) self in
              if return_sentences then yields sent (continue [] self)
              else continue [] self
          end
        else continue this_sentence self
        end
        end
  end.

(** [Corpus.read(return_sentences)], iterated to exhaustion. *)
Definition read (fs : string -> list string) (return_sentences : bool)
    (self : t) : run :=
  if _store self && (0 <? Z.of_nat (length (_parsed_sentences self))) then
    mk_run (_parsed_sentences self) self None
  else
    let self :=
      mk (_fmt self) (_sep self) (_lower self) (_n_sentences self)
         (_store self) (_parsed self) (_files self) ∅ ∅ 0 [] in
    read_loop return_sentences (_n_sentences self)
              (List.last (_files self) "")
              (CachedCorpus.fileinput fs (_files self)) [] self.

End StreamCorpus.

(** ** Floating-point values and data frames *)

Module Num.
Import Py.
Local Open Scope R_scope.

(** A [float]: rounding is not modelled, a finite value is a real number;
    the special values are kept apart, since the code relies on them
    ([fillna] replaces NaN, [log2(0)] is minus infinity). *)
Inductive float : Type :=
  | FReal (x : R)
  | FNaN
  | FInf (negative : bool).

Definition of_int (n : Z) : float := FReal (IZR n).

Definition fopp (a : float) : float :=
  match a with
  | FReal x => FReal (- x)
  | FNaN => FNaN
  | FInf s => FInf (negb s)
  end.

Definition fadd (a b : float) : float :=
  match a, b with
  | FReal x, FReal y => FReal (x + y)
  | FNaN, _ | _, FNaN => FNaN
  | FInf s, FInf s' => if Bool.eqb s s' then FInf s else FNaN
  | FInf s, FReal _ | FReal _, FInf s => FInf s
  end.

Definition fsub (a b : float) : float := fadd a (fopp b).

Definition fdiv (a b : float) : float :=
  match a, b with
  | FNaN, _ | _, FNaN => FNaN
  | FInf _, FInf _ => FNaN
  | FReal _, FInf _ => FReal 0
  | FInf s, FReal y => FInf (if Rlt_dec y 0 then negb s else s)
  | FReal x, FReal y =>
      if Req_EM_T y 0 then
        if Req_EM_T x 0 then FNaN else FInf (if Rlt_dec x 0 then true else false)
      else FReal (x / y)
  end.

(** The real logarithm in base 2. *)
Definition log2 (x : R) : R := ln x / ln 2.

(** [np.log2] on an integer. *)
Definition np_log2 (n : Z) : float :=
  if (0 <? n)%Z then FReal (log2 (IZR n))
  else if (n =? 0)%Z then FInf true
  else FNaN.

(** [np.log2] on a float. *)
Definition flog2 (a : float) : float :=
  match a with
  | FReal x =>
      if Rlt_dec 0 x then FReal (log2 x)
      else if Req_EM_T x 0 then FInf true else FNaN
  | FNaN => FNaN
  | FInf s => if s then FNaN else FInf false
  end.

(** [scipy.special.entr]: [-x ln x] for positive [x], 0 at 0, minus
    infinity below. *)
Definition entr (a : float) : float :=
  match a with
  | FReal x =>
      if Rlt_dec 0 x then FReal (- x * ln x)
      else if Req_EM_T x 0 then FReal 0 else FInf true
  | FNaN => FNaN
  | FInf _ => FInf true
  end.

Definition fsum (l : list float) : float := foldl fadd (FReal 0) l.

(** [scipy.stats.entropy(pk)] along one axis, with its default arguments
    ([qk=None], [base=None]): [pk] is normalised to sum 1 and the entropy is
    taken with the natural logarithm. *)
Definition entropy (pk : list float) : float :=
  let total := fsum pk in
  fsum (map (fun x => entr (fdiv x total)) pk).

End Num.

Module Frame.
Import Py Num.

(** The values found in the cells of the data frames. *)
Inductive cell : Type :=
  | CStr (s : string)
  | CInt (n : Z)
  | CPair (c p : string)
  | CFloat (x : float).

(** A [pandas.DataFrame] with a default index: the column labels in order
    and the rows, each with one cell per column. *)
Record DataFrame : Type := mk {
  columns : list string;
  rows : list (list cell)
}.

(** [pd.DataFrame(records)] for records that all have the keys [cols]:
    without records the frame has no columns. *)
Definition of_records (cols : list string) (records : list (list cell))
  : DataFrame :=
  match records with
  | [] => mk [] []
  | _ => mk cols records
  end.

(** [key in df] *)
Definition has_column (df : DataFrame) (key : string) : bool :=
  existsb (String.eqb key) (columns df).

Fixpoint index_of (key : string) (cols : list string) : option nat :=
  match cols with
  | [] => None
  | c :: cols' =>
      if String.eqb c key then Some O else S <$> index_of key cols'
  end.

(** [row[key]] *)
Definition row_get (cols : list string) (row : list cell) (key : string)
  : result cell :=
  match index_of key cols with
  | Some i =>
      match nth_error row i with
      | Some c => Ok c
      | None => Raise KeyError
      end
  | None => Raise KeyError
  end.

(** [df[key]] as a list. *)
Fixpoint column_go (cols : list string) (key : string) (rs : list (list cell))
  : result (list cell) :=
  match rs with
  | [] => Ok []
  | r :: rs' =>
      c ← row_get cols r key;
      cs ← column_go cols key rs';
      Ok (c :: cs)
  end.

Definition column (df : DataFrame) (key : string) : result (list cell) :=
  if has_column df key then column_go (columns df) key (rows df)
  else Raise KeyError.

Fixpoint zip_rows (i : option nat) (rs : list (list cell)) (vs : list cell)
  : list (list cell) :=
  match rs, vs with
  | r :: rs', v :: vs' =>
      match i with
      | Some i => <[i := v]> r
      | None => (r ++ [v])%list
      end :: zip_rows i rs' vs'
  | _, _ => []
  end.

(** [df[key] = values]: an existing column is replaced in place, a new one
    is appended; the number of values must be the number of rows. *)
Definition set_column (df : DataFrame) (key : string) (values : list cell)
  : result DataFrame :=
  if negb (length values =? length (rows df))%nat then Raise ValueError
  else
    match index_of key (columns df) with
    | Some i => Ok (mk (columns df) (zip_rows (Some i) (rows df) values))
    | None =>
        Ok (mk (columns df ++ [key])%list (zip_rows None (rows df) values))
    end.

Definition int_key (cols : list string) (key : string) (row : list cell) : Z :=
  match row_get cols row key with
  | Ok (CInt n) => n
  | _ => 0
  end.

Fixpoint insert_desc (k : list cell -> Z) (r : list cell)
    (sorted : list (list cell)) : list (list cell) :=
  match sorted with
  | [] => [r]
  | r' :: sorted' =>
      if (k r' <=? k r)%Z then r :: sorted
      else r' :: insert_desc k r sorted'
  end.

(** [df.sort_values(key, ascending=False, ignore_index=True)] on an integer
    column. Rows with equal keys keep their relative order here; pandas
    leaves the order of ties to its sorting algorithm. *)
Definition sort_values_desc (df : DataFrame) (key : string)
  : result DataFrame :=
  if has_column df key then
    Ok (mk (columns df)
           (foldr (insert_desc (int_key (columns df) key)) [] (rows df)))
  else Raise KeyError.

End Frame.

(** ** The composition analysis: [src/composlang/composition.py] *)

Module CompositionAnalysis.
Import Py Num Frame.

(** A [dict] or [Counter] in insertion order, for keys with decidable
    equality. *)
Section assoc.
Context {K V : Type} `{EqDecision K}.

Fixpoint assoc_get (d : list (K * V)) (k : K) : option V :=
  match d with
  | [] => None
  | (k', v) :: d' => if decide (k' = k) then Some v else assoc_get d' k
  end.

Fixpoint assoc_set (d : list (K * V)) (k : K) (v : V) : list (K * V) :=
  match d with
  | [] => [(k, v)]
  | (k', v') :: d' =>
      if decide (k' = k) then (k, v) :: d' else (k', v') :: assoc_set d' k v
  end.

(** [{k: v for ...}]: the items are stored one after the other. *)
Definition assoc_of_items (items : list (K * V)) : list (K * V) :=
  foldl (fun d kv => assoc_set d kv.1 kv.2) [] items.
End assoc.

(** [d[k] += n] on a [defaultdict(int)]. *)
Definition bump (d : list (string * Z)) (k : string) (n : Z)
  : list (string * Z) :=
  assoc_set d k (default 0 (assoc_get d k) + n).

(** The tables of the corpus object handed to the analysis
    ([corpus.token_stats], [corpus.pair_stats], [corpus.skip_pair_stats] of
    [composlang.corpus.Corpus]), as their [items()] in iteration order. *)
Record corpus_tables : Type := mk_tables {
  corpus_token_stats : list ((string * string) * Z);
  corpus_pair_stats : list (((string * string) * (string * string)) * Z);
  corpus_skip_pair_stats : list (((string * string) * (string * string)) * Z)
}.

(** A two-dimensional [np.ndarray] of floats: [shape] is
    [(length data, ncols)]. *)
Record ndarray : Type := mk_array {
  ncols : nat;
  data : list (list float)
}.

Record t : Type := mk {
  child_upos : string;
  parent_upos : string;
  n_tokens : Z;
  token_stats : list (string * Z);
  child_df : DataFrame;
  parent_df : DataFrame;
  pair_stats : list ((string * string) * Z);
  pair_df : DataFrame;
  skip_pair_stats : list ((string * string) * Z);
  skip_pair_df : DataFrame;
  matrix : option ndarray
}.

Definition set_child_df (v : DataFrame) (s : t) : t :=
  mk (child_upos s) (parent_upos s) (n_tokens s) (token_stats s) v
     (parent_df s) (pair_stats s) (pair_df s) (skip_pair_stats s)
     (skip_pair_df s) (matrix s).
Definition set_parent_df (v : DataFrame) (s : t) : t :=
  mk (child_upos s) (parent_upos s) (n_tokens s) (token_stats s)
     (child_df s) v (pair_stats s) (pair_df s) (skip_pair_stats s)
     (skip_pair_df s) (matrix s).
Definition set_pair_df (v : DataFrame) (s : t) : t :=
  mk (child_upos s) (parent_upos s) (n_tokens s) (token_stats s)
     (child_df s) (parent_df s) (pair_stats s) v (skip_pair_stats s)
     (skip_pair_df s) (matrix s).
Definition set_skip_pair_df (v : DataFrame) (s : t) : t :=
  mk (child_upos s) (parent_upos s) (n_tokens s) (token_stats s)
     (child_df s) (parent_df s) (pair_stats s) (pair_df s)
     (skip_pair_stats s) v (matrix s).
Definition set_matrix (v : option ndarray) (s : t) : t :=
  mk (child_upos s) (parent_upos s) (n_tokens s) (token_stats s)
     (child_df s) (parent_df s) (pair_stats s) (pair_df s)
     (skip_pair_stats s) (skip_pair_df s) v.

(** The rows [dict(token=t, upos=u, freq=ct)] of the tokens of one
    category. *)
Definition token_records (upos : string)
    (items : list ((string * string) * Z)) : list (list cell) :=
  map (fun it => [CStr it.1.1; CStr it.1.2; CInt it.2])
      (filter (fun it => it.1.2 = upos) items).

(** The pairs whose child and parent have the selected categories, keyed by
    the two texts. *)
Definition select_pairs (child_upos parent_upos : string)
    (items : list (((string * string) * (string * string)) * Z))
  : list ((string * string) * Z) :=
  assoc_of_items
    (map (fun it => ((it.1.1.1, it.1.2.1), it.2))
         (filter (fun it => it.1.1.2 = child_upos ∧ it.1.2.2 = parent_upos)
                 items)).

(** The rows [dict(child=c, parent=p, pair=(c,p), freq=ct)]. *)
Definition pair_records (stats : list ((string * string) * Z))
  : list (list cell) :=
  map (fun it => [CStr it.1.1; CStr it.1.2; CPair it.1.1 it.1.2; CInt it.2])
      stats.

(** [_crunch_corpus_stats], from a fresh object ([matrix] is the class
    attribute [None]). *)
Definition _crunch_corpus_stats (child_upos parent_upos : string)
    (corpus : corpus_tables) : result t :=
  let ts := corpus_token_stats corpus in
  let child_dicts := token_records child_upos ts in
  let parent_dicts := token_records parent_upos ts in
  let n_tokens := foldr Z.add 0 (map snd ts) in
  let token_stats :=
    assoc_of_items
      (map (fun it => (it.1.1, it.2))
           (filter (fun it => it.1.2 = child_upos ∨ it.1.2 = parent_upos) ts)) in
  child_df ← sort_values_desc
                (of_records ["token"; "upos"; "freq"] child_dicts) "freq";
  parent_df ← sort_values_desc
                 (of_records ["token"; "upos"; "freq"] parent_dicts) "freq";
  let pair_stats :=
    select_pairs child_upos parent_upos (corpus_pair_stats corpus) in
  pair_df ← sort_values_desc
               (of_records ["child"; "parent"; "pair"; "freq"]
                           (pair_records pair_stats)) "freq";
  let skip_pair_stats :=
    select_pairs child_upos parent_upos (corpus_skip_pair_stats corpus) in
  skip_pair_df ← sort_values_desc
                    (of_records ["child"; "parent"; "pair"; "freq"]
                                (pair_records skip_pair_stats)) "freq";
  Ok {| child_upos := child_upos; parent_upos := parent_upos;
        n_tokens := n_tokens; token_stats := token_stats;
        child_df := child_df; parent_df := parent_df;
        pair_stats := pair_stats; pair_df := pair_df;
        skip_pair_stats := skip_pair_stats; skip_pair_df := skip_pair_df;
        matrix := None |}.

(** Equality of two cells as dictionary keys. *)
Definition cell_eqb (a b : cell) : bool :=
  match a, b with
  | CStr s, CStr s' => String.eqb s s'
  | CInt n, CInt n' => (n =? n')%Z
  | CPair c p, CPair c' p' => String.eqb c c' && String.eqb p p'
  | CInt n, CFloat (FReal x) | CFloat (FReal x), CInt n =>
      if Req_EM_T (IZR n) x then true else false
  | CFloat (FReal x), CFloat (FReal y) => if Req_EM_T x y then true else false
  | CFloat (FInf s), CFloat (FInf s') => Bool.eqb s s'
  | _, _ => false
  end.

(** [{token: ix for ix, token in enumerate(tokens)}[c]]: the last position
    of [c] among the tokens. *)
Fixpoint to_ix (tokens : list cell) (ix : nat) (found : option nat) (c : cell)
  : option nat :=
  match tokens with
  | [] => found
  | tk :: tokens' =>
      to_ix tokens' (S ix) (if cell_eqb tk c then Some ix else found) c
  end.

(** The conversion done by [matrix[cix, pix] = value]. *)
Definition to_float (c : cell) : result float :=
  match c with
  | CInt n => Ok (of_int n)
  | CFloat x => Ok x
  | CStr _ => Raise ValueError
  | CPair _ _ => Raise ValueError
  end.

(** The loop filling the matrix. [cix] and [pix] are the loop's variables
    of these names, unbound before the first successful lookup; after a
    [KeyError] (which is only printed) they keep their previous values. *)
Fixpoint fill_matrix (cols : list string) (stat : string)
    (child_tokens parent_tokens : list cell)
    (rs : list (list cell)) (cix pix : option nat)
    (matrix : list (list float)) : result (list (list float)) :=
  match rs with
  | [] => Ok matrix
  | row :: rs' =>
      c ← row_get cols row "child";
      p ← row_get cols row "parent";
      value ← row_get cols row stat;
      let '(cix, pix) :=
        match to_ix child_tokens O None c with
        | None => (cix, pix)
        | Some ci =>
            match to_ix parent_tokens O None p with
            | None => (Some ci, pix)
            | Some pj => (Some ci, Some pj)
            end
        end in
      match cix, pix with
      | Some i, Some j =>
          x ← to_float value;
          fill_matrix cols stat child_tokens parent_tokens rs' cix pix
            (alter (fun r => <[j := x]> r) i matrix)
      | _, _ => Raise UnboundLocalError
      end
  end.

(** [generate_adjacency_matrix(skip, stat)]: the matrix returned and the
    object afterwards. *)
Definition generate_adjacency_matrix (skip : bool) (stat : string) (self : t)
  : result (ndarray * t) :=
  match matrix self with
  | Some m => Ok (m, self)
  | None =>
      child_tokens ← column (child_df self) "token";
      parent_tokens ← column (parent_df self) "token";
      let zeros :=
        repeat (repeat (FReal 0%R) (length parent_tokens))
               (length child_tokens) in
      let df := if skip then skip_pair_df self else pair_df self in
      m ← fill_matrix (columns df) stat child_tokens parent_tokens (rows df)
            None None zeros;
      let m := mk_array (length parent_tokens) m in
      Ok (m, set_matrix (Some m) self)
  end.

(** [[d[k] for k in df['token']]] on a [defaultdict(int)] keyed by text. *)
Definition lookup_counts (d : list (string * Z)) (tokens : list cell)
  : list cell :=
  map (fun k => match k with
                | CStr s => CInt (default 0 (assoc_get d s))
                | _ => CInt 0
                end) tokens.

(** The four tallies of one pass of [compute_combinations] over
    [stat_dict.items()]: totals and distinct-partner counts, per child and
    per parent. *)
Record tallies : Type := mk_tallies {
  child_to_parent : list (string * Z);
  collapsed_child_to_parent : list (string * Z);
  parent_to_child : list (string * Z);
  collapsed_parent_to_child : list (string * Z)
}.

Definition tally (stat_dict : list ((string * string) * Z)) : tallies :=
  foldl (fun acc it =>
           let '((w, p), ct) := it in
           mk_tallies (bump (child_to_parent acc) w ct)
                      (bump (collapsed_child_to_parent acc) w 1)
                      (bump (parent_to_child acc) p ct)
                      (bump (collapsed_parent_to_child acc) p 1))
        (mk_tallies [] [] [] []) stat_dict.

(** One iteration of the loop of [compute_combinations]. *)
Definition combinations_step (key : string)
    (stat_dict : list ((string * string) * Z)) (self : t) : result t :=
  if has_column (child_df self) key && has_column (parent_df self) key
  then Ok self
  else
    let tl := tally stat_dict in
    ctoks ← column (child_df self) "token";
    cdf ← set_column (child_df self) key
            (lookup_counts (child_to_parent tl) ctoks);
    let self := set_child_df cdf self in
    ptoks ← column (parent_df self) "token";
    pdf ← set_column (parent_df self) key
            (lookup_counts (parent_to_child tl) ptoks);
    let self := set_parent_df pdf self in
    ctoks ← column (child_df self) "token";
    cdf ← set_column (child_df self) (key +:+ "_collapsed")
            (lookup_counts (collapsed_child_to_parent tl) ctoks);
    let self := set_child_df cdf self in
    ptoks ← column (parent_df self) "token";
    pdf ← set_column (parent_df self) (key +:+ "_collapsed")
            (lookup_counts (collapsed_parent_to_child tl) ptoks);
    Ok (set_parent_df pdf self).

(** [compute_combinations] *)
Definition compute_combinations (self : t) : result t :=
  self ← combinations_step "combinations" (pair_stats self) self;
  combinations_step "skip_combinations" (skip_pair_stats self) self.

(** [scipy.stats.entropy(matrix, axis=1)] and [axis=0]. *)
Definition entropy_rows (m : ndarray) : list float :=
  map entropy (data m).

Definition entropy_columns (m : ndarray) : list float :=
  map (fun j => entropy (map (fun r => nth j r (FReal 0%R)) (data m)))
      (seq 0 (ncols m)).

(** [Series.fillna(0)] *)
Definition fillna0 (x : float) : float :=
  match x with
  | FNaN => FReal 0%R
  | _ => x
  end.

(** The normaliser of the ceilinged entropy: [freq] where [freq] is below
    the length of the other axis, that length otherwise. *)
Definition norm_denom (other_axis : Z) (freq : Z) : Z :=
  if freq <? other_axis then freq else other_axis.

Fixpoint int_cells (cs : list cell) : result (list Z) :=
  match cs with
  | [] => Ok []
  | CInt n :: cs' => ns ← int_cells cs'; Ok (n :: ns)
  | _ :: _ => Raise TypeError
  end.

(** [df[name] / np.log2(denom)], element by element. *)
Definition ceilinged (ent : list float) (denom : list Z) : list cell :=
  map (fun ed => CFloat (fdiv ed.1 (np_log2 ed.2))) (zip ent denom).

(** One iteration of the loop of [compute_entropy], past its test. *)
Definition entropy_step (column_name : string) (skip : bool) (self : t)
  : result t :=
  '(m, self) ← generate_adjacency_matrix skip "freq" self;
  let child_ent := map fillna0 (entropy_rows m) in
  let parent_ent := map fillna0 (entropy_columns m) in
  cdf ← set_column (child_df self) column_name (map CFloat child_ent);
  pdf ← set_column (parent_df self) column_name (map CFloat parent_ent);
  pfreq ← column pdf "freq" ≫= int_cells;
  cfreq ← column cdf "freq" ≫= int_cells;
  let parent_norm_denom :=
    map (norm_denom (Z.of_nat (length (data m)))) pfreq in
  let child_norm_denom := map (norm_denom (Z.of_nat (ncols m))) cfreq in
  pdf ← set_column pdf (column_name +:+ "_ceilinged")
          (ceilinged parent_ent parent_norm_denom);
  cdf ← set_column cdf (column_name +:+ "_ceilinged")
          (ceilinged child_ent child_norm_denom);
  Ok (set_parent_df pdf (set_child_df cdf self)).

(** [compute_entropy]: the test at the head of each iteration leaves the
    whole function ([return]) when the column is in both frames. *)
Definition compute_entropy (self : t) : result t :=
  if has_column (child_df self) "entropy"
     && has_column (parent_df self) "entropy"
  then Ok self
  else
    self ← entropy_step "entropy" false self;
    if has_column (child_df self) "entropy_skip"
       && has_column (parent_df self) "entropy_skip"
    then Ok self
    else entropy_step "entropy_skip" true self.

(** [self.token_stats[w]] followed by [np.log2]. *)
Definition log2_freq (self : t) (w : string) : result float :=
  match assoc_get (token_stats self) w with
  | Some n => Ok (np_log2 n)
  | None => Raise KeyError
  end.

(** The body of the row loop of [compute_pmi]. The row is unpacked into the
    four targets [(w, p, (w, p), ct)]; the texts are the ones bound last,
    from the third cell. *)
Definition row_pmi (self : t) (row : list cell) : result float :=
  match row with
  | [_; _; third; ct] =>
      '(w, p) ← match third with
                | CPair w p => Ok (w, p)
                | CStr (String a (String b EmptyString)) =>
                    Ok (String a EmptyString, String b EmptyString)
                | CStr _ => Raise ValueError
                | _ => Raise TypeError
                end;
      p_given_w_ct ← match ct with
                      | CInt n => Ok (np_log2 n)
                      | CFloat x => Ok (flog2 x)
                      | _ => Raise TypeError
                      end;
      p_ct ← log2_freq self p;
      w_ct ← log2_freq self w;
      Ok (fsub (fsub p_given_w_ct w_ct)
               (fsub p_ct (np_log2 (n_tokens self))))
  | _ => Raise ValueError
  end.

Fixpoint pmi_rows (self : t) (rs : list (list cell)) : result (list float) :=
  match rs with
  | [] => Ok []
  | r :: rs' =>
      x ← row_pmi self r;
      xs ← pmi_rows self rs';
      Ok (x :: xs)
  end.

(** One iteration of the loop of [compute_pmi] on the frame [stat_df]; the
    test reads the columns of [child_df] and [parent_df]. *)
Definition pmi_step (key : string) (stat_df : DataFrame) (self : t)
  : result DataFrame :=
  if has_column (child_df self) key && has_column (parent_df self) key
  then Ok stat_df
  else
    pmi ← pmi_rows self (rows stat_df);
    set_column stat_df key (map CFloat pmi).

(** [compute_pmi] *)
Definition compute_pmi (self : t) : result t :=
  df ← pmi_step "pmi" (pair_df self) self;
  let self := set_pair_df df self in
  df ← pmi_step "skip_pmi" (skip_pair_df self) self;
  Ok (set_skip_pair_df df self).

(** [run_analyses] *)
Definition run_analyses (self : t) : result t :=
  self ← compute_combinations self;
  self ← compute_entropy self;
  compute_pmi self.

(** [CompositionAnalysis(corpus, child_upos, parent_upos, run_analyses)]
    for a corpus object. *)
Definition __init__ (corpus : corpus_tables) (child_upos parent_upos : string)
    (analyses : bool) : result t :=
  self ← _crunch_corpus_stats child_upos parent_upos corpus;
  if analyses then run_analyses self else Ok self.

End CompositionAnalysis.

(** ** Derived notions used in the statements *)

Module Spec.
Import Py Stanza.




(** The sum of the counts of one key over a list of local tables. *)
Definition sum_counts `{Countable K} (k : K) (tables : list (gmap K Z)) : Z :=
  foldr Z.add 0 (map (fun c => Counter.count c k) tables).

(** A new [Corpus] object on the same input and cache tag as [self], after
    the process that ran [self] was interrupted with [disk] committed. *)
Definition reopen (self : CachedCorpus.t) (n_sentences : option Z)
    (disk : CachedCorpus.store) : result CachedCorpus.t :=
  CachedCorpus.__init__ (CachedCorpus._files self) disk n_sentences
    (CachedCorpus._fmt self) (CachedCorpus._sep self)
    (CachedCorpus._lower self).

(** Is there a field of the schema whose name is [sentence_id]? The name
    of a field is the part of the item before the colon. *)
Definition names_sentence_id (fmt : list string) : bool :=
  existsb (fun item =>
             match split item ":" with
             | Ok (label :: _) => String.eqb label "sentence_id"
             | _ => false
             end) fmt.

(** The total the PMI claim names: the occurrences of all tokens whose
    category is one of the two selected ones. *)
Definition selected_occurrences (child_upos parent_upos : string)
    (items : list ((string * string) * Z)) : Z :=
  foldr Z.add 0
    (map snd (filter (fun it => it.1.2 = child_upos ∨ it.1.2 = parent_upos)
                     items)).

(** The occurrences of all tokens of the corpus. *)
Definition all_occurrences (items : list ((string * string) * Z)) : Z :=
  foldr Z.add 0 (map snd items).

(** A matrix row that is uniform over its nonzero cells: the value [v] in
    the cells marked by [mask], zero elsewhere; [support] counts the marked
    cells. *)
Definition uniform_row (v : R) (mask : list bool) : list Num.float :=
  map (fun b : bool => Num.FReal (if b then v else 0%R)) mask.

Definition support (mask : list bool) : nat :=
  length (filter (fun b : bool => b = true) mask).

(** The row of a pair frame made from one entry of a pair table. *)
Definition is_pair_row (stats : list ((string * string) * Z))
    (r : list Frame.cell) : Prop :=
  exists c p ct, In ((c, p), ct) stats
                 /\ r = [Frame.CStr c; Frame.CStr p; Frame.CPair c p;
                         Frame.CInt ct].

(** Every text of the two pair tables has an entry in [token_stats]. *)
Definition texts_known (self : CompositionAnalysis.t) : Prop :=
  forall c p ct,
    In ((c, p), ct) (CompositionAnalysis.pair_stats self
                     ++ CompositionAnalysis.skip_pair_stats self)%list ->
    is_Some (CompositionAnalysis.assoc_get
               (CompositionAnalysis.token_stats self) c)
    /\ is_Some (CompositionAnalysis.assoc_get
                  (CompositionAnalysis.token_stats self) p).

(** Two reader objects that agree on everything [read] computes with: the
    schema, the separator, the position counters and the two tables. *)
Definition same_reading_state (a b : CachedCorpus.t) : Prop :=
  CachedCorpus._fmt a = CachedCorpus._fmt b
  /\ CachedCorpus._sep a = CachedCorpus._sep b
  /\ CachedCorpus._lines_read a = CachedCorpus._lines_read b
  /\ CachedCorpus._sentences_seen a = CachedCorpus._sentences_seen b
  /\ CachedCorpus._token_stats a = CachedCorpus._token_stats b
  /\ CachedCorpus._pair_stats a = CachedCorpus._pair_stats b.

(** The number of lines of a batch of sentences. *)
Definition batch_lines (sb : list sentence) : Z :=
  foldr Z.add 0 (map (fun s : sentence => Z.of_nat (length s)) sb).

End Spec.

(** ** Concrete inputs *)

Module Scenario.
Import Py Stanza.

Definition TAB : string := String (ascii_of_nat 9) "".
Definition NL : string := String (ascii_of_nat 10) "".

(** The default [fmt] of both constructors. *)
Definition default_fmt : list string :=
  ["sentence_id:int"; "text:str"; "lemma:str"; "id:int"; "head:int";
   "upos:str"; "deprel:str"].

(** The same columns with a string-typed [sentence_id]. *)
Definition str_fmt : list string :=
  ["sentence_id:str"; "text:str"; "lemma:str"; "id:int"; "head:int";
   "upos:str"; "deprel:str"].

(** One token line in the default column order, ending in a newline. *)
Definition token_line (sentence_id text id head upos deprel : string)
  : string :=
  join TAB [sentence_id; text; text; id; head; upos; deprel] +:+ NL.

(** A file whose lines carry the sentence ids 1,1,1,2,2,3. *)
Definition six_lines : list string :=
  [ token_line "1" "red" "1" "2" "ADJ" "amod";
    token_line "1" "apple" "2" "0" "NOUN" "root";
    token_line "1" "falls" "3" "2" "VERB" "acl";
    token_line "2" "big" "1" "2" "ADJ" "amod";
    token_line "2" "dog" "2" "0" "NOUN" "root";
    token_line "3" "go" "1" "0" "VERB" "root" ].

(** Two token lines of one sentence with a blank line in between. *)
Definition blank_inside : list string :=
  [ token_line "1" "red" "1" "2" "ADJ" "amod";
    NL;
    token_line "1" "apple" "2" "0" "NOUN" "root" ].

(** Three one-word sentences. *)
Definition three_words : list string :=
  [ token_line "1" "go" "1" "0" "VERB" "root";
    token_line "2" "stop" "1" "0" "VERB" "root";
    token_line "3" "wait" "1" "0" "VERB" "root" ].

(** A file system with the single file [corpus.txt]. *)
Definition single_file (lines : list string) (name : string) : list string :=
  if String.eqb name "corpus.txt" then lines else [].

(** Corpus tables with a third category: 2 occurrences in the selected
    categories, 5 in all. *)
Definition with_determiner : CompositionAnalysis.corpus_tables :=
  CompositionAnalysis.mk_tables
    [(("red", "ADJ"), 1); (("apple", "NOUN"), 1); (("the", "DET"), 3)]
    [((("red", "ADJ"), ("apple", "NOUN")), 1)]
    [((("red", "ADJ"), ("apple", "NOUN")), 1)].

(** The example of the PMI: "red" 100 times, "apple" 50 times, together 10
    times, 10000 tokens in all. *)
Definition red_apple : CompositionAnalysis.corpus_tables :=
  CompositionAnalysis.mk_tables
    [(("red", "ADJ"), 100); (("apple", "NOUN"), 50); (("the", "DET"), 9850)]
    [((("red", "ADJ"), ("apple", "NOUN")), 10)]
    [((("red", "ADJ"), ("apple", "NOUN")), 10)].

(** One adjective seen once with each of two nouns; the skip relation
    pairs it with only one of them. *)
Definition two_nouns : CompositionAnalysis.corpus_tables :=
  CompositionAnalysis.mk_tables
    [(("red", "ADJ"), 2); (("apple", "NOUN"), 1); (("rose", "NOUN"), 1)]
    [((("red", "ADJ"), ("apple", "NOUN")), 1);
     ((("red", "ADJ"), ("rose", "NOUN")), 1)]
    [((("red", "ADJ"), ("rose", "NOUN")), 5)].

(** A text counted under both selected categories. *)
Definition red_twice : CompositionAnalysis.corpus_tables :=
  CompositionAnalysis.mk_tables
    [(("red", "ADJ"), 3); (("apple", "NOUN"), 5); (("red", "NOUN"), 1)]
    [((("red", "ADJ"), ("apple", "NOUN")), 2)]
    [((("red", "ADJ"), ("apple", "NOUN")), 1)].

(** Three sentences of the data model. *)
Definition s_red_apple : sentence :=
  [ mk_word (Some (VStr "red")) (Some (VStr "ADJ")) (Some (VInt 2));
    mk_word (Some (VStr "apple")) (Some (VStr "NOUN")) (Some (VInt 0)) ].

(** A reader object before anything was read. *)
Definition fresh : CachedCorpus.t :=
  CachedCorpus.mk default_fmt TAB true ["corpus.txt"] CachedCorpus.Infinite
    None 0 0 None ∅ ∅ CachedCorpus.empty_store.

End Scenario.

(** ** Pairs of two categories: [src/corpus.py] *)

Module UposPairs.
Import Py Stanza.

(** What a generator produces when it is iterated to exhaustion: the
    values yielded and the exception that ended the iteration, if any. *)
Definition gen (A : Type) : Type := list A * option exn.

(** The loop of [Corpus._extract_upos_pairs]: a word of the child category
    is paired with [sentence.words[w.head-1]] if that word has the parent
    category; with [include_context] the words of the sentence are yielded
    along. *)
Fixpoint upos_pairs_go (words ws : sentence)
    (child_upos parent_upos : string) (include_context : bool)
  : gen (Word * Word * option sentence) :=
  match ws with
  | [] => ([], None)
  | w :: ws' =>
      if decide (upos w = Some (VStr child_upos)) then
        match head w with
        | Some (VInt h) =>
            match list_index words (h - 1) with
            | Ok p =>
                let rest :=
                  upos_pairs_go words ws' child_upos parent_upos
                                include_context in
                if decide (upos p = Some (VStr parent_upos)) then
                  ((Word_of w, Word_of p,
                    if include_context then Some words else None) :: rest.1,
                   rest.2)
                else rest
            | Raise e => ([], Some e)
            end
        | _ => ([], Some TypeError)
        end
      else upos_pairs_go words ws' child_upos parent_upos include_context
  end.

Definition _extract_upos_pairs (sentence : sentence)
    (child_upos parent_upos : string) (include_context : bool)
  : gen (Word * Word * option Stanza.sentence) :=
  upos_pairs_go sentence sentence child_upos parent_upos include_context.

(** [yield from] over the sentences a generator gives, which ends with
    [at_end]. *)
Fixpoint yield_from_each (sentences : list sentence) (at_end : option exn)
    (child_upos parent_upos : string) (include_context : bool)
  : gen (Word * Word * option sentence) :=
  match sentences with
  | [] => ([], at_end)
  | s :: rest =>
      let r := _extract_upos_pairs s child_upos parent_upos include_context in
      match r.2 with
      | Some e => r
      | None =>
          let r' := yield_from_each rest at_end child_upos parent_upos
                                    include_context in
          ((r.1 ++ r'.1)%list, r'.2)
      end
  end.

(** [Corpus.extract_upos_pairs], iterated to exhaustion. *)
Definition extract_upos_pairs (fs : string -> list string)
    (child_upos parent_upos : string) (include_context : bool)
    (self : StreamCorpus.t) : gen (Word * Word * option sentence) :=
  let r := StreamCorpus.read fs true self in
  yield_from_each (StreamCorpus.yielded r) (StreamCorpus.raised r)
                  child_upos parent_upos include_context.

End UposPairs.

(** ** The word graph: [src/wordmatrix.py] *)

Module WordGraph.
Import Py Stanza.

(** [str(w)] for a [Word] of [src/corpus.py]: [Word.__str__] returns the
    text, and [str] insists on getting a [str]. *)
Definition str_word (w : Word) : result string :=
  match w.1 with
  | Some (VStr s) => Ok s
  | _ => Raise TypeError
  end.

(** [str(x)] for an attribute of a word. *)
Definition str_field (x : field) : string :=
  match x with
  | Some v => format v
  | None => "None"
  end.

(** An [nx.DiGraph] as far as [WordGraph] uses it: the nodes with their
    attributes ([label], [group]; [None] for a node without attributes) and
    the edges with the number held by their attributes [label] and [value],
    both in insertion order. *)
Record DiGraph : Type := mk_graph {
  g_nodes : list (nat * option (string * string));
  g_edges : list ((nat * nat) * Z)
}.

(** [g.add_node(n, label=..., group=...)]: a new node is added, the
    attributes of an existing one are updated. *)
Definition add_node (g : DiGraph) (n : nat) (attrs : string * string)
  : DiGraph :=
  mk_graph (CompositionAnalysis.assoc_set (g_nodes g) n (Some attrs))
           (g_edges g).

(** The nodes of [g] with [n] added, without attributes, unless it is
    there. *)
Definition with_node (ns : list (nat * option (string * string))) (n : nat)
  : list (nat * option (string * string)) :=
  match CompositionAnalysis.assoc_get ns n with
  | Some _ => ns
  | None => CompositionAnalysis.assoc_set ns n None
  end.

(** [g.add_edge(u, v, label=numocc, value=numocc)]: missing end points
    become nodes. *)
Definition add_edge (g : DiGraph) (u v : nat) (numocc : Z) : DiGraph :=
  mk_graph (with_node (with_node (g_nodes g) u) v)
           (CompositionAnalysis.assoc_set (g_edges g) (u, v) numocc).

(** The local variables of [__init__] during its first loop. *)
Record locals : Type := mk_locals {
  nodes : list (Word * nat);
  edges : list ((nat * nat) * Z);
  g : DiGraph
}.

(** [d[k]] *)
Definition getitem {K V} `{EqDecision K} (d : list (K * V)) (k : K)
  : result V :=
  match CompositionAnalysis.assoc_get d k with
  | Some v => Ok v
  | None => Raise KeyError
  end.

(** The body of the loop over [wordpairs]. *)
Definition visit (l : locals) (wp : Word * Word) : result locals :=
  let '(w, p) := wp in
  let nodes :=
    CompositionAnalysis.assoc_set (nodes l) w
      (default (length (nodes l))
               (CompositionAnalysis.assoc_get (nodes l) w)) in
  let nodes :=
    CompositionAnalysis.assoc_set nodes p
      (default (length nodes) (CompositionAnalysis.assoc_get nodes p)) in
  iw ← getitem nodes w;
  label ← str_word w;
  let g := add_node (g l) iw (label, str_field w.2) in
  ip ← getitem nodes p;
  label ← str_word p;
  let g := add_node g ip (label, str_field p.2) in
  iw ← getitem nodes w;
  ip ← getitem nodes p;
  let edges :=
    CompositionAnalysis.assoc_set (edges l) (iw, ip)
      (default 0 (CompositionAnalysis.assoc_get (edges l) (iw, ip)) + 1) in
  Ok (mk_locals nodes edges g).

Fixpoint visit_all (l : locals) (wordpairs : list (Word * Word))
  : result locals :=
  match wordpairs with
  | [] => Ok l
  | wp :: rest => l ← visit l wp; visit_all l rest
  end.

(** [WordGraph(wordpairs)]: the graph [self.g]. *)
Definition __init__ (wordpairs : list (Word * Word)) : result DiGraph :=
  l ← visit_all (mk_locals [] [] (mk_graph [] [])) wordpairs;
  Ok (foldl (fun g e => add_edge g e.1.1 e.1.2 e.2) (g l) (edges l)).

(** [len(wg)]: the number of nodes. *)
Definition __len__ (g : DiGraph) : nat := length (g_nodes g).

End WordGraph.

(** ** Notions and inputs of the further properties *)

Module Derived.
Import Py Stanza.
(** What the last committed checkpoint [c] (if any) says about the object
    [after] a call of [read] that started from [before]: the tables and
    the position counters in memory are those of the checkpoint, or those
    the call started with when nothing was committed. *)
Definition accounted (c : option CachedCorpus.store)
    (before after : CachedCorpus.t) : Prop :=
  match c with
  | Some c =>
      CachedCorpus.c_token_stats c = Some (CachedCorpus._token_stats after)
      /\ CachedCorpus.c_pair_stats c = Some (CachedCorpus._pair_stats after)
      /\ CachedCorpus.c_lines_read c = Some (CachedCorpus._lines_read after)
      /\ CachedCorpus.c_sentences_seen c
         = Some (CachedCorpus._sentences_seen after)
  | None =>
      CachedCorpus._token_stats after = CachedCorpus._token_stats before
      /\ CachedCorpus._pair_stats after = CachedCorpus._pair_stats before
      /\ CachedCorpus._lines_read after = CachedCorpus._lines_read before
      /\ CachedCorpus._sentences_seen after
         = CachedCorpus._sentences_seen before
  end.

(** The object [after] has at least the counts and positions of
    [before]. *)
Definition grown (before after : CachedCorpus.t) : Prop :=
  (forall w, Counter.count (CachedCorpus._token_stats before) w
             <= Counter.count (CachedCorpus._token_stats after) w)
  /\ (forall e, Counter.count (CachedCorpus._pair_stats before) e
                <= Counter.count (CachedCorpus._pair_stats after) e)
  /\ CachedCorpus._lines_read before <= CachedCorpus._lines_read after
  /\ CachedCorpus._sentences_seen before
     <= CachedCorpus._sentences_seen after.

(** Does the cache hold every attribute of [_attrs_to_cache]? *)
Definition complete (c : CachedCorpus.store) : bool :=
  bool_decide (is_Some (CachedCorpus.c_sentences_seen c))
  && bool_decide (is_Some (CachedCorpus.c_lines_read c))
  && bool_decide (is_Some (CachedCorpus.c_current_file c))
  && bool_decide (is_Some (CachedCorpus.c_pair_stats c))
  && bool_decide (is_Some (CachedCorpus.c_token_stats c))
  && bool_decide (is_Some (CachedCorpus.c_files c))
  && bool_decide (is_Some (CachedCorpus.c_total c))
  && bool_decide (is_Some (CachedCorpus.c_n_sentences c)).

(** The parent indices [_extract_edges_from_sentence] can follow in a
    sentence of [n] words: zero (the root, skipped), or an index that
    [words[head - 1]] resolves, counting from the end when [head - 1] is
    negative. *)
Definition head_resolves (n : nat) (w : word) : bool :=
  match head w with
  | Some (VInt h) => (h =? 0) || ((1 - Z.of_nat n <=? h) && (h <=? Z.of_nat n))
  | _ => false
  end.

(** The words of a sentence that are not its root. *)
Definition non_root (w : word) : bool :=
  match head w with
  | Some (VInt 0) => false
  | _ => true
  end.

(** The key under which the older reader counts a word. *)
Definition word_key (w : word) : field * field := (upos w, text w).

(** The number of occurrences of [x] in [l]. *)
Definition occurrences `{EqDecision A} (x : A) (l : list A) : Z :=
  Z.of_nat (length (filter (fun y => y = x) l)).

(** Is there a token of category [upos] in the token table, a pair of
    categories [cu] and [pu] in a pair table? *)
Definition has_category (upos : string)
    (items : list ((string * string) * Z)) : bool :=
  existsb (fun it => String.eqb it.1.2 upos) items.

Definition has_pair (cu pu : string)
    (items : list (((string * string) * (string * string)) * Z)) : bool :=
  existsb (fun it => String.eqb it.1.1.2 cu && String.eqb it.1.2.2 pu) items.

(** Over the pairs of a pair table whose child ([side = fst]) or parent
    ([side = snd]) is [w]: the sum of their counts, and their number. *)
Definition total_with (side : string * string -> string) (w : string)
    (d : list ((string * string) * Z)) : Z :=
  foldr Z.add 0 (map snd (filter (fun it => side it.1 = w) d)).

Definition number_with (side : string * string -> string) (w : string)
    (d : list ((string * string) * Z)) : Z :=
  Z.of_nat (length (filter (fun it => side it.1 = w) d)).

(** The text in the first cell of a row. *)
Definition first_text (r : list Frame.cell) : string :=
  match r with
  | Frame.CStr s :: _ => s
  | _ => ""
  end.

(** The cell [matrix[i, j]]. *)
Definition matrix_cell (m : CompositionAnalysis.ndarray) (i j : nat)
  : option Num.float :=
  CompositionAnalysis.data m !! i ≫= fun r => r !! j.

(** Every row of the frame has one cell per column. *)
Definition rectangular (df : Frame.DataFrame) : Prop :=
  Forall (fun r => length r = length (Frame.columns df)) (Frame.rows df).

(** No element of the list is smaller than an element after it. *)
Fixpoint descending (l : list Z) : Prop :=
  match l with
  | [] => True
  | x :: l' => Forall (fun y => y <= x) l' /\ descending l'
  end.

(** The frame holds the records [recs] in some order, and its [freq]
    column, read from the top, never increases. *)
Definition sorted_by_freq (df : Frame.DataFrame)
    (recs : list (list Frame.cell)) : Prop :=
  Frame.rows df ≡ₚ recs
  /\ exists freqs,
       Frame.column df "freq" = Ok (map Frame.CInt freqs)
       /\ descending freqs.

(** Two states of an analysis with the same selection, the same tables and
    frames of the same numbers of rows. *)
Definition same_tables (a b : CompositionAnalysis.t) : Prop :=
  CompositionAnalysis.child_upos a = CompositionAnalysis.child_upos b
  /\ CompositionAnalysis.parent_upos a = CompositionAnalysis.parent_upos b
  /\ CompositionAnalysis.n_tokens a = CompositionAnalysis.n_tokens b
  /\ CompositionAnalysis.token_stats a = CompositionAnalysis.token_stats b
  /\ CompositionAnalysis.pair_stats a = CompositionAnalysis.pair_stats b
  /\ CompositionAnalysis.skip_pair_stats a
     = CompositionAnalysis.skip_pair_stats b
  /\ length (Frame.rows (CompositionAnalysis.child_df a))
     = length (Frame.rows (CompositionAnalysis.child_df b))
  /\ length (Frame.rows (CompositionAnalysis.parent_df a))
     = length (Frame.rows (CompositionAnalysis.parent_df b))
  /\ length (Frame.rows (CompositionAnalysis.pair_df a))
     = length (Frame.rows (CompositionAnalysis.pair_df b))
  /\ length (Frame.rows (CompositionAnalysis.skip_pair_df a))
     = length (Frame.rows (CompositionAnalysis.skip_pair_df b)).

(** The text of a word as a string (empty if it is not one), and the
    attributes [WordGraph] gives the node of a word. *)
Definition text_str (w : Word) : string :=
  match w.1 with
  | Some (VStr s) => s
  | _ => ""
  end.

Definition node_attrs (w : Word) : option (string * string) :=
  Some (text_str w, WordGraph.str_field w.2).

(** The words of a list of pairs, children and parents. *)
Definition words_of (pairs : list (Word * Word)) : list Word :=
  flat_map (fun wp => [wp.1; wp.2]) pairs.

(** The distinct elements of a list in the order of their first
    occurrence. *)
Definition learn (words : list Word) (w : Word) : list Word :=
  if decide (w ∈ words) then words else (words ++ [w])%list.

Definition distinct (l : list Word) : list Word := foldl learn [] l.

(** A list with its positions as a dictionary from element to position,
    and the nodes [WordGraph] makes of a list of words. *)
Definition positions (words : list Word) : list (Word * nat) :=
  zip words (seq 0 (length words)).

Definition word_nodes (words : list Word)
  : list (nat * option (string * string)) :=
  zip (seq 0 (length words)) (map node_attrs words).

(** The label of an edge the pair occurs [n] times for: no edge for a
    pair that does not occur. *)
Definition edge_label (n : Z) : option Z :=
  if 0 <? n then Some n else None.

(** The edge table describes the pairs [seen], over the node numbers of
    [words]. *)
Definition edges_of (words : list Word) (seen : list (Word * Word))
    (edges : list ((nat * nat) * Z)) : Prop :=
  NoDup edges.*1
  /\ (forall i j, (length words <= i \/ length words <= j)%nat ->
                  CompositionAnalysis.assoc_get edges (i, j) = None)
  /\ (forall i j w p, words !! i = Some w -> words !! j = Some p ->
        CompositionAnalysis.assoc_get edges (i, j)
        = edge_label (occurrences (w, p) seen)).

(** The state of the first loop of [WordGraph.__init__] after the pairs
    [seen], whose distinct words are [words]. *)
Definition graph_inv (words : list Word) (seen : list (Word * Word))
    (l : WordGraph.locals) : Prop :=
  NoDup words
  /\ (forall w, w ∈ words <-> w ∈ words_of seen)
  /\ WordGraph.nodes l = positions words
  /\ WordGraph.g_nodes (WordGraph.g l) = word_nodes words
  /\ WordGraph.g_edges (WordGraph.g l) = []
  /\ edges_of words seen (WordGraph.edges l).
End Derived.

(** ** Further concrete inputs *)

Module Inputs.
Import Py Stanza Scenario.

(** A new object over [corpus.txt] whose [sentence_id] column is a
    string. *)
Definition fresh_str : CachedCorpus.t :=
  CachedCorpus.mk str_fmt TAB true ["corpus.txt"] CachedCorpus.Infinite
    None 0 0 None ∅ ∅ CachedCorpus.empty_store.

(** An object of the older reader over [corpus.txt] that stores what it
    reads, with a limit of two sentences. *)
Definition storing : StreamCorpus.t :=
  StreamCorpus.mk str_fmt TAB true (CachedCorpus.Finite 2) true true
    ["corpus.txt"] ∅ ∅ 0 [].

(** Word pairs with a repetition: red-apple twice, red-rose once. *)
Definition red_pairs : list (Word * Word) :=
  let red := (Some (VStr "red"), Some (VStr "ADJ")) in
  let apple := (Some (VStr "apple"), Some (VStr "NOUN")) in
  let rose := (Some (VStr "rose"), Some (VStr "NOUN")) in
  [(red, apple); (red, rose); (red, apple)].

(** One adjective seen once, two nouns, one pair. *)
Definition rare_red : CompositionAnalysis.corpus_tables :=
  CompositionAnalysis.mk_tables
    [(("red", "ADJ"), 1); (("apple", "NOUN"), 1); (("rose", "NOUN"), 1)]
    [((("red", "ADJ"), ("apple", "NOUN")), 1)]
    [((("red", "ADJ"), ("apple", "NOUN")), 1)].

(** A new object whose schema has no [sentence_id] field. *)
Definition fresh_no_id : CachedCorpus.t :=
  CachedCorpus.mk ["text:str"; "upos:str"] TAB true ["corpus.txt"]
    CachedCorpus.Infinite None 0 0 None ∅ ∅ CachedCorpus.empty_store.

End Inputs.

(** * Properties *)

Import Py Stanza Num Frame Spec Scenario.

(** ** Counters *)

Section counter_facts.
Context {K : Type} `{Countable K}.
Implicit Types (a b c : gmap K Z) (k : K).

Lemma lookup_add k n a k' :
  Counter.add k n a !! k' =
  if decide (k = k') then Some (n + Counter.count a k) else a !! k'.
Proof. unfold Counter.add. apply lookup_insert. Qed.

(** [update] adds, key by key, the counts of the second table. *)
Lemma lookup_update a b k :
  Counter.update a b !! k =
  match b !! k with
  | Some n => Some (n + Counter.count a k)
  | None => a !! k
  end.
Proof.
  unfold Counter.update. revert k.
  apply (map_fold_weak_ind
           (fun r m => forall k, r !! k = match m !! k with
                                          | Some n => Some (n + Counter.count a k)
                                          | None => a !! k
                                          end)).
  - intros k. by rewrite lookup_empty.
  - intros i x m r Hi IH k. rewrite lookup_add, lookup_insert.
    destruct (decide (i = k)) as [->|Hne]; [|apply IH].
    unfold Counter.count. by rewrite IH, Hi.
Qed.

Lemma count_update a b k :
  Counter.count (Counter.update a b) k = Counter.count a k + Counter.count b k.
Proof.
  unfold Counter.count at 1 3. rewrite lookup_update.
  destruct (b !! k); simpl; unfold Counter.count; lia.
Qed.


(** Updating by two tables in turn is updating by their sum. *)
Lemma update_update_assoc a b c :
  Counter.update (Counter.update a b) c = Counter.update a (Counter.update b c).
Proof.
  apply map_eq. intros k. rewrite !lookup_update.
  destruct (b !! k) as [n|] eqn:Hb, (c !! k) as [m|] eqn:Hc; try done.
  all: rewrite ?count_update; unfold Counter.count; rewrite ?Hb, ?Hc; simpl.
  all: f_equal; lia.
Qed.
End counter_facts.

(** ** The merge of per-sentence tables ([digest_sentencebatch]) *)

Section merge.
Import CachedCorpus.
Implicit Types (self : CachedCorpus.t) (sb : list sentence)
  (stats : list (gmap Word Z * gmap Edge Z)).





Lemma count_merge_tokens stats self w :
  Counter.count (_token_stats (merge_stats self stats)) w =
  Counter.count (_token_stats self) w + sum_counts w (stats.*1).
Proof.
  revert self. induction stats as [|st stats IH]; intros self.
  - unfold sum_counts. simpl. lia.
  - change (merge_stats self (st :: stats))
      with (merge_stats (merge_one self st) stats).
    rewrite IH, fmap_cons. unfold sum_counts. cbn [map foldr].
    change (_token_stats (merge_one self st))
      with (Counter.update (_token_stats self) st.1).
    rewrite count_update. lia.
Qed.

Lemma count_merge_pairs stats self e :
  Counter.count (_pair_stats (merge_stats self stats)) e =
  Counter.count (_pair_stats self) e + sum_counts e (stats.*2).
Proof.
  revert self. induction stats as [|st stats IH]; intros self.
  - unfold sum_counts. simpl. lia.
  - change (merge_stats self (st :: stats))
      with (merge_stats (merge_one self st) stats).
    rewrite IH, fmap_cons. unfold sum_counts. cbn [map foldr].
    change (_pair_stats (merge_one self st))
      with (Counter.update (_pair_stats self) st.2).
    rewrite count_update. lia.
Qed.

Lemma Parallel_app {A B} (f : A -> result B) l1 l2 ys1 ys2 :
  Parallel f l1 = Ok ys1 -> Parallel f l2 = Ok ys2 ->
  Parallel f (l1 ++ l2)%list = Ok (ys1 ++ ys2)%list.
Proof.
  revert ys1. induction l1 as [|x l1 IH]; simpl; intros ys1 H1 H2.
  - by injection H1 as <-.
  - destruct (f x) as [y|]; simpl in *; [|done].
    destruct (Parallel f l1) as [ys|]; simpl in *; [|done].
    injection H1 as <-. by rewrite (IH ys eq_refl H2).
Qed.






End merge.



(** ** The checkpointed reader at concrete inputs *)

(** C1. Resuming from the checkpoint written when the sentence limit was
    reached reads on. With three one-word sentences and a limit of one
    sentence, an uninterrupted [read] counts the first word only; a process
    interrupted after that (only) batch, followed by a new [Corpus] on the
    same cache and a complete [read], also counts the second word: the
    limit is tested after a line has been consumed and its sentence
    digested, not before. *)
Theorem resume_at_limit_reads_one_more :
  let fs := single_file three_words in
  let stop : Word := (Some (VStr "stop"), Some (VStr "VERB")) in
  exists self disk self',
    CachedCorpus.__init__ ["corpus.txt"] CachedCorpus.empty_store (Some 1)
      default_fmt TAB true = Ok self
    /\ CachedCorpus.raised (CachedCorpus.read fs 1024 self) = None
    /\ CachedCorpus.commits (CachedCorpus.read fs 1024 self) !! 0%nat
       = Some disk
    /\ reopen self (Some 1) disk = Ok self'
    /\ CachedCorpus.raised (CachedCorpus.read fs 1024 self') = None
    /\ Counter.count
         (CachedCorpus._token_stats
            (CachedCorpus.final (CachedCorpus.read fs 1024 self))) stop = 0
    /\ Counter.count
         (CachedCorpus._token_stats
            (CachedCorpus.final (CachedCorpus.read fs 1024 self'))) stop = 1.
Proof.
  intros fs stop. eexists _, _, _.
  split; [reflexivity|]. split; [vm_compute; reflexivity|].
  split; [vm_compute; reflexivity|]. split; [vm_compute; reflexivity|].
  split; [vm_compute; reflexivity|]. split; vm_compute; reflexivity.
Qed.

(** ** Resuming the checkpointed reader *)

Section resume.
Import CachedCorpus.
Implicit Types (self S X : CachedCorpus.t) (sb : list sentence)
  (f : list (string * string)).

Lemma same_reading_state_refl self : same_reading_state self self.
Proof. by repeat split. Qed.

Lemma parse_line_same a b filename line :
  same_reading_state a b ->
  parse_line a filename line = parse_line b filename line.
Proof. intros (Hf & Hs & _). unfold parse_line. by rewrite Hf, Hs. Qed.

Lemma merge_stats_same a b stats :
  same_reading_state a b ->
  same_reading_state (merge_stats a stats) (merge_stats b stats).
Proof.
  revert a b. induction stats as [|st stats IH]; intros a b Hab; [done|].
  apply IH. destruct Hab as (? & ? & ? & ? & Ht & Hp).
  unfold merge_one. simpl. rewrite Ht, Hp. by repeat split.
Qed.

(** What a flush does to the object. *)
Lemma flush_batch_inv self sb self' :
  flush_batch self sb = Ok self' ->
  _lines_read self' = _lines_read self + batch_lines sb
  /\ _sentences_seen self' = _sentences_seen self + Z.of_nat (length sb)
  /\ _fmt self' = _fmt self /\ _sep self' = _sep self
  /\ _lower self' = _lower self /\ _files self' = _files self
  /\ _n_sentences self' = _n_sentences self
  /\ _current_file self' = _current_file self
  /\ _total self' = _total self
  /\ cache self' = snapshot self'.
Proof.
  unfold flush_batch, digest_sentencebatch.
  destruct (Parallel _digest_sentence sb) as [stats|]; simpl; [|done].
  intros [= <-]. simpl.
  assert (Hkeep : forall s, _lines_read (merge_stats s stats) = _lines_read s
            /\ _sentences_seen (merge_stats s stats) = _sentences_seen s
            /\ _fmt (merge_stats s stats) = _fmt s
            /\ _sep (merge_stats s stats) = _sep s
            /\ _lower (merge_stats s stats) = _lower s
            /\ _files (merge_stats s stats) = _files s
            /\ _n_sentences (merge_stats s stats) = _n_sentences s
            /\ _current_file (merge_stats s stats) = _current_file s
            /\ _total (merge_stats s stats) = _total s).
  { induction stats as [|st stats IH]; intros s; [done|].
    change (merge_stats s (st :: stats))
      with (merge_stats (merge_one s st) stats).
    destruct (IH (merge_one s st)) as (-> & -> & -> & -> & -> & -> & -> & -> & ->).
    done. }
  destruct (Hkeep self) as (-> & -> & -> & -> & -> & -> & -> & -> & ->).
  done.
Qed.

Lemma flush_batch_same a b sb :
  same_reading_state a b ->
  match flush_batch a sb, flush_batch b sb with
  | Ok a', Ok b' => same_reading_state a' b'
  | Raise e, Raise e' => e = e'
  | _, _ => False
  end.
Proof.
  intros Hab. unfold flush_batch, digest_sentencebatch.
  destruct (Parallel _digest_sentence sb) as [stats|]; simpl; [|done].
  pose proof (merge_stats_same _ _ stats Hab) as (? & ? & Hl & Hs & ? & ?).
  unfold same_reading_state. simpl. rewrite Hl, Hs. done.
Qed.

(** The result of [read_loop] depends on the object only through the
    schema, the separator, the counters and the tables. *)
Lemma read_loop_same batch_size n eof f :
  forall skip ts sb a b,
  same_reading_state a b ->
  raised (read_loop batch_size n eof f skip ts sb a)
  = raised (read_loop batch_size n eof f skip ts sb b)
  /\ same_reading_state (final (read_loop batch_size n eof f skip ts sb a))
                        (final (read_loop batch_size n eof f skip ts sb b)).
Proof.
  induction f as [|[filename line] f IH]; intros skip ts sb a b Hab; simpl.
  - done.
  - destruct (0 <? skip); [by apply IH|].
    set (a1 := if decide (_current_file a = Some filename) then a
               else set_current_file (Some filename) a).
    set (b1 := if decide (_current_file b = Some filename) then b
               else set_current_file (Some filename) b).
    assert (Hab1 : same_reading_state a1 b1).
    { unfold a1, b1. destruct Hab as (? & ? & ? & ? & ? & ?).
      do 2 case_decide; by repeat split. }
    clearbody a1 b1. clear a b Hab.
    assert (Hsep : _sep a1 = _sep b1) by (by destruct Hab1 as (_ & ? & _)).
    rewrite Hsep, (parse_line_same a1 b1 _ _ Hab1).
    destruct (parse_line b1 filename line) as [[parse cid]|];
      [|split; [done|exact Hab1]].
    rewrite (parse_line_same a1 b1 _ _ Hab1).
    destruct (parse_line b1 _ _) as [[? next_cid]|]; [|split; [done|exact Hab1]].
    set (go := fun ts' sb' (s : t) =>
           if reaches (_sentences_seen s) n
           then committed (snapshot s) (returns (to_cache s))
           else read_loop batch_size n eof f skip ts' sb' s).
    assert (Hcont : forall ts' sb' a' b', same_reading_state a' b' ->
      raised (go ts' sb' a') = raised (go ts' sb' b')
      /\ same_reading_state (final (go ts' sb' a')) (final (go ts' sb' b'))).
    { intros ts' sb' a' b' Hab'. unfold go.
      assert (_sentences_seen a' = _sentences_seen b') as ->
        by (by destruct Hab' as (? & ? & ? & ? & ?)).
      destruct (reaches (_sentences_seen b') n); [|by apply IH].
      simpl. split; [done|]. destruct Hab' as (? & ? & ? & ? & ? & ?).
      by repeat split. }
    destruct (negb (String.eqb next_cid cid)); [|by apply Hcont].
    set (sb1 := (sb ++ [Document (ts ++ [parse])])%list).
    assert (Hseen : _sentences_seen a1 = _sentences_seen b1)
      by (by destruct Hab1 as (? & ? & ? & ? & ?)).
    assert (reaches (_sentences_seen a1 + Z.of_nat (length sb1)) n
            = reaches (_sentences_seen b1 + Z.of_nat (length sb1)) n) as ->
      by (by rewrite Hseen).
    destruct ((batch_size <=? Z.of_nat (length sb1)) || _);
      [|by apply Hcont].
    pose proof (flush_batch_same a1 b1 sb1 Hab1) as Hfl.
    destruct (flush_batch a1 sb1) as [a2|], (flush_batch b1 sb1) as [b2|];
      try done.
    + by apply (Hcont [] [] a2 b2).
    + split; [by rewrite Hfl|done].
Qed.

(** Skipping the lines accounted for by the checkpoint. *)
Lemma read_loop_skip batch_size n eof pre f ts sb self :
  read_loop batch_size n eof (pre ++ f) (Z.of_nat (length pre)) ts sb self
  = read_loop batch_size n eof f 0 ts sb self.
Proof.
  induction pre as [|[filename line] pre IH]; [done|].
  cbn [app length read_loop].
  replace (0 <? Z.of_nat (S (length pre))) with true
    by (symmetry; apply Z.ltb_lt; lia).
  replace (Z.of_nat (S (length pre)) - 1) with (Z.of_nat (length pre)) by lia.
  apply IH.
Qed.
Lemma batch_lines_snoc sb (s : sentence) :
  batch_lines (sb ++ [s]) = batch_lines sb + Z.of_nat (length s).
Proof.
  unfold batch_lines. induction sb as [|s' sb IH]; simpl; [lia|].
  rewrite IH. lia.
Qed.

Lemma length_Document rs : length (Document rs) = length rs.
Proof. apply length_map. Qed.

(** Every checkpoint written before the sentence limit is reached records
    a state from which the rest of the run is the run of a fresh loop over
    the lines not yet consumed, and [_lines_read] is the number of lines
    consumed. *)
Lemma resume_suffix batch_size n eof f_all :
  forall f pre ts sb S,
  f_all = (pre ++ f)%list ->
  Z.of_nat (length pre)
  = _lines_read S + batch_lines sb + Z.of_nat (length ts) ->
  forall (k : nat) c,
  commits (read_loop batch_size n eof f 0 ts sb S) !! k = Some c ->
  (forall s, c_sentences_seen c = Some s -> reaches s n = false) ->
  exists X pre' f',
    c = snapshot X /\ cache X = snapshot X
    /\ f_all = (pre' ++ f')%list
    /\ Z.of_nat (length pre') = _lines_read X
    /\ (_fmt X = _fmt S /\ _sep X = _sep S /\ _lower X = _lower S
        /\ _files X = _files S /\ _n_sentences X = _n_sentences S)
    /\ raised (read_loop batch_size n eof f 0 ts sb S)
       = raised (read_loop batch_size n eof f' 0 [] [] X)
    /\ final (read_loop batch_size n eof f 0 ts sb S)
       = final (read_loop batch_size n eof f' 0 [] [] X).
Proof.
  induction f as [|[filename line] f IH]; intros pre ts sb S Hall Hinv k c;
    [done|].
  cbn [read_loop]. change (0 <? 0) with false. cbv iota.
  set (S1 := if decide (_current_file S = Some filename) then S
             else set_current_file (Some filename) S).
  assert (HS1 : _lines_read S1 = _lines_read S
                /\ _sentences_seen S1 = _sentences_seen S
                /\ _fmt S1 = _fmt S /\ _sep S1 = _sep S
                /\ _lower S1 = _lower S /\ _files S1 = _files S
                /\ _n_sentences S1 = _n_sentences S).
  { unfold S1. by case_decide. }
  clearbody S1. destruct HS1 as (Hl1 & Hs1 & Hf1 & Hp1 & Hw1 & Hfi1 & Hn1).
  destruct (parse_line S1 filename line) as [[parse cid]|]; [|done].
  destruct (parse_line S1 _ _) as [[? next_cid]|]; [|done].
  set (go := fun ts' sb' (s : t) =>
         if reaches (_sentences_seen s) n
         then committed (cache (to_cache s)) (returns (to_cache s))
         else read_loop batch_size n eof f 0 ts' sb' s).
  assert (Hall' : f_all = ((pre ++ [(filename, line)]) ++ f)%list)
    by (by rewrite <- app_assoc).
  assert (Hgo : forall ts' sb' S',
    Z.of_nat (length (pre ++ [(filename, line)]))
    = _lines_read S' + batch_lines sb' + Z.of_nat (length ts') ->
    forall (k : nat) c,
    commits (go ts' sb' S') !! k = Some c ->
    (forall s, c_sentences_seen c = Some s -> reaches s n = false) ->
    exists X pre' f',
      c = snapshot X /\ cache X = snapshot X
      /\ f_all = (pre' ++ f')%list
      /\ Z.of_nat (length pre') = _lines_read X
      /\ (_fmt X = _fmt S' /\ _sep X = _sep S' /\ _lower X = _lower S'
          /\ _files X = _files S' /\ _n_sentences X = _n_sentences S')
      /\ raised (go ts' sb' S')
         = raised (read_loop batch_size n eof f' 0 [] [] X)
      /\ final (go ts' sb' S')
         = final (read_loop batch_size n eof f' 0 [] [] X)).
  { intros ts' sb' S' Hinv' k' c'. unfold go.
    destruct (reaches (_sentences_seen S') n) eqn:Hreach.
    - destruct k' as [|k']; [|done]. simpl. intros [= <-] Hc.
      by rewrite (Hc _ eq_refl) in Hreach.
    - by apply (IH (pre ++ [(filename, line)])%list). }
  assert (Hlen : Z.of_nat (length (pre ++ [(filename, line)]))
                 = Z.of_nat (length pre) + 1)
    by (rewrite length_app; simpl; lia).
  destruct (negb (String.eqb next_cid cid)).
  - set (sb1 := (sb ++ [Document (ts ++ [parse])])%list).
    assert (Hsb1 : batch_lines sb1
                   = batch_lines sb + Z.of_nat (length ts) + 1).
    { unfold sb1. rewrite batch_lines_snoc, length_Document, length_app.
      simpl. lia. }
    destruct ((batch_size <=? Z.of_nat (length sb1)) || _).
    + destruct (flush_batch S1 sb1) as [S2|] eqn:Hflush; [|done].
      destruct (flush_batch_inv _ _ _ Hflush)
        as (Hl2 & Hs2 & Hf2 & Hp2 & Hw2 & Hfi2 & Hn2 & _ & _ & Hc2).
      assert (Hinv2 : Z.of_nat (length (pre ++ [(filename, line)]))
                      = _lines_read S2 + batch_lines [] + Z.of_nat 0).
      { rewrite Hlen, Hl2, Hl1, Hsb1. change (batch_lines []) with 0. lia. }
      destruct k as [|k]; cbn [commits committed lookup list_lookup].
      * intros [= <-] Hc.
        exists S2, (pre ++ [(filename, line)])%list, f.
        split; [done|]. split; [done|]. split; [done|].
        split; [rewrite Hinv2; change (batch_lines []) with 0; lia|].
        split; [by rewrite Hf2, Hp2, Hw2, Hfi2, Hn2|].
        rewrite Hc2 in Hc.
        change (raised (committed (snapshot S2) (go [] [] S2)))
          with (raised (go [] [] S2)).
        change (final (committed (snapshot S2) (go [] [] S2)))
          with (final (go [] [] S2)).
        unfold go. by rewrite (Hc _ eq_refl).
      * intros Hk Hc.
        destruct (Hgo [] [] S2 Hinv2 k c Hk Hc)
          as (X & pre' & f' & ? & ? & ? & ? & (HfX & HpX & HwX & HfiX & HnX) & ? & ?).
        exists X, pre', f'.
        split; [done|]. split; [done|]. split; [done|]. split; [done|].
        split; [|done].
        by rewrite HfX, HpX, HwX, HfiX, HnX, Hf2, Hp2, Hw2, Hfi2, Hn2.
    + intros Hk Hc.
      destruct (Hgo [] sb1 S1) with (k := k) (c := c)
        as (X & pre' & f' & ? & ? & ? & ? & (HfX & HpX & HwX & HfiX & HnX) & ? & ?);
        [rewrite Hlen, Hl1, Hsb1; simpl; lia|done|done|].
      exists X, pre', f'.
      split; [done|]. split; [done|]. split; [done|]. split; [done|].
      split; [|done]. by rewrite HfX, HpX, HwX, HfiX, HnX.
  - intros Hk Hc.
    destruct (Hgo (ts ++ [parse])%list sb S1) with (k := k) (c := c)
      as (X & pre' & f' & ? & ? & ? & ? & (HfX & HpX & HwX & HfiX & HnX) & ? & ?);
      [rewrite Hlen, Hl1, length_app; simpl; lia|done|done|].
    exists X, pre', f'.
    split; [done|]. split; [done|]. split; [done|]. split; [done|].
    split; [|done]. by rewrite HfX, HpX, HwX, HfiX, HnX.
Qed.
End resume.

(** Resuming from a checkpoint written before the sentence limit was
    reached is exact: a new object on the same cache, read to completion,
    ends like the uninterrupted [read] does (same exception or none, same
    token and pair tables). *)
Lemma resume_before_limit_exact
    (fs : string -> list string) (batch_size : Z) (listing : list string)
    (n_sentences : option Z) (fmt : list string) (sep : string)
    (lowercase : bool) (self : CachedCorpus.t) (k : nat)
    (c : CachedCorpus.store) :
  CachedCorpus.__init__ listing CachedCorpus.empty_store n_sentences fmt sep
    lowercase = Ok self ->
  CachedCorpus.commits (CachedCorpus.read fs batch_size self) !! k = Some c ->
  (forall s, CachedCorpus.c_sentences_seen c = Some s ->
             CachedCorpus.reaches s (CachedCorpus._n_sentences self) = false) ->
  exists self',
    reopen self n_sentences c = Ok self'
    /\ CachedCorpus.raised (CachedCorpus.read fs batch_size self')
       = CachedCorpus.raised (CachedCorpus.read fs batch_size self)
    /\ CachedCorpus._token_stats
         (CachedCorpus.final (CachedCorpus.read fs batch_size self'))
       = CachedCorpus._token_stats
           (CachedCorpus.final (CachedCorpus.read fs batch_size self))
    /\ CachedCorpus._pair_stats
         (CachedCorpus.final (CachedCorpus.read fs batch_size self'))
       = CachedCorpus._pair_stats
           (CachedCorpus.final (CachedCorpus.read fs batch_size self)).
Proof.
  intros Hinit Hk Hc. unfold CachedCorpus.__init__ in Hinit.
  simpl in Hinit. injection Hinit as <-.
  set (N := match n_sentences with
            | Some n => if n =? 0 then CachedCorpus.Infinite
                        else CachedCorpus.Finite n
            | None => CachedCorpus.Infinite
            end) in *.
  set (files := CachedCorpus.sorted listing) in *.
  set (S0 := CachedCorpus.set_n_sentences N _) in *.
  set (f_all := CachedCorpus.fileinput fs files).
  set (eof := List.last files "").
  set (self2 := CachedCorpus.set_current_file None
                  (CachedCorpus.set_total
                     (Some match N with
                           | CachedCorpus.Infinite => Z.of_nat (length f_all)
                           | CachedCorpus.Finite n => n
                           end) S0)).
  assert (Hread : CachedCorpus.read fs batch_size S0
                  = CachedCorpus.read_loop batch_size N eof f_all 0 [] []
                      self2) by reflexivity.
  rewrite Hread in Hk |- *.
  change (CachedCorpus._n_sentences S0) with N in Hc.
  destruct (resume_suffix batch_size N eof f_all f_all [] [] [] self2
              eq_refl eq_refl k c Hk Hc)
    as (X & pre' & f' & -> & _ & Hall & Hlen
        & (HfX & HpX & HwX & HfiX & _) & Hraised & Hfinal).
  rewrite Hraised, Hfinal. clear Hraised Hfinal Hk Hread.
  change (CachedCorpus._files self2) with files in HfiX.
  change (CachedCorpus._fmt self2) with fmt in HfX.
  change (CachedCorpus._sep self2) with sep in HpX.
  set (self' := CachedCorpus.mk fmt sep lowercase (CachedCorpus._files X) N
                  (CachedCorpus._current_file X) (CachedCorpus._lines_read X)
                  (CachedCorpus._sentences_seen X) (CachedCorpus._total X)
                  (CachedCorpus._token_stats X) (CachedCorpus._pair_stats X)
                  (CachedCorpus.snapshot X)).
  exists self'. split; [reflexivity|].
  set (self'' := CachedCorpus.set_current_file None
                   match CachedCorpus._total self' with
                   | None =>
                       CachedCorpus.set_total
                         (Some match N with
                               | CachedCorpus.Infinite =>
                                   Z.of_nat (length f_all)
                               | CachedCorpus.Finite n => n
                               end) self'
                   | Some _ => self'
                   end).
  assert (Hread' : CachedCorpus.read fs batch_size self'
                   = CachedCorpus.read_loop batch_size N eof
                       (pre' ++ f') (Z.of_nat (length pre')) [] [] self'').
  { unfold CachedCorpus.read, self'', self'. simpl.
    destruct (CachedCorpus._total X); simpl; rewrite HfiX; fold f_all eof;
      by rewrite <- Hall, Hlen. }
  rewrite Hread', read_loop_skip.
  assert (Hsame : same_reading_state self'' X).
  { unfold self'', self'. simpl.
    destruct (CachedCorpus._total X); by repeat split. }
  destruct (read_loop_same batch_size N eof f' 0 [] [] self'' X Hsame)
    as (Hr & _ & _ & _ & _ & Ht & Hp).
  by rewrite Hr, Ht, Hp.
Qed.

(** C6. A blank line is not kept away from the segmenter. In
    [src/src/corpus.py] the test for blank lines is commented out, so the
    blank line is segmented as the current line; in [src/corpus.py] the
    blank line is skipped as the current line but it is segmented when the
    line before it peeks at its successor. With the default schema both
    readers end in [ValueError] ([int] of the empty string). *)
Theorem blank_line_reaches_segmenter :
  let fs := single_file blank_inside in
  segment_line NL TAB default_fmt = Raise ValueError
  /\ (exists self,
        CachedCorpus.__init__ ["corpus.txt"] CachedCorpus.empty_store None
          default_fmt TAB true = Ok self
        /\ CachedCorpus.raised (CachedCorpus.read fs 1 self)
           = Some ValueError)
  /\ (exists self,
        StreamCorpus.__init__ ["corpus.txt"] None false default_fmt TAB
          true true = Ok self
        /\ StreamCorpus.raised (StreamCorpus.read fs true self)
           = Some ValueError
        /\ StreamCorpus.yielded (StreamCorpus.read fs true self) = []).
Proof.
  intros fs. split; [vm_compute; reflexivity|]. split.
  - eexists. split; [reflexivity|]. vm_compute; reflexivity.
  - eexists. split; [reflexivity|]. split; vm_compute; reflexivity.
Qed.

(** As the current line, a blank line is skipped by the reader of
    [src/corpus.py]. *)
Lemma blank_current_line_skipped
    (return_sentences : bool) (n : StreamCorpus.bound) (eof filename : string)
    (line : string) (f : list (string * string))
    (this_sentence : list (dict pyval)) (self : StreamCorpus.t) :
  strip line = "" ->
  StreamCorpus.read_loop return_sentences n eof ((filename, line) :: f)
    this_sentence self
  = StreamCorpus.read_loop return_sentences n eof f this_sentence self.
Proof. intros Hblank. simpl. by rewrite Hblank. Qed.

(** C8. A schema without a field named [sentence_id] is accepted. The
    constructor of [src/src/corpus.py] never looks at the schema: it
    succeeds for every [fmt]. The constructor of [src/corpus.py] tests
    whether some item contains the text ["sentence_id:"], which a field of
    another name can. *)
Theorem schema_without_sentence_id_accepted :
  (forall listing stored n_sentences fmt sep lowercase,
      exists self,
        CachedCorpus.__init__ listing stored n_sentences fmt sep lowercase
        = Ok self
        /\ CachedCorpus._fmt self = fmt)
  /\ names_sentence_id ["text:str"; "upos:str"] = false
  /\ is_Ok (CachedCorpus.__init__ ["corpus.txt"] CachedCorpus.empty_store
              None ["text:str"; "upos:str"] TAB true) = true
  /\ names_sentence_id ["my_sentence_id:int"; "text:str"] = false
  /\ is_Ok (StreamCorpus.__init__ ["corpus.txt"] None false
              ["my_sentence_id:int"; "text:str"] TAB true true) = true.
Proof.
  split.
  - intros listing stored n fmt sep lowercase.
    unfold CachedCorpus.__init__, CachedCorpus.load_cache.
    destruct stored as [[?|] [?|] [?|] [?|] [?|] [?|] [?|] [?|]];
      simpl; eexists; split; reflexivity.
  - repeat split; vm_compute; reflexivity.
Qed.

(** C9. With the default schema, whose [sentence_id] column is an
    integer, the sentinel line peeked at the end of input cannot be
    segmented: its first field is ["__EOF__"] (respectively the composite
    id followed by ["_EOF"]), and [int] raises [ValueError]. On the lines
    with sentence ids 1,1,1,2,2,3 the generator of [src/corpus.py] yields
    the first two sentences and then raises; [read] of
    [src/src/corpus.py] raises as well, after two digested batches when
    the batch size is 1 and with nothing digested when it is 1024. The
    third sentence is never emitted. *)
Theorem six_lines_stop_at_sentinel :
  let fs := single_file six_lines in
  (exists self,
     StreamCorpus.__init__ ["corpus.txt"] None false default_fmt TAB
       true true = Ok self
     /\ map length (StreamCorpus.yielded (StreamCorpus.read fs true self))
        = [3; 2]%nat
     /\ StreamCorpus.raised (StreamCorpus.read fs true self)
        = Some ValueError)
  /\ (exists self,
        CachedCorpus.__init__ ["corpus.txt"] CachedCorpus.empty_store None
          default_fmt TAB true = Ok self
        /\ CachedCorpus.raised (CachedCorpus.read fs 1 self)
           = Some ValueError
        /\ CachedCorpus._sentences_seen
             (CachedCorpus.final (CachedCorpus.read fs 1 self)) = 2
        /\ CachedCorpus.raised (CachedCorpus.read fs 1024 self)
           = Some ValueError
        /\ CachedCorpus._sentences_seen
             (CachedCorpus.final (CachedCorpus.read fs 1024 self)) = 0).
Proof.
  intros fs. split.
  - eexists. split; [reflexivity|]. split; vm_compute; reflexivity.
  - eexists. split; [reflexivity|]. repeat split; vm_compute; reflexivity.
Qed.

(** With a string-typed [sentence_id] column the same lines give the
    three sentences of lengths 3, 2 and 1. *)
Lemma six_lines_string_ids :
  let fs := single_file six_lines in
  (exists self,
     StreamCorpus.__init__ ["corpus.txt"] None false str_fmt TAB
       true true = Ok self
     /\ map length (StreamCorpus.yielded (StreamCorpus.read fs true self))
        = [3; 2; 1]%nat
     /\ StreamCorpus.raised (StreamCorpus.read fs true self) = None)
  /\ (exists self,
        CachedCorpus.__init__ ["corpus.txt"] CachedCorpus.empty_store None
          str_fmt TAB true = Ok self
        /\ CachedCorpus.raised (CachedCorpus.read fs 1 self) = None
        /\ CachedCorpus._sentences_seen
             (CachedCorpus.final (CachedCorpus.read fs 1 self)) = 3
        /\ CachedCorpus._lines_read
             (CachedCorpus.final (CachedCorpus.read fs 1 self)) = 6).
Proof.
  intros fs. split.
  - eexists. split; [reflexivity|]. split; vm_compute; reflexivity.
  - eexists. split; [reflexivity|]. repeat split; vm_compute; reflexivity.
Qed.

(** ** The composition analysis *)

(** C4. There is one cached matrix for all requests. Once the matrix of
    the direct relation has been built, a request for the matrix of the
    skip relation returns the direct matrix again, although the skip pair
    table gives a different one: [generate_adjacency_matrix] returns
    [self.matrix] whenever it is set, whatever its arguments. *)
Theorem matrix_cache_ignores_arguments :
  exists self direct self1,
    CompositionAnalysis._crunch_corpus_stats "ADJ" "NOUN" two_nouns = Ok self
    /\ CompositionAnalysis.generate_adjacency_matrix false "freq" self
       = Ok (direct, self1)
    /\ direct = CompositionAnalysis.mk_array 2 [[FReal 1; FReal 1]]
    /\ CompositionAnalysis.generate_adjacency_matrix true "freq" self1
       = Ok (direct, self1)
    /\ fst <$> CompositionAnalysis.generate_adjacency_matrix true "freq" self
       = Ok (CompositionAnalysis.mk_array 2 [[FReal 0; FReal 5]])
    /\ direct <> CompositionAnalysis.mk_array 2 [[FReal 0; FReal 5]].
Proof.
  eexists _, _, _. split; [reflexivity|]. split; [reflexivity|].
  split; [reflexivity|]. split; [reflexivity|]. split; [reflexivity|].
  intros Heq. injection Heq as Heq. lra.
Qed.

(** Whatever the arguments, a matrix already built is what
    [generate_adjacency_matrix] returns. *)
Lemma cached_matrix_is_returned
    (skip : bool) (stat : string) (self : CompositionAnalysis.t)
    (m : CompositionAnalysis.ndarray) :
  CompositionAnalysis.matrix self = Some m ->
  CompositionAnalysis.generate_adjacency_matrix skip stat self = Ok (m, self).
Proof.
  intros Hm. unfold CompositionAnalysis.generate_adjacency_matrix.
  by rewrite Hm.
Qed.

(** *** Data frames *)

Section frame_facts.
Implicit Types (df : DataFrame) (key : string) (rs : list (list cell)).

Lemma has_column_index_of df key :
  has_column df key = true <-> is_Some (index_of key (columns df)).
Proof.
  unfold has_column. induction (columns df) as [|c cols IH]; simpl.
  - split; [done|]. by intros [? ?].
  - rewrite String.eqb_sym. destruct (String.eqb c key); simpl.
    + split; [by eexists|done].
    + rewrite IH. destruct (index_of key cols); simpl; split;
        intros [? ?]; by eexists.
Qed.

Lemma has_column_app df key cols rs' :
  has_column (Frame.mk (columns df ++ cols) rs') key
  = has_column df key || existsb (String.eqb key) cols.
Proof. unfold has_column. simpl. apply existsb_app. Qed.

Lemma length_zip_rows i rs vs :
  length vs = length rs -> length (zip_rows i rs vs) = length rs.
Proof.
  revert vs. induction rs as [|r rs IH]; intros [|v vs]; simpl; try done.
  intros Hl. f_equal. apply IH. lia.
Qed.

Lemma lookup_zip_rows_new rs vs (n : nat) r v :
  rs !! n = Some r -> vs !! n = Some v ->
  zip_rows None rs vs !! n = Some (r ++ [v])%list.
Proof.
  revert vs n. induction rs as [|r' rs IH]; intros [|v' vs] [|n]; simpl;
    try done.
  - by intros [= ->] [= ->].
  - apply IH.
Qed.

(** The outcome of [df[key] = values]. *)
Lemma set_column_Ok df key vs :
  length vs = length (rows df) ->
  set_column df key vs =
  Ok (match index_of key (columns df) with
      | Some i => Frame.mk (columns df) (zip_rows (Some i) (rows df) vs)
      | None => Frame.mk (columns df ++ [key]) (zip_rows None (rows df) vs)
      end).
Proof.
  intros Hl. unfold set_column.
  replace (length vs =? length (rows df))%nat with true
    by (symmetry; by apply Nat.eqb_eq).
  simpl. by destruct (index_of key (columns df)).
Qed.

Lemma set_column_inv df key vs df' :
  set_column df key vs = Ok df' ->
  length vs = length (rows df)
  /\ df' = match index_of key (columns df) with
           | Some i => Frame.mk (columns df) (zip_rows (Some i) (rows df) vs)
           | None =>
               Frame.mk (columns df ++ [key]) (zip_rows None (rows df) vs)
           end.
Proof.
  unfold set_column.
  destruct (length vs =? length (rows df))%nat eqn:Hl; simpl; [|done].
  apply Nat.eqb_eq in Hl. destruct (index_of key (columns df));
    intros [= <-]; done.
Qed.

(** After [df[key] = values] the frame has the column [key], and it has
    kept the columns it had. *)
Lemma set_column_has df key vs df' :
  set_column df key vs = Ok df' -> has_column df' key = true.
Proof.
  intros [_ ->]%set_column_inv.
  destruct (index_of key (columns df)) eqn:Hi.
  - apply has_column_index_of. simpl. by rewrite Hi.
  - rewrite has_column_app. simpl. rewrite String.eqb_refl.
    by rewrite orb_true_r.
Qed.

Lemma set_column_has_other df key vs df' key' :
  set_column df key vs = Ok df' -> key <> key' ->
  has_column df' key' = has_column df key'.
Proof.
  intros [_ ->]%set_column_inv Hne.
  destruct (index_of key (columns df)); [done|].
  rewrite has_column_app. simpl.
  replace (String.eqb key' key) with false
    by (symmetry; apply String.eqb_neq; congruence).
  by rewrite !orb_false_r.
Qed.

Lemma set_column_keeps df key vs df' key' :
  set_column df key vs = Ok df' ->
  has_column df key' = true -> has_column df' key' = true.
Proof.
  intros Hset Hhas. destruct (String.eqb_spec key key') as [<-|Hne].
  - by eapply set_column_has.
  - by rewrite (set_column_has_other _ _ _ _ _ Hset Hne).
Qed.

Lemma insert_desc_Forall (P : list cell -> Prop) k r rs :
  P r -> Forall P rs -> Forall P (insert_desc k r rs).
Proof.
  intros Hr. induction 1 as [|r' rs Hr' Hrs IH]; simpl.
  - by constructor.
  - destruct (k r' <=? k r); [by repeat constructor|by constructor].
Qed.

Lemma sort_rows_Forall (P : list cell -> Prop) k rs :
  Forall P rs -> Forall P (foldr (insert_desc k) [] rs).
Proof.
  induction 1; simpl; [constructor|by apply insert_desc_Forall].
Qed.

Lemma insert_desc_length k r rs :
  length (insert_desc k r rs) = S (length rs).
Proof.
  induction rs as [|r' rs IH]; simpl; [done|].
  destruct (k r' <=? k r); simpl; by rewrite ?IH.
Qed.

Lemma sort_rows_length k rs :
  length (foldr (insert_desc k) [] rs) = length rs.
Proof.
  induction rs; simpl; [done|]. rewrite insert_desc_length. by f_equal.
Qed.

(** Sorting a frame made from records succeeds exactly when there is a
    record. *)
Lemma sort_of_records_inv cols recs df :
  sort_values_desc (of_records cols recs) "freq" = Ok df ->
  recs <> []
  /\ df = Frame.mk cols (foldr (insert_desc (int_key cols "freq")) [] recs).
Proof.
  destruct recs as [|r recs]; [done|]. unfold sort_values_desc, of_records.
  destruct (has_column _ _); [|done]. intros [= <-]. done.
Qed.
End frame_facts.

(** *** What [_crunch_corpus_stats] builds *)

Section crunch.
Import CompositionAnalysis.
Variables (cu pu : string) (corpus : corpus_tables) (self : t).
Hypothesis Hcrunch : _crunch_corpus_stats cu pu corpus = Ok self.

Let stats_cols := ["token"; "upos"; "freq"].
Let pair_cols := ["child"; "parent"; "pair"; "freq"].

Lemma crunch_inv :
  n_tokens self = all_occurrences (corpus_token_stats corpus)
  /\ token_stats self =
     assoc_of_items
       (map (fun it => (it.1.1, it.2))
            (filter (fun it => it.1.2 = cu \/ it.1.2 = pu)
                    (corpus_token_stats corpus)))
  /\ child_df self =
     Frame.mk stats_cols
       (foldr (insert_desc (int_key stats_cols "freq")) []
              (token_records cu (corpus_token_stats corpus)))
  /\ parent_df self =
     Frame.mk stats_cols
       (foldr (insert_desc (int_key stats_cols "freq")) []
              (token_records pu (corpus_token_stats corpus)))
  /\ pair_stats self = select_pairs cu pu (corpus_pair_stats corpus)
  /\ pair_df self =
     Frame.mk pair_cols
       (foldr (insert_desc (int_key pair_cols "freq")) []
              (pair_records (pair_stats self)))
  /\ pair_stats self <> []
  /\ skip_pair_stats self = select_pairs cu pu (corpus_skip_pair_stats corpus)
  /\ skip_pair_df self =
     Frame.mk pair_cols
       (foldr (insert_desc (int_key pair_cols "freq")) []
              (pair_records (skip_pair_stats self)))
  /\ matrix self = None.
Proof.
  revert Hcrunch. unfold _crunch_corpus_stats.
  destruct (sort_values_desc (of_records _ (token_records cu _)) _)
    as [cdf|] eqn:Hc; simpl; [|done].
  destruct (sort_values_desc (of_records _ (token_records pu _)) _)
    as [pdf|] eqn:Hp; simpl; [|done].
  destruct (sort_values_desc
              (of_records _ (pair_records
                               (select_pairs cu pu (corpus_pair_stats corpus)))) _)
    as [prdf|] eqn:Hpr; simpl; [|done].
  destruct (sort_values_desc
              (of_records _ (pair_records
                               (select_pairs cu pu (corpus_skip_pair_stats corpus)))) _)
    as [sdf|] eqn:Hs; simpl; [|done].
  intros [= <-]. simpl.
  apply sort_of_records_inv in Hc as [_ ->], Hp as [_ ->],
      Hpr as [Hne ->], Hs as [_ ->].
  repeat split; try done.
  intros Heq. apply Hne. by rewrite Heq.
Qed.

Lemma crunch_no_pmi_column : has_column (child_df self) "pmi" = false.
Proof. destruct crunch_inv as (_ & _ & -> & _). reflexivity. Qed.

(** Every row of the two pair frames has the four cells of its record. *)
Lemma pair_records_rows stats :
  Forall (is_pair_row stats) (pair_records stats).
Proof.
  unfold pair_records. apply Forall_forall. intros r Hr.
  apply list_elem_of_In, in_map_iff in Hr as ([[c p] ct] & <- & Hin).
  by exists c, p, ct.
Qed.

Lemma crunch_pair_rows :
  Forall (is_pair_row (pair_stats self)) (rows (pair_df self)).
Proof.
  destruct crunch_inv as (_ & _ & _ & _ & _ & -> & _). simpl.
  apply sort_rows_Forall, pair_records_rows.
Qed.

Lemma crunch_skip_pair_rows :
  Forall (is_pair_row (skip_pair_stats self)) (rows (skip_pair_df self)).
Proof.
  destruct crunch_inv as (_ & _ & _ & _ & _ & _ & _ & _ & -> & _). simpl.
  apply sort_rows_Forall, pair_records_rows.
Qed.

Lemma crunch_pair_rows_nonempty : rows (pair_df self) <> [].
Proof.
  destruct crunch_inv as (_ & _ & _ & _ & _ & -> & Hne & _). simpl.
  intros Heq. apply (f_equal length) in Heq.
  rewrite sort_rows_length in Heq. unfold pair_records in Heq.
  rewrite length_map in Heq. by destruct (pair_stats self).
Qed.

Lemma crunch_pair_columns :
  columns (pair_df self) = pair_cols /\ columns (skip_pair_df self) = pair_cols.
Proof.
  destruct crunch_inv as (_ & _ & _ & _ & _ & -> & _ & _ & -> & _). done.
Qed.
End crunch.

(** *** Memoization of the derived columns *)

Section memo.
Import CompositionAnalysis.
Implicit Types (self : t).

Lemma pmi_rows_cons_raise self r rs e :
  row_pmi self r = Raise e -> pmi_rows self (r :: rs) = Raise e.
Proof. intros Hr. simpl. by rewrite Hr. Qed.

Lemma pmi_rows_length self rs xs :
  pmi_rows self rs = Ok xs -> length xs = length rs.
Proof.
  revert xs. induction rs as [|r rs IH]; simpl; intros xs.
  - by intros [= <-].
  - destruct (row_pmi self r); simpl; [|done].
    destruct (pmi_rows self rs) as [ys|]; simpl; [|done].
    intros [= <-]. simpl. f_equal. by apply IH.
Qed.

Lemma pmi_rows_lookup self rs xs (i : nat) r :
  pmi_rows self rs = Ok xs -> rs !! i = Some r ->
  exists x, xs !! i = Some x /\ row_pmi self r = Ok x.
Proof.
  revert xs i. induction rs as [|r' rs IH]; simpl; intros xs i; [done|].
  destruct (row_pmi self r') as [x'|] eqn:Hr'; simpl; [|done].
  destruct (pmi_rows self rs) as [ys|]; simpl; [|done].
  intros [= <-]. destruct i as [|i]; simpl.
  - intros [= <-]. by exists x'.
  - by apply IH.
Qed.

Lemma row_pmi_length self r x : row_pmi self r = Ok x -> length r = 4%nat.
Proof. by destruct r as [|? [|? [|? [|? [|? ?]]]]]. Qed.

(** A row with a fifth cell cannot be unpacked into the four targets. *)
Lemma row_pmi_five self r v :
  length r = 4%nat -> row_pmi self (r ++ [v]) = Raise ValueError.
Proof. by destruct r as [|? [|? [|? [|? [|? ?]]]]]. Qed.

(** The outcome of a successful [compute_pmi] whose test does not fire:
    the pair frame has the new last column ["pmi"]; the token frames
    are as before. *)
Lemma compute_pmi_inv self self1 :
  has_column (child_df self) "pmi" && has_column (parent_df self) "pmi"
  = false ->
  has_column (pair_df self) "pmi" = false ->
  compute_pmi self = Ok self1 ->
  exists pmi,
    pmi_rows self (rows (pair_df self)) = Ok pmi
    /\ pair_df self1 =
       Frame.mk (columns (pair_df self) ++ ["pmi"])
                (zip_rows None (rows (pair_df self)) (map CFloat pmi))
    /\ child_df self1 = child_df self
    /\ parent_df self1 = parent_df self
    /\ token_stats self1 = token_stats self
    /\ n_tokens self1 = n_tokens self.
Proof.
  intros Hgate Hcol. unfold compute_pmi, pmi_step. rewrite Hgate.
  destruct (pmi_rows self (rows (pair_df self))) as [pmi|] eqn:Hpmi;
    simpl; [|done].
  destruct (set_column (pair_df self) "pmi" (map CFloat pmi))
    as [df|] eqn:Hset; simpl; [|done].
  match goal with
  | |- context [if ?g then _ else _] => destruct g
  end.
  - simpl. intros [= <-]. exists pmi. simpl.
    apply set_column_inv in Hset as [_ ->].
    assert (index_of "pmi" (columns (pair_df self)) = None) as ->.
    { destruct (index_of "pmi" (columns (pair_df self))) eqn:Hi; [|done].
      assert (has_column (pair_df self) "pmi" = true)
        by (apply has_column_index_of; rewrite Hi; by eexists).
      congruence. }
    done.
  - destruct (pmi_rows _ (rows (skip_pair_df _))); simpl; [|done].
    destruct (set_column (skip_pair_df _) _ _); simpl; [|done].
    intros [= <-]. exists pmi. simpl.
    apply set_column_inv in Hset as [_ ->].
    assert (index_of "pmi" (columns (pair_df self)) = None) as ->.
    { destruct (index_of "pmi" (columns (pair_df self))) eqn:Hi; [|done].
      assert (has_column (pair_df self) "pmi" = true)
        by (apply has_column_index_of; rewrite Hi; by eexists).
      congruence. }
    done.
Qed.
End memo.

(** C5. A second call of [compute_pmi] is not a no-op: it raises. The
    test at the head of [compute_pmi] looks for the column in [child_df]
    and [parent_df], while the column is added to the pair frame; so the
    second call goes through the rows again, and the rows, which now have a
    fifth cell, cannot be unpacked into the four targets of the loop
    ([ValueError]). This holds for every state in which a first call has
    succeeded on a pair frame with at least one row and no ["pmi"] column,
    in particular for every state built by the constructor. *)
Theorem second_compute_pmi_raises (self self1 : CompositionAnalysis.t) :
  has_column (CompositionAnalysis.child_df self) "pmi"
  && has_column (CompositionAnalysis.parent_df self) "pmi" = false ->
  has_column (CompositionAnalysis.pair_df self) "pmi" = false ->
  rows (CompositionAnalysis.pair_df self) <> [] ->
  CompositionAnalysis.compute_pmi self = Ok self1 ->
  CompositionAnalysis.compute_pmi self1 = Raise ValueError.
Proof.
  intros Hgate Hcol Hne Hfirst.
  destruct (compute_pmi_inv _ _ Hgate Hcol Hfirst)
    as (pmi & Hpmi & Hdf & Hc & Hp & _).
  unfold CompositionAnalysis.compute_pmi, CompositionAnalysis.pmi_step.
  rewrite Hc, Hp, Hgate, Hdf. simpl.
  destruct (rows (CompositionAnalysis.pair_df self)) as [|r rs] eqn:Hrows;
    [done|].
  pose proof (pmi_rows_length _ _ _ Hpmi) as Hlen.
  destruct pmi as [|x xs]; [done|].
  pose proof (pmi_rows_lookup _ _ _ 0%nat r Hpmi eq_refl) as (x' & _ & Hx).
  apply row_pmi_length in Hx.
  cbn [map zip_rows].
  by rewrite (pmi_rows_cons_raise _ _ _ _ (row_pmi_five self1 r (CFloat x) Hx)).
Qed.

Lemma second_compute_pmi_raises_witness :
  exists self self1,
    CompositionAnalysis._crunch_corpus_stats "ADJ" "NOUN" with_determiner
    = Ok self
    /\ (has_column (CompositionAnalysis.child_df self) "pmi"
        && has_column (CompositionAnalysis.parent_df self) "pmi" = false)
    /\ has_column (CompositionAnalysis.pair_df self) "pmi" = false
    /\ rows (CompositionAnalysis.pair_df self) <> []
    /\ CompositionAnalysis.compute_pmi self = Ok self1
    /\ CompositionAnalysis.compute_pmi self1 = Raise ValueError.
Proof.
  destruct (CompositionAnalysis._crunch_corpus_stats "ADJ" "NOUN"
              with_determiner) as [self|] eqn:Hcrunch;
    [|vm_compute in Hcrunch; discriminate].
  pose proof Hcrunch as Hself. vm_compute in Hself. injection Hself as <-.
  match type of Hcrunch with
  | _ = Ok ?s =>
      destruct (CompositionAnalysis.compute_pmi s) as [self1|] eqn:Hfirst;
      [|cbv -[log2 IZR Rplus Ropp] in Hfirst; discriminate]
  end.
  eexists _, self1. split; [reflexivity|].
  split; [reflexivity|]. split; [reflexivity|]. split; [discriminate|].
  split; [exact Hfirst|].
  refine (second_compute_pmi_raises _ self1 _ _ _ Hfirst);
    [reflexivity|reflexivity|discriminate].
Defined.

(** The other two derived-statistic computations are memoized: their
    tests read the frames the columns are added to. *)
Section memo_ok.
Import CompositionAnalysis.
Implicit Types (self : t).

Lemma bind_Ok {A B} (m : result A) (f : A -> result B) b :
  m ≫= f = Ok b -> exists a, m = Ok a /\ f a = Ok b.
Proof. destruct m as [a|]; [|done]. intros Hf. by exists a. Qed.

Lemma combinations_step_has key d self self' :
  combinations_step key d self = Ok self' ->
  (has_column (child_df self') key = true
   /\ has_column (parent_df self') key = true)
  /\ (forall k, has_column (child_df self) k = true ->
                has_column (child_df self') k = true)
  /\ (forall k, has_column (parent_df self) k = true ->
                has_column (parent_df self') k = true).
Proof.
  unfold combinations_step.
  destruct (has_column (child_df self) key
            && has_column (parent_df self) key) eqn:Hgate.
  - intros [= <-]. by apply andb_prop in Hgate.
  - intros Hs.
    apply bind_Ok in Hs as (ct1 & _ & Hs).
    apply bind_Ok in Hs as (cdf1 & Hc1 & Hs).
    apply bind_Ok in Hs as (pt1 & _ & Hs).
    apply bind_Ok in Hs as (pdf1 & Hp1 & Hs).
    apply bind_Ok in Hs as (ct2 & _ & Hs).
    apply bind_Ok in Hs as (cdf2 & Hc2 & Hs).
    apply bind_Ok in Hs as (pt2 & _ & Hs).
    apply bind_Ok in Hs as (pdf2 & Hp2 & Hs).
    injection Hs as <-. simpl in *.
    repeat split.
    + eapply set_column_keeps; [exact Hc2|]. by eapply set_column_has.
    + eapply set_column_keeps; [exact Hp2|]. by eapply set_column_has.
    + intros k Hk. eapply set_column_keeps; [exact Hc2|].
      by eapply set_column_keeps.
    + intros k Hk. eapply set_column_keeps; [exact Hp2|].
      by eapply set_column_keeps.
Qed.

(** A second [compute_combinations] changes nothing. *)
Lemma compute_combinations_twice self self' :
  compute_combinations self = Ok self' ->
  compute_combinations self' = Ok self'.
Proof.
  unfold compute_combinations. intros Hs.
  apply bind_Ok in Hs as (s1 & H1 & H2).
  apply combinations_step_has in H1 as ([Hc Hp] & _ & _).
  apply combinations_step_has in H2 as ([Hc' Hp'] & Hkc & Hkp).
  unfold combinations_step.
  rewrite (Hkc _ Hc), (Hkp _ Hp). simpl. by rewrite Hc', Hp'.
Qed.

Lemma generate_adjacency_matrix_frames skip stat self m self' :
  generate_adjacency_matrix skip stat self = Ok (m, self') ->
  child_df self' = child_df self /\ parent_df self' = parent_df self.
Proof.
  unfold generate_adjacency_matrix. destruct (matrix self).
  - by intros [= _ <-].
  - intros Hs.
    apply bind_Ok in Hs as (? & _ & Hs). apply bind_Ok in Hs as (? & _ & Hs).
    apply bind_Ok in Hs as (? & _ & Hs). by injection Hs as _ <-.
Qed.

Lemma entropy_step_has name skip self self' :
  entropy_step name skip self = Ok self' ->
  (has_column (child_df self') name = true
   /\ has_column (parent_df self') name = true)
  /\ (forall k, has_column (child_df self) k = true ->
                has_column (child_df self') k = true)
  /\ (forall k, has_column (parent_df self) k = true ->
                has_column (parent_df self') k = true).
Proof.
  unfold entropy_step. intros Hs.
  apply bind_Ok in Hs as ([m s1] & Hm & Hs).
  apply generate_adjacency_matrix_frames in Hm as [Hc Hp].
  apply bind_Ok in Hs as (cdf1 & Hc1 & Hs).
  apply bind_Ok in Hs as (pdf1 & Hp1 & Hs).
  apply bind_Ok in Hs as (pf & _ & Hs).
  apply bind_Ok in Hs as (cf & _ & Hs).
  apply bind_Ok in Hs as (pdf2 & Hp2 & Hs).
  apply bind_Ok in Hs as (cdf2 & Hc2 & Hs).
  injection Hs as <-. simpl. rewrite Hc in Hc1. rewrite Hp in Hp1.
  repeat split.
  - eapply set_column_keeps; [exact Hc2|]. by eapply set_column_has.
  - eapply set_column_keeps; [exact Hp2|]. by eapply set_column_has.
  - intros k Hk. eapply set_column_keeps; [exact Hc2|].
    by eapply set_column_keeps.
  - intros k Hk. eapply set_column_keeps; [exact Hp2|].
    by eapply set_column_keeps.
Qed.

(** A second [compute_entropy] changes nothing. *)
Lemma compute_entropy_twice self self' :
  compute_entropy self = Ok self' -> compute_entropy self' = Ok self'.
Proof.
  unfold compute_entropy at 1.
  destruct (has_column (child_df self) "entropy"
            && has_column (parent_df self) "entropy") eqn:Hgate.
  - intros [= <-]. unfold compute_entropy. by rewrite Hgate.
  - intros Hs. apply bind_Ok in Hs as (s1 & H1 & Hs).
    apply entropy_step_has in H1 as ([Hc Hp] & _ & _).
    assert (has_column (child_df self') "entropy" = true
            /\ has_column (parent_df self') "entropy" = true) as [Hc' Hp'].
    { destruct (has_column (child_df s1) "entropy_skip"
                && has_column (parent_df s1) "entropy_skip").
      - by injection Hs as <-.
      - apply entropy_step_has in Hs as (_ & Hkc & Hkp). auto. }
    unfold compute_entropy. by rewrite Hc', Hp'.
Qed.
End memo_ok.

(** *** The values of the PMI *)

Section pmi.
Import CompositionAnalysis.
Implicit Types (self : t).
Local Open Scope R_scope.

Lemma np_log2_pos (n : Z) : (0 < n)%Z -> np_log2 n = FReal (log2 (IZR n)).
Proof.
  intros Hn. unfold np_log2.
  by replace (0 <? n)%Z with true by (symmetry; by apply Z.ltb_lt).
Qed.

(** The PMI of one row, as the loop body computes it. *)
Lemma row_pmi_value self (c1 c2 : cell) (w p : string) (ct fw fp : Z) :
  assoc_get (token_stats self) w = Some fw ->
  assoc_get (token_stats self) p = Some fp ->
  row_pmi self [c1; c2; CPair w p; CInt ct] =
  Ok (fsub (fsub (np_log2 ct) (np_log2 fw))
           (fsub (np_log2 fp) (np_log2 (n_tokens self)))).
Proof.
  intros Hw Hp. unfold row_pmi, log2_freq. simpl. by rewrite Hp, Hw.
Qed.

Lemma pmi_positive (ct fw fp n : Z) :
  (0 < ct)%Z -> (0 < fw)%Z -> (0 < fp)%Z -> (0 < n)%Z ->
  fsub (fsub (np_log2 ct) (np_log2 fw)) (fsub (np_log2 fp) (np_log2 n))
  = FReal (log2 (IZR ct) - log2 (IZR fw) - log2 (IZR fp) + log2 (IZR n)).
Proof.
  intros. rewrite !np_log2_pos by done. simpl. f_equal. lra.
Qed.

Lemma pmi_rows_ext self self' rs :
  token_stats self = token_stats self' -> n_tokens self = n_tokens self' ->
  pmi_rows self rs = pmi_rows self' rs.
Proof.
  intros Ht Hn. induction rs as [|r rs IH]; simpl; [done|].
  rewrite IH. f_equal. unfold row_pmi, log2_freq. by rewrite Ht, Hn.
Qed.

Lemma pmi_rows_total self stats rs :
  (forall c p ct, In ((c, p), ct) stats ->
     is_Some (assoc_get (token_stats self) c)
     /\ is_Some (assoc_get (token_stats self) p)) ->
  Forall (is_pair_row stats) rs ->
  exists xs, pmi_rows self rs = Ok xs.
Proof.
  intros Hknown. induction 1 as [|r rs Hr _ [xs IH]]; simpl; [by eexists|].
  destruct Hr as (c & p & ct & Hin & ->).
  destruct (Hknown _ _ _ Hin) as [[fw Hw] [fp Hp]].
  rewrite (row_pmi_value _ _ _ _ _ _ _ _ Hw Hp). simpl.
  rewrite IH. simpl. by eexists.
Qed.

(** On an object built by [_crunch_corpus_stats] from tables whose pairs
    consist of counted tokens, [compute_pmi] returns. *)
Lemma compute_pmi_total cu pu corpus self :
  _crunch_corpus_stats cu pu corpus = Ok self ->
  texts_known self ->
  exists self', compute_pmi self = Ok self'.
Proof.
  intros Hcrunch Hknown.
  pose proof (crunch_no_pmi_column _ _ _ _ Hcrunch) as Hno.
  destruct (crunch_pair_columns _ _ _ _ Hcrunch) as [Hcols Hscols].
  assert (Hnos : has_column (child_df self) "skip_pmi" = false).
  { destruct (crunch_inv _ _ _ _ Hcrunch) as (_ & _ & -> & _). reflexivity. }
  destruct (pmi_rows_total self (pair_stats self) (rows (pair_df self)))
    as [pmi Hpmi].
  { intros c p ct Hin. apply (Hknown c p ct), in_or_app. by left. }
  { by eapply crunch_pair_rows. }
  destruct (pmi_rows_total self (skip_pair_stats self)
              (rows (skip_pair_df self))) as [spmi Hspmi].
  { intros c p ct Hin. apply (Hknown c p ct), in_or_app. by right. }
  { by eapply crunch_skip_pair_rows. }
  unfold compute_pmi, pmi_step. rewrite Hno, Hpmi. simpl.
  rewrite set_column_Ok
    by (rewrite length_map; by eapply pmi_rows_length).
  simpl. rewrite Hnos. simpl.
  rewrite (pmi_rows_ext _ self) by done. rewrite Hspmi. simpl.
  rewrite set_column_Ok
    by (rewrite length_map; by eapply pmi_rows_length).
  simpl. by eexists.
Qed.
End pmi.

Section pmi_columns.
Import CompositionAnalysis.
Implicit Types (self : t).

(** On an object built by [_crunch_corpus_stats] from tables whose pairs
    consist of counted tokens, [compute_pmi] returns the object with a
    column [pmi] added to [pair_df] and a column [skip_pmi] added to
    [skip_pair_df], one value of [row_pmi] per row. *)
Lemma crunch_compute_pmi cu pu corpus self :
  _crunch_corpus_stats cu pu corpus = Ok self ->
  texts_known self ->
  exists pmi spmi,
    pmi_rows self (rows (pair_df self)) = Ok pmi
    /\ pmi_rows self (rows (skip_pair_df self)) = Ok spmi
    /\ compute_pmi self =
       Ok (set_skip_pair_df
             (Frame.mk ["child"; "parent"; "pair"; "freq"; "skip_pmi"]
                (zip_rows None (rows (skip_pair_df self)) (map CFloat spmi)))
             (set_pair_df
                (Frame.mk ["child"; "parent"; "pair"; "freq"; "pmi"]
                   (zip_rows None (rows (pair_df self)) (map CFloat pmi)))
                self)).
Proof.
  intros Hcrunch Hknown.
  pose proof (crunch_no_pmi_column _ _ _ _ Hcrunch) as Hno.
  destruct (crunch_pair_columns _ _ _ _ Hcrunch) as [Hcols Hscols].
  assert (Hnos : has_column (child_df self) "skip_pmi" = false).
  { destruct (crunch_inv _ _ _ _ Hcrunch) as (_ & _ & -> & _). reflexivity. }
  destruct (pmi_rows_total self (pair_stats self) (rows (pair_df self)))
    as [pmi Hpmi].
  { intros c p ct Hin. apply (Hknown c p ct), in_or_app. by left. }
  { by eapply crunch_pair_rows. }
  destruct (pmi_rows_total self (skip_pair_stats self)
              (rows (skip_pair_df self))) as [spmi Hspmi].
  { intros c p ct Hin. apply (Hknown c p ct), in_or_app. by right. }
  { by eapply crunch_skip_pair_rows. }
  exists pmi, spmi. split; [done|]. split; [done|].
  unfold compute_pmi, pmi_step. rewrite Hno, Hpmi. simpl.
  rewrite set_column_Ok
    by (rewrite length_map; by eapply pmi_rows_length).
  simpl. rewrite Hnos. simpl.
  rewrite (pmi_rows_ext _ self) by done. rewrite Hspmi. simpl.
  rewrite set_column_Ok
    by (rewrite length_map; by eapply pmi_rows_length).
  simpl. by rewrite Hcols, Hscols.
Qed.

(** The cell a row gets in the new column. *)
Lemma pmi_cell self rs pmi (i : nat) (c1 c2 : cell) (w p : string)
    (ct fw fp : Z) :
  pmi_rows self rs = Ok pmi ->
  rs !! i = Some [c1; c2; CPair w p; CInt ct] ->
  assoc_get (token_stats self) w = Some fw ->
  assoc_get (token_stats self) p = Some fp ->
  zip_rows None rs (map CFloat pmi) !! i
  = Some [c1; c2; CPair w p; CInt ct;
          CFloat (fsub (fsub (np_log2 ct) (np_log2 fw))
                       (fsub (np_log2 fp) (np_log2 (n_tokens self))))].
Proof.
  intros Hpmi Hrow Hw Hp.
  destruct (pmi_rows_lookup _ _ _ _ _ Hpmi Hrow) as (x & Hx & Hval).
  rewrite (lookup_zip_rows_new _ _ _ _ (CFloat x) Hrow)
    by (by rewrite list_lookup_fmap, Hx).
  rewrite (row_pmi_value _ _ _ _ _ _ _ _ Hw Hp) in Hval.
  by injection Hval as <-.
Qed.

(** A row whose PMI is computed names two texts of [token_stats]. *)
Lemma pmi_row_known self rs pmi (i : nat) (c1 c2 : cell) (w p : string)
    (ct : Z) :
  pmi_rows self rs = Ok pmi ->
  rs !! i = Some [c1; c2; CPair w p; CInt ct] ->
  is_Some (assoc_get (token_stats self) w)
  /\ is_Some (assoc_get (token_stats self) p).
Proof.
  intros Hpmi Hrow.
  destruct (pmi_rows_lookup _ _ _ _ _ Hpmi Hrow) as (x & _ & Hval).
  unfold row_pmi, log2_freq in Hval. simpl in Hval.
  destruct (assoc_get (token_stats self) p); [|done].
  destruct (assoc_get (token_stats self) w); [|done].
  split; by eexists.
Qed.
End pmi_columns.

(** *** The frequency table keyed by bare text *)

Section last_wins.
Import CompositionAnalysis.
Context {K V : Type} `{EqDecision K}.
Implicit Types (d items : list (K * V)) (k : K).

Lemma assoc_get_set d k' v k :
  assoc_get (assoc_set d k' v) k =
  if decide (k' = k) then Some v else assoc_get d k.
Proof.
  induction d as [|[k0 v0] d IH]; simpl.
  - destruct (decide (k' = k)); done.
  - destruct (decide (k0 = k')) as [->|Hne]; simpl.
    + destruct (decide (k' = k)); done.
    + destruct (decide (k0 = k)) as [->|Hne'].
      * destruct (decide (k' = k)); [congruence|done].
      * done.
Qed.

(** Storing items one after the other leaves, under each key, the value
    of the last item with that key. *)
Lemma assoc_get_foldl items d k :
  assoc_get (foldl (fun d kv => assoc_set d kv.1 kv.2) d items) k =
  foldl (fun acc kv => if decide (kv.1 = k) then Some kv.2 else acc)
        (assoc_get d k) items.
Proof.
  revert d. induction items as [|[k' v] items IH]; intros d; simpl; [done|].
  by rewrite IH, assoc_get_set.
Qed.

Lemma foldl_last_absent items k (acc : option V) :
  (forall kv, In kv items -> kv.1 <> k) ->
  foldl (fun acc kv => if decide (kv.1 = k) then Some kv.2 else acc)
        acc items = acc.
Proof.
  revert acc. induction items as [|kv items IH]; intros acc Habs; simpl;
    [done|].
  rewrite IH by (intros; apply Habs; by right).
  destruct (decide (kv.1 = k)) as [Heq|]; [|done].
  by destruct (Habs kv (or_introl eq_refl)).
Qed.

Lemma assoc_of_items_last (pre : list (K * V)) k (v : V) post :
  (forall kv, In kv post -> kv.1 <> k) ->
  assoc_get (assoc_of_items (pre ++ (k, v) :: post)%list) k = Some v.
Proof.
  intros Habs. unfold assoc_of_items.
  rewrite assoc_get_foldl, foldl_app. simpl.
  destruct (decide (k = k)); [|done]. by apply foldl_last_absent.
Qed.
End last_wins.

Section single_value.
Import CompositionAnalysis.
Context {K V : Type} `{EqDecision K}.
Implicit Types (items : list (K * V)) (k : K).

Lemma foldl_last_kept items k (v : V) :
  (forall v', In (k, v') items -> v' = v) ->
  foldl (fun acc kv => if decide (kv.1 = k) then Some kv.2 else acc)
        (Some v) items = Some v.
Proof.
  induction items as [|[k' v'] items IH]; intros Hall; simpl; [done|].
  destruct (decide (k' = k)) as [->|Hne].
  - rewrite (Hall v') by (by left). apply IH.
    intros v'' Hin. apply Hall. by right.
  - apply IH. intros v'' Hin. apply Hall. by right.
Qed.

(** Where all the items stored under a key carry the same value, that value
    is the one the dict holds. *)
Lemma assoc_of_items_single items k (v : V) :
  In (k, v) items ->
  (forall v', In (k, v') items -> v' = v) ->
  assoc_get (assoc_of_items items) k = Some v.
Proof.
  intros Hin Hall. unfold assoc_of_items. rewrite assoc_get_foldl.
  generalize (assoc_get (@nil (K * V)) k).
  induction items as [|[k' v'] items IH]; intros acc; [done|].
  simpl. destruct Hin as [[= -> ->]|Hin].
  - rewrite decide_True by done. apply foldl_last_kept.
    intros v'' Hin'. apply Hall. by right.
  - apply IH; [done|]. intros v'' Hin'. apply Hall. by right.
Qed.
End single_value.

Section one_category.
Import CompositionAnalysis.

Lemma NoDup_keys_value {K V : Type} (d : list (K * V)) k v v' :
  NoDup (map fst d) -> In (k, v) d -> In (k, v') d -> v = v'.
Proof.
  induction d as [|[k0 v0] d IH]; [done|].
  rewrite map_cons, NoDup_cons. cbn [In fst].
  intros [Hfresh Hnd] [Heq|Hin] [Heq'|Hin'].
  - congruence.
  - injection Heq as -> ->. destruct Hfresh.
    apply list_elem_of_In, in_map_iff. by exists (k, v').
  - injection Heq' as -> ->. destruct Hfresh.
    apply list_elem_of_In, in_map_iff. by exists (k, v).
  - by apply IH.
Qed.

(** A text counted under one selected category, and not under the other,
    has in [token_stats] the count of that category. *)
Lemma token_stats_one_category cu pu corpus self (t u : string) (n : Z) :
  _crunch_corpus_stats cu pu corpus = Ok self ->
  NoDup (map fst (corpus_token_stats corpus)) ->
  In ((t, u), n) (corpus_token_stats corpus) ->
  u = cu \/ u = pu ->
  (forall u' n', In ((t, u'), n') (corpus_token_stats corpus) ->
                 u' = cu \/ u' = pu -> u' = u) ->
  assoc_get (token_stats self) t = Some n.
Proof.
  intros Hcrunch Hnd Hin Hsel Honly.
  destruct (crunch_inv _ _ _ _ Hcrunch) as (_ & -> & _).
  apply assoc_of_items_single.
  - apply in_map_iff. exists ((t, u), n). split; [done|].
    apply list_elem_of_In, list_elem_of_filter. split; [done|].
    by apply list_elem_of_In.
  - intros n' Hin'.
    apply in_map_iff in Hin' as ([[t' u'] n''] & [= -> ->] & Hin').
    apply list_elem_of_In, list_elem_of_filter in Hin' as [Hsel' Hin'].
    apply list_elem_of_In in Hin'. simpl in Hsel'.
    rewrite (Honly _ _ Hin' Hsel') in Hin'.
    exact (NoDup_keys_value _ _ _ _ Hnd Hin' Hin).
Qed.
End one_category.

(** C2, as the code has it. On an object built from corpus tables whose
    pairs consist of counted tokens, [compute_pmi] returns, and the row of
    the pair frame for the pair (w, p) with joint count c gets the new last
    cell log2(c) - log2(freq(w)) - log2(freq(p)) + log2(N), where freq(w)
    is the count of w under the child category and freq(p) the count of p
    under the parent category in the token table of the corpus, neither
    text being counted under the other selected category as well, and N is
    the number of occurrences of all tokens of the corpus, of every
    category. *)
Theorem pmi_formula
    (cu pu : string) (corpus : CompositionAnalysis.corpus_tables)
    (self : CompositionAnalysis.t) (i : nat) (w p : string) (c fw fp : Z) :
  CompositionAnalysis._crunch_corpus_stats cu pu corpus = Ok self ->
  texts_known self ->
  NoDup (map fst (CompositionAnalysis.corpus_token_stats corpus)) ->
  rows (CompositionAnalysis.pair_df self) !! i
  = Some [CStr w; CStr p; CPair w p; CInt c] ->
  In ((w, cu), fw) (CompositionAnalysis.corpus_token_stats corpus) ->
  In ((p, pu), fp) (CompositionAnalysis.corpus_token_stats corpus) ->
  (forall n, In ((w, pu), n) (CompositionAnalysis.corpus_token_stats corpus) ->
             pu = cu) ->
  (forall n, In ((p, cu), n) (CompositionAnalysis.corpus_token_stats corpus) ->
             cu = pu) ->
  0 < c -> 0 < fw -> 0 < fp ->
  0 < all_occurrences (CompositionAnalysis.corpus_token_stats corpus) ->
  exists self',
    CompositionAnalysis.compute_pmi self = Ok self'
    /\ columns (CompositionAnalysis.pair_df self')
       = ["child"; "parent"; "pair"; "freq"; "pmi"]
    /\ rows (CompositionAnalysis.pair_df self') !! i
       = Some [CStr w; CStr p; CPair w p; CInt c;
               CFloat (FReal (log2 (IZR c) - log2 (IZR fw) - log2 (IZR fp)
                              + log2 (IZR (all_occurrences
                                   (CompositionAnalysis.corpus_token_stats
                                      corpus)))))%R].
Proof.
  intros Hcrunch Hknown Hnd Hrow Hinw Hinp Honlyw Honlyp Hc Hfw Hfp HN.
  assert (Hw : CompositionAnalysis.assoc_get
                 (CompositionAnalysis.token_stats self) w = Some fw).
  { apply (token_stats_one_category cu pu corpus self w cu fw); auto.
    intros u' n' Hin [->| ->]; [done|]. by eapply Honlyw. }
  assert (Hp : CompositionAnalysis.assoc_get
                 (CompositionAnalysis.token_stats self) p = Some fp).
  { apply (token_stats_one_category cu pu corpus self p pu fp); auto.
    intros u' n' Hin [->| ->]; [|done]. by eapply Honlyp. }
  destruct (crunch_compute_pmi _ _ _ _ Hcrunch Hknown)
    as (pmi & spmi & Hpmi & _ & Hself').
  eexists. split; [exact Hself'|]. split; [done|]. simpl.
  rewrite (pmi_cell _ _ _ _ _ _ _ _ _ _ _ Hpmi Hrow Hw Hp).
  destruct (crunch_inv _ _ _ _ Hcrunch) as (-> & _).
  by rewrite pmi_positive.
Qed.

Section log_facts.
Local Open Scope R_scope.

Lemma ln_2_pos : 0 < ln 2.
Proof. pose proof ln_lt_2. lra. Qed.

(** ln 2 is below 1: the natural and the binary logarithm differ. *)
Lemma ln_2_lt_1 : ln 2 < 1.
Proof.
  rewrite <- (ln_exp 1). apply ln_increasing; [lra|].
  pose proof (exp_ineq1 1). lra.
Qed.

Lemma log2_mult x y : 0 < x -> 0 < y -> log2 (x * y) = log2 x + log2 y.
Proof.
  intros Hx Hy. unfold log2. rewrite ln_mult by done.
  pose proof ln_2_pos. field. lra.
Qed.

Lemma log2_lt x y : 0 < x -> x < y -> log2 x < log2 y.
Proof.
  intros Hx Hxy. unfold log2. pose proof ln_2_pos.
  apply Rmult_lt_compat_r; [by apply Rinv_0_lt_compat|].
  by apply ln_increasing.
Qed.

Lemma log2_1 : log2 1 = 0.
Proof. unfold log2. rewrite ln_1. lra. Qed.

Lemma log2_2 : log2 2 = 1.
Proof. unfold log2. pose proof ln_2_pos. field. lra. Qed.

(** The arithmetic of the PMI example: 10 * 10000 / (100 * 50) = 20. *)
Lemma log2_example :
  log2 10 - log2 100 - log2 50 + log2 10000 = log2 20.
Proof.
  replace 10000 with (100 * (50 * 2)) by lra.
  replace 20 with (10 * 2) by lra.
  rewrite !log2_mult by lra. lra.
Qed.
End log_facts.

Lemma pmi_formula_witness :
  exists self self',
    CompositionAnalysis._crunch_corpus_stats "ADJ" "NOUN" red_apple = Ok self
    /\ texts_known self
    /\ rows (CompositionAnalysis.pair_df self) !! 0%nat
       = Some [CStr "red"; CStr "apple"; CPair "red" "apple"; CInt 10]
    /\ In (("red", "ADJ"), 100)
          (CompositionAnalysis.corpus_token_stats red_apple)
    /\ In (("apple", "NOUN"), 50)
          (CompositionAnalysis.corpus_token_stats red_apple)
    /\ all_occurrences (CompositionAnalysis.corpus_token_stats red_apple)
       = 10000
    /\ CompositionAnalysis.compute_pmi self = Ok self'
    /\ rows (CompositionAnalysis.pair_df self') !! 0%nat
       = Some [CStr "red"; CStr "apple"; CPair "red" "apple"; CInt 10;
               CFloat (FReal (log2 20))].
Proof.
  destruct (CompositionAnalysis._crunch_corpus_stats "ADJ" "NOUN" red_apple)
    as [self|] eqn:Hcrunch; [|vm_compute in Hcrunch; discriminate].
  pose proof Hcrunch as Hself. vm_compute in Hself. injection Hself as <-.
  assert (Hnd : NoDup (map fst (CompositionAnalysis.corpus_token_stats
                                  red_apple))) by compute_done.
  assert (Hred : In (("red", "ADJ"), 100)
                    (CompositionAnalysis.corpus_token_stats red_apple))
    by (simpl; auto).
  assert (Happle : In (("apple", "NOUN"), 50)
                      (CompositionAnalysis.corpus_token_stats red_apple))
    by (simpl; auto).
  assert (Honlyw : forall n,
            In (("red", "NOUN"), n)
               (CompositionAnalysis.corpus_token_stats red_apple) ->
            "NOUN" = "ADJ").
  { intros n Hin. simpl in Hin.
    destruct Hin as [Hin|[Hin|[Hin|[]]]]; discriminate. }
  assert (Honlyp : forall n,
            In (("apple", "ADJ"), n)
               (CompositionAnalysis.corpus_token_stats red_apple) ->
            "ADJ" = "NOUN").
  { intros n Hin. simpl in Hin.
    destruct Hin as [Hin|[Hin|[Hin|[]]]]; discriminate. }
  match type of Hcrunch with
  | _ = Ok ?s =>
      assert (Hknown : texts_known s);
      [|destruct (pmi_formula "ADJ" "NOUN" red_apple s 0 "red" "apple"
                    10 100 50 Hcrunch Hknown Hnd eq_refl Hred Happle
                    Honlyw Honlyp eq_refl eq_refl eq_refl eq_refl)
          as (self' & Hpmi & _ & Hrow);
        exists s, self']
  end.
  - intros c p ct Hin. simpl in Hin.
    destruct Hin as [[= <- <- <-]|[[= <- <- <-]|[]]];
      split; by eexists.
  - split; [reflexivity|]. split; [exact Hknown|].
    split; [reflexivity|]. split; [exact Hred|]. split; [exact Happle|].
    split; [reflexivity|]. split; [exact Hpmi|].
    rewrite Hrow.
    change (all_occurrences (CompositionAnalysis.corpus_token_stats red_apple))
      with 10000%Z.
    by rewrite log2_example.
Defined.

(** C2 as stated fails in two ways. The total under the last logarithm is
    the number of occurrences of all tokens, not of the tokens of the two
    selected categories: with one adjective, one noun and a determiner seen
    three times, the selected categories have 2 occurrences, and the PMI of
    the pair is log2(5), not log2(2). And for a text that is counted under
    both selected categories the frequency is not the one of the category
    the text has in the pair: with "red" counted 3 times as an adjective
    and once as a noun, the PMI of the pair (red, apple) is computed with
    the frequency 1, not with the 3 that [child_df] shows for the
    adjective. *)
Lemma pmi_differs_from_claim :
  (exists self self' x,
     CompositionAnalysis._crunch_corpus_stats "ADJ" "NOUN" with_determiner
     = Ok self
     /\ CompositionAnalysis.compute_pmi self = Ok self'
     /\ rows (CompositionAnalysis.pair_df self') !! 0%nat
        = Some [CStr "red"; CStr "apple"; CPair "red" "apple"; CInt 1;
                CFloat (FReal x)]
     /\ CompositionAnalysis.assoc_get (CompositionAnalysis.token_stats self)
          "red" = Some 1
     /\ CompositionAnalysis.assoc_get (CompositionAnalysis.token_stats self)
          "apple" = Some 1
     /\ selected_occurrences "ADJ" "NOUN"
          (CompositionAnalysis.corpus_token_stats with_determiner) = 2
     /\ x = log2 5
     /\ x <> (log2 1 - log2 1 - log2 1
              + log2 (IZR (selected_occurrences "ADJ" "NOUN"
                             (CompositionAnalysis.corpus_token_stats
                                with_determiner))))%R)
  /\ (exists self self' y,
        CompositionAnalysis._crunch_corpus_stats "ADJ" "NOUN" red_twice
        = Ok self
        /\ CompositionAnalysis.compute_pmi self = Ok self'
        /\ rows (CompositionAnalysis.child_df self) !! 0%nat
           = Some [CStr "red"; CStr "ADJ"; CInt 3]
        /\ rows (CompositionAnalysis.parent_df self)
           = [[CStr "apple"; CStr "NOUN"; CInt 5];
              [CStr "red"; CStr "NOUN"; CInt 1]]
        /\ selected_occurrences "ADJ" "NOUN"
             (CompositionAnalysis.corpus_token_stats red_twice) = 9
        /\ all_occurrences
             (CompositionAnalysis.corpus_token_stats red_twice) = 9
        /\ rows (CompositionAnalysis.pair_df self') !! 0%nat
           = Some [CStr "red"; CStr "apple"; CPair "red" "apple"; CInt 2;
                   CFloat (FReal y)]
        /\ y = (log2 2 - log2 1 - log2 5 + log2 9)%R
        /\ y <> (log2 2 - log2 3 - log2 5 + log2 9)%R).
Proof.
  split.
  - destruct (CompositionAnalysis._crunch_corpus_stats "ADJ" "NOUN"
                with_determiner) as [self|] eqn:Hcrunch;
      [|vm_compute in Hcrunch; discriminate].
    pose proof Hcrunch as Hself. vm_compute in Hself. injection Hself as <-.
    match type of Hcrunch with
    | _ = Ok ?s =>
        destruct (CompositionAnalysis.compute_pmi s) as [self'|] eqn:Hpmi;
        [|cbv -[log2 IZR Rplus Ropp] in Hpmi; discriminate]
    end.
    pose proof Hpmi as Hself'. cbv -[log2 IZR Rplus Ropp] in Hself'.
    injection Hself' as <-.
    eexists _, _, _. split; [reflexivity|]. split; [exact Hpmi|].
    split; [reflexivity|]. split; [reflexivity|]. split; [reflexivity|].
    split; [reflexivity|].
    change (IZR (selected_occurrences "ADJ" "NOUN"
                   (CompositionAnalysis.corpus_token_stats with_determiner)))
      with 2%R.
    rewrite !log2_1, log2_2.
    pose proof (log2_lt 2 5 ltac:(lra) ltac:(lra)) as Hlt.
    rewrite log2_2 in Hlt. split; lra.
  - destruct (CompositionAnalysis._crunch_corpus_stats "ADJ" "NOUN"
                red_twice) as [self|] eqn:Hcrunch;
      [|vm_compute in Hcrunch; discriminate].
    pose proof Hcrunch as Hself. vm_compute in Hself. injection Hself as <-.
    match type of Hcrunch with
    | _ = Ok ?s =>
        destruct (CompositionAnalysis.compute_pmi s) as [self'|] eqn:Hpmi;
        [|cbv -[log2 IZR Rplus Ropp] in Hpmi; discriminate]
    end.
    pose proof Hpmi as Hself'. cbv -[log2 IZR Rplus Ropp] in Hself'.
    injection Hself' as <-.
    eexists _, _, _. split; [reflexivity|]. split; [exact Hpmi|].
    split; [reflexivity|]. split; [reflexivity|]. split; [reflexivity|].
    split; [reflexivity|]. split; [reflexivity|].
    pose proof (log2_lt 1 3 ltac:(lra) ltac:(lra)) as Hlt.
    rewrite log2_1 in *. split; lra.
Qed.

(** C10. When a text is counted under both selected categories, the
    table [token_stats] of the analysis, keyed by the bare text, holds the
    count of the entry that comes later in the corpus table (not the sum of
    the two), and that count is the frequency of the text in every PMI: on
    tables whose pairs consist of counted tokens [compute_pmi] returns, and
    every row of [pair_df] and of [skip_pair_df] gets, in the new column, the
    value computed from the [token_stats] entries of its two texts, which
    for this text, as child or as parent, is that later count. *)
Theorem token_stats_keeps_last_category
    (cu pu : string) (corpus : CompositionAnalysis.corpus_tables)
    (self : CompositionAnalysis.t) (t u1 u2 : string) (a b : Z)
    (pre mid post : list ((string * string) * Z)) :
  cu <> pu ->
  (u1 = cu /\ u2 = pu) \/ (u1 = pu /\ u2 = cu) ->
  CompositionAnalysis.corpus_token_stats corpus
  = (pre ++ ((t, u1), a) :: mid ++ ((t, u2), b) :: post)%list ->
  NoDup (map fst (CompositionAnalysis.corpus_token_stats corpus)) ->
  0 < a ->
  CompositionAnalysis._crunch_corpus_stats cu pu corpus = Ok self ->
  CompositionAnalysis.assoc_get (CompositionAnalysis.token_stats self) t
  = Some b
  /\ b <> a + b
  /\ (texts_known self ->
      exists self',
        CompositionAnalysis.compute_pmi self = Ok self'
        /\ forall (frame : CompositionAnalysis.t -> DataFrame) (i : nat)
                  (c1 c2 : cell) (w p : string) (ct : Z),
             frame = CompositionAnalysis.pair_df
             \/ frame = CompositionAnalysis.skip_pair_df ->
             rows (frame self) !! i = Some [c1; c2; CPair w p; CInt ct] ->
             exists fw fp,
               CompositionAnalysis.assoc_get
                 (CompositionAnalysis.token_stats self) w = Some fw
               /\ CompositionAnalysis.assoc_get
                    (CompositionAnalysis.token_stats self) p = Some fp
               /\ (w = t -> fw = b)
               /\ (p = t -> fp = b)
               /\ rows (frame self') !! i
                  = Some [c1; c2; CPair w p; CInt ct;
                          CFloat
                            (fsub (fsub (np_log2 ct) (np_log2 fw))
                                  (fsub (np_log2 fp)
                                        (np_log2 (CompositionAnalysis.n_tokens
                                                    self))))]).
Proof.
  intros Hne Hu Hts Hnodup Ha Hcrunch.
  assert (Hlookup : CompositionAnalysis.assoc_get
                      (CompositionAnalysis.token_stats self) t = Some b).
  { destruct (crunch_inv _ _ _ _ Hcrunch) as (_ & -> & _).
    rewrite Hts in Hnodup |- *.
    assert (Hsel2 : u2 = cu \/ u2 = pu) by (destruct Hu as [[_ ->]|[_ ->]]; auto).
    change (pre ++ ((t, u1), a) :: mid ++ ((t, u2), b) :: post)%list
      with (pre ++ (((t, u1), a) :: mid) ++ ((t, u2), b) :: post)%list.
    rewrite (app_assoc pre), filter_app, filter_cons.
    rewrite (decide_True (P := _ \/ _)) by exact Hsel2.
    set (sel := fun it : string * string * Z => it.1.2 = cu \/ it.1.2 = pu).
    rewrite map_app, map_cons.
    apply (assoc_of_items_last _ t b).
    intros [t' v] Hin Heq. simpl in Heq. subst t'.
    apply in_map_iff in Hin as ([[t' u'] v'] & [= -> ->] & Hin).
    apply list_elem_of_In, list_elem_of_filter in Hin as [Hsel Hin].
    unfold sel in Hsel. simpl in Hsel.
    rewrite map_app, map_cons, map_app, map_cons in Hnodup.
    simpl in Hnodup.
    apply NoDup_app in Hnodup as (_ & _ & Hnodup).
    apply NoDup_cons in Hnodup as [Hfirst Hnodup].
    apply NoDup_app in Hnodup as (_ & _ & Hnodup).
    apply NoDup_cons in Hnodup as [Hsecond _].
    assert (Hkey : (t, u') ∈ map fst post).
    { apply list_elem_of_In, in_map_iff. exists ((t, u'), v).
      split; [done|]. by apply list_elem_of_In. }
    assert (u' = u1 \/ u' = u2) as [->| ->]
      by (destruct Hu as [[-> ->]|[-> ->]]; destruct Hsel; auto).
    - apply Hfirst. apply elem_of_app. right. by right.
    - by apply Hsecond. }
  split; [done|]. split; [lia|].
  intros Hknown.
  destruct (crunch_compute_pmi _ _ _ _ Hcrunch Hknown)
    as (pmi & spmi & Hpmi & Hspmi & Hself').
  eexists. split; [exact Hself'|].
  intros frame i c1 c2 w p ct Hframe Hrow.
  assert (Hrs : exists xs,
            CompositionAnalysis.pmi_rows self (rows (frame self)) = Ok xs
            /\ rows (frame
                       (CompositionAnalysis.set_skip_pair_df
                          (Frame.mk ["child"; "parent"; "pair"; "freq";
                                     "skip_pmi"]
                             (zip_rows None
                                (rows (CompositionAnalysis.skip_pair_df self))
                                (map CFloat spmi)))
                          (CompositionAnalysis.set_pair_df
                             (Frame.mk ["child"; "parent"; "pair"; "freq";
                                        "pmi"]
                                (zip_rows None
                                   (rows (CompositionAnalysis.pair_df self))
                                   (map CFloat pmi)))
                             self)))
               = zip_rows None (rows (frame self)) (map CFloat xs)).
  { destruct Hframe as [->| ->]; [by exists pmi|by exists spmi]. }
  destruct Hrs as (xs & Hxs & ->).
  destruct (pmi_row_known _ _ _ _ _ _ _ _ _ Hxs Hrow) as [[fw Hw] [fp Hp]].
  exists fw, fp. split; [done|]. split; [done|].
  split; [intros ->; congruence|]. split; [intros ->; congruence|].
  by apply pmi_cell.
Qed.

Lemma token_stats_keeps_last_category_witness :
  exists self self',
    "ADJ" <> "NOUN"
    /\ 0 < 3
    /\ CompositionAnalysis.corpus_token_stats red_twice
       = ([] ++ (("red", "ADJ"), 3)
             :: [(("apple", "NOUN"), 5)] ++ (("red", "NOUN"), 1) :: [])%list
    /\ NoDup (map fst (CompositionAnalysis.corpus_token_stats red_twice))
    /\ CompositionAnalysis._crunch_corpus_stats "ADJ" "NOUN" red_twice
       = Ok self
    /\ texts_known self
    /\ CompositionAnalysis.assoc_get (CompositionAnalysis.token_stats self)
         "red" = Some 1
    /\ CompositionAnalysis.compute_pmi self = Ok self'
    /\ rows (CompositionAnalysis.pair_df self) !! 0%nat
       = Some [CStr "red"; CStr "apple"; CPair "red" "apple"; CInt 2]
    /\ rows (CompositionAnalysis.pair_df self') !! 0%nat
       = Some [CStr "red"; CStr "apple"; CPair "red" "apple"; CInt 2;
               CFloat (fsub (fsub (np_log2 2) (np_log2 1))
                            (fsub (np_log2 5) (np_log2 9)))].
Proof.
  destruct (CompositionAnalysis._crunch_corpus_stats "ADJ" "NOUN" red_twice)
    as [self|] eqn:Hcrunch; [|vm_compute in Hcrunch; discriminate].
  assert (Hne : "ADJ" <> "NOUN") by discriminate.
  assert (Hnodup : NoDup (map fst (CompositionAnalysis.corpus_token_stats
                                     red_twice))).
  { compute_done. }
  assert (Hself : texts_known self
                  /\ rows (CompositionAnalysis.pair_df self) !! 0%nat
                     = Some [CStr "red"; CStr "apple"; CPair "red" "apple";
                             CInt 2]
                  /\ CompositionAnalysis.assoc_get
                       (CompositionAnalysis.token_stats self) "apple" = Some 5
                  /\ CompositionAnalysis.n_tokens self = 9).
  { pose proof Hcrunch as Hself. vm_compute in Hself. injection Hself as <-.
    split; [|done]. intros c p ct Hin. simpl in Hin.
    destruct Hin as [[= <- <- <-]|[[= <- <- <-]|[]]];
      split; by eexists. }
  destruct Hself as (Hknown & Hrow & Happle & Hn).
  destruct (token_stats_keeps_last_category "ADJ" "NOUN" red_twice self
              "red" "ADJ" "NOUN" 3 1 [] [(("apple", "NOUN"), 5)] []
              Hne (or_introl (conj eq_refl eq_refl)) eq_refl Hnodup
              eq_refl Hcrunch) as (Hred & _ & Hpmi).
  destruct (Hpmi Hknown) as (self' & Hself' & Hcells).
  destruct (Hcells CompositionAnalysis.pair_df 0%nat _ _ _ _ _
              (or_introl eq_refl) Hrow)
    as (fw & fp & _ & Hp & Hfw & _ & Hcell).
  rewrite (Hfw eq_refl), Hn in Hcell.
  rewrite Happle in Hp. injection Hp as <-.
  exists self, self'. split; [exact Hne|]. split; [reflexivity|].
  split; [reflexivity|]. split; [exact Hnodup|]. split; [reflexivity|].
  split; [exact Hknown|]. split; [exact Hred|]. split; [exact Hself'|].
  split; [exact Hrow|exact Hcell].
Defined.

(** *** Entropy *)

Section entropy_facts.
Local Open Scope R_scope.

Lemma foldl_fadd_uniform v mask acc :
  foldl fadd (FReal acc) (uniform_row v mask)
  = FReal (acc + INR (support mask) * v).
Proof.
  revert acc. induction mask as [|b mask IH]; intros acc; simpl.
  - f_equal. unfold support. simpl. lra.
  - rewrite IH. f_equal. destruct b; unfold support.
    + rewrite filter_cons_True by done. cbn [length]. rewrite S_INR. ring.
    + rewrite filter_cons_False by done. ring.
Qed.

Lemma support_pos_INR mask : (0 < support mask)%nat -> 0 < INR (support mask).
Proof. intros Hk. by apply lt_0_INR. Qed.

(** The terms of the entropy of a uniform row: each nonzero cell
    contributes [-(v/S) ln (v/S)], each zero cell nothing. *)
Lemma entr_uniform v S mask :
  0 < v -> 0 < S ->
  map (fun x => entr (fdiv x (FReal S))) (uniform_row v mask)
  = uniform_row (- (v / S) * ln (v / S)) mask.
Proof.
  intros Hv HS. unfold uniform_row. rewrite map_map.
  apply map_ext. intros b. unfold fdiv.
  destruct (Req_EM_T S 0) as [|_]; [lra|].
  destruct b; unfold entr.
  - assert (0 < v / S) by (by apply Rdiv_lt_0_compat).
    destruct (Rlt_dec 0 (v / S)); [done|lra].
  - replace (0 / S) with 0 by (unfold Rdiv; ring).
    destruct (Rlt_dec 0 0); [lra|].
    destruct (Req_EM_T 0 0); [done|lra].
Qed.

(** What [scipy.stats.entropy] gives for a row uniform over k nonzero
    cells: the natural logarithm of k. *)
Lemma entropy_uniform v mask :
  0 < v -> (0 < support mask)%nat ->
  entropy (uniform_row v mask) = FReal (ln (INR (support mask))).
Proof.
  intros Hv Hk. pose proof (support_pos_INR _ Hk) as HK.
  unfold entropy, fsum. rewrite foldl_fadd_uniform.
  assert (HS : 0 < 0 + INR (support mask) * v)
    by (rewrite Rplus_0_l; by apply Rmult_lt_0_compat).
  rewrite entr_uniform by done. rewrite foldl_fadd_uniform. f_equal.
  replace (v / (0 + INR (support mask) * v)) with (/ INR (support mask))
    by (field; lra).
  rewrite ln_Rinv by done. field. lra.
Qed.

(** A row with one nonzero cell has entropy 0. *)
Lemma entropy_one_nonzero v mask :
  0 < v -> support mask = 1%nat -> entropy (uniform_row v mask) = FReal 0.
Proof.
  intros Hv Hk. rewrite entropy_uniform by (done || lia).
  rewrite Hk. simpl. by rewrite ln_1.
Qed.

Lemma foldl_fadd_nan l : foldl fadd FNaN l = FNaN.
Proof. induction l as [|x l IH]; simpl; [done|]. by destruct x. Qed.

(** An all-zero row has the entropy NaN, which [fillna(0)] turns into 0. *)
Lemma entropy_all_zero v mask :
  support mask = 0%nat ->
  CompositionAnalysis.fillna0 (entropy (uniform_row v mask)) = FReal 0.
Proof.
  intros Hk. unfold entropy, fsum. rewrite foldl_fadd_uniform, Hk.
  replace (0 + INR 0 * v) with 0 by (simpl; ring).
  assert (Hall : forall b, In b mask -> b = false).
  { intros [|] Hin; [|done]. exfalso.
    assert (Hin' : true ∈ filter (fun b : bool => b = true) mask)
      by (apply list_elem_of_filter; split; [done|by apply list_elem_of_In]).
    unfold support in Hk. destruct (filter _ mask); [|done].
    by apply elem_of_nil in Hin'. }
  destruct mask as [|b mask]; [done|].
  rewrite (Hall b) by (by left). simpl. unfold fdiv.
  destruct (Req_EM_T 0 0); [|lra]. simpl. by rewrite foldl_fadd_nan.
Qed.
End entropy_facts.

(** C3. The entropy is taken with the natural logarithm, not in base 2:
    [compute_entropy] calls [scipy.stats.entropy] without its [base]
    argument. For the adjective seen once with each of two nouns (a row
    uniform over k = 2 parents) the column [entropy] holds ln 2, which is
    below log2(2) = 1. *)
Theorem entropy_is_in_nats :
  exists self self',
    CompositionAnalysis._crunch_corpus_stats "ADJ" "NOUN" two_nouns = Ok self
    /\ CompositionAnalysis.compute_entropy self = Ok self'
    /\ (CompositionAnalysis.data <$> CompositionAnalysis.matrix self')
       = Some [uniform_row 1 [true; true]]
    /\ column (CompositionAnalysis.child_df self') "token" = Ok [CStr "red"]
    /\ column (CompositionAnalysis.child_df self') "entropy"
       = Ok [CFloat (FReal (ln 2))]
    /\ (ln 2 < log2 2)%R.
Proof.
  destruct (CompositionAnalysis._crunch_corpus_stats "ADJ" "NOUN" two_nouns)
    as [self|] eqn:Hcrunch; [|vm_compute in Hcrunch; discriminate].
  pose proof Hcrunch as Hself. vm_compute in Hself. injection Hself as <-.
  match type of Hcrunch with
  | _ = Ok ?s =>
      destruct (CompositionAnalysis.compute_entropy s) as [self'|] eqn:Hent;
      [|cbv -[entropy fdiv np_log2 IZR] in Hent; discriminate]
  end.
  pose proof Hent as Hself'. cbv -[entropy fdiv np_log2 IZR] in Hself'.
  injection Hself' as <-.
  eexists _, _. split; [reflexivity|]. split; [exact Hent|].
  split; [reflexivity|]. split; [reflexivity|]. split.
  - cbv -[entropy fdiv np_log2 IZR].
    change [FReal 1; FReal 1] with (uniform_row 1 [true; true]).
    rewrite entropy_uniform by (lra || (unfold support; simpl; lia)).
    replace (INR (support [true; true])) with 2%R
      by (unfold support; simpl; lra).
    reflexivity.
  - rewrite log2_2. apply ln_2_lt_1.
Qed.

(** * Further properties of the code *)

Import Derived Inputs.


(** * Further properties of the checkpointed reader *)

Section reader_invariants.
Import CachedCorpus.
Implicit Types (self S : CachedCorpus.t) (sb : list sentence)
  (f : list (string * string)).

(** The four attributes a checkpoint accounts for. *)
Lemma last_commit_cons (c : store) (r : run) :
  last (commits (committed c r))
  = match last (commits r) with Some c' => Some c' | None => Some c end.
Proof. apply last_cons. Qed.

Lemma read_loop_last_commit batch_size n eof f :
  forall skip ts sb S,
  accounted (last (commits (read_loop batch_size n eof f skip ts sb S))) S
            (final (read_loop batch_size n eof f skip ts sb S)).
Proof.
  induction f as [|[filename line] f IH]; intros skip ts sb S.
  - simpl. by repeat split.
  - cbn [read_loop]. destruct (0 <? skip); [apply IH|].
    set (S1 := if decide (_current_file S = Some filename) then S
               else set_current_file (Some filename) S).
    assert (HS1 : accounted None S S1)
      by (unfold S1; case_decide; by repeat split).
    clearbody S1.
    destruct (parse_line S1 filename line) as [[parse cid]|]; [|exact HS1].
    destruct (parse_line S1 _ _) as [[? next_cid]|]; [|exact HS1].
    set (go := fun ts' sb' (s : t) =>
           if reaches (_sentences_seen s) n
           then committed (cache (to_cache s)) (returns (to_cache s))
           else read_loop batch_size n eof f skip ts' sb' s).
    assert (Hgo : forall ts' sb' S',
               accounted (last (commits (go ts' sb' S'))) S'
                         (final (go ts' sb' S'))).
    { intros ts' sb' S'. unfold go.
      destruct (reaches (_sentences_seen S') n); [|apply IH].
      simpl. by repeat split. }
    assert (Hgo1 : forall ts' sb',
               accounted (last (commits (go ts' sb' S1))) S
                         (final (go ts' sb' S1))).
    { intros ts' sb'. specialize (Hgo ts' sb' S1).
      destruct (last (commits (go ts' sb' S1))); [done|].
      simpl in *. destruct Hgo as (-> & -> & -> & ->). exact HS1. }
    destruct (negb (String.eqb next_cid cid)); [|apply Hgo1].
    match goal with
    | |- context [if ?c then _ else _] => destruct c
    end; [|apply Hgo1].
    destruct (flush_batch S1 _) as [S2|] eqn:Hflush; [|exact HS1].
    change (go [] [] S2) with (go [] [] S2).
    fold (go [] [] S2).
    rewrite last_commit_cons.
    change (final (committed (cache S2) (go [] [] S2)))
      with (final (go [] [] S2)).
    specialize (Hgo [] [] S2).
    destruct (last (commits (go [] [] S2))); [done|].
    destruct (flush_batch_inv _ _ _ Hflush) as (_ & _ & _ & _ & _ & _ & _ & _ & _ & ->).
    simpl in *. by destruct Hgo as (-> & -> & -> & ->).
Qed.

(** X1. Whatever way [read] ends, with or without an exception, the
    tables and the position counters in memory are exactly those of the
    last checkpoint it committed, or those it started with when it
    committed none: nothing is digested without being cached. *)
Theorem read_memory_is_last_commit
    (fs : string -> list string) (batch_size : Z) (self : CachedCorpus.t) :
  accounted (last (commits (read fs batch_size self))) self
            (final (read fs batch_size self)).
Proof.
  unfold read.
  match goal with
  | |- context [read_loop _ _ _ _ _ _ _ ?s] => set (S0 := s)
  end.
  pose proof (read_loop_last_commit batch_size (_n_sentences self)
                (List.last (_files S0) "")
                (fileinput fs (_files self)) (_lines_read self) [] [] S0)
    as Hacc.
  assert (HS0 : accounted None self S0)
    by (unfold S0; destruct (_total self); by repeat split).
  destruct (last (commits _)); [exact Hacc|].
  simpl in *. by destruct Hacc as (-> & -> & -> & ->).
Qed.

(** *** Counts only grow *)

Lemma count_add `{Countable K} (k k' : K) (n : Z) (a : gmap K Z) :
  Counter.count (Counter.add k n a) k'
  = Counter.count a k' + (if decide (k = k') then n else 0).
Proof.
  unfold Counter.count at 1. rewrite lookup_add.
  destruct (decide (k = k')) as [->|]; simpl; unfold Counter.count; lia.
Qed.

Lemma count_of_list_foldl `{Countable K} (l : list K) (c : gmap K Z) (k : K) :
  Counter.count (foldl (fun c k => Counter.add k 1 c) c l) k
  = Counter.count c k + Z.of_nat (length (filter (fun x => x = k) l)).
Proof.
  revert c. induction l as [|x l IH]; intros c; simpl; [lia|].
  rewrite IH. unfold Counter.count at 1. rewrite lookup_add.
  destruct (decide (x = k)) as [->|Hne].
  - rewrite filter_cons_True by done. simpl. lia.
  - rewrite filter_cons_False by done. unfold Counter.count. lia.
Qed.

(** [Counter(iterable)] counts the occurrences of each element. *)
Lemma count_of_list `{Countable K} (l : list K) (k : K) :
  Counter.count (Counter.of_list l) k
  = Z.of_nat (length (filter (fun x => x = k) l)).
Proof.
  unfold Counter.of_list. rewrite count_of_list_foldl.
  unfold Counter.count. by rewrite lookup_empty.
Qed.

Lemma digest_sentence_nonneg (s : sentence) ts ps :
  _digest_sentence s = Ok (ts, ps) ->
  (forall w, 0 <= Counter.count ts w) /\ (forall e, 0 <= Counter.count ps e).
Proof.
  unfold _digest_sentence.
  destruct (_extract_edges_from_sentence s) as [es|]; simpl; [|done].
  intros [= <- <-]. split; intros; rewrite count_of_list; lia.
Qed.

Lemma Parallel_Forall {A B} (f : A -> result B) (P : B -> Prop) xs ys :
  (forall x y, f x = Ok y -> P y) ->
  Parallel f xs = Ok ys -> Forall P ys.
Proof.
  intros HP. revert ys. induction xs as [|x xs IH]; simpl; intros ys.
  - intros [= <-]. constructor.
  - destruct (f x) as [y|] eqn:Hy; simpl; [|done].
    destruct (Parallel f xs) as [zs|]; simpl; [|done].
    intros [= <-]. constructor; [by eapply HP|by apply IH].
Qed.

Lemma grown_refl self : grown self self.
Proof. by repeat split. Qed.

Lemma grown_trans a b c : grown a b -> grown b c -> grown a c.
Proof.
  intros (Ht & Hp & Hl & Hs) (Ht' & Hp' & Hl' & Hs').
  repeat split; intros; etrans; eauto.
Qed.

Lemma merge_stats_grown stats self :
  Forall (fun st : gmap Word Z * gmap Edge Z =>
            (forall w, 0 <= Counter.count st.1 w)
            /\ (forall e, 0 <= Counter.count st.2 e)) stats ->
  grown self (merge_stats self stats).
Proof.
  intros Hall. revert self.
  induction Hall as [|st stats [Ht Hp] _ IH]; intros self;
    [apply grown_refl|].
  change (merge_stats self (st :: stats))
    with (merge_stats (merge_one self st) stats).
  eapply grown_trans; [|apply IH].
  unfold merge_one. repeat split; simpl; intros; rewrite ?count_update;
    try lia.
  - specialize (Ht w). lia.
  - specialize (Hp e). lia.
Qed.

Lemma batch_lines_nonneg sb : 0 <= batch_lines sb.
Proof. unfold batch_lines. induction sb; simpl; lia. Qed.

Lemma flush_batch_grown self sb self' :
  flush_batch self sb = Ok self' -> grown self self'.
Proof.
  unfold flush_batch, digest_sentencebatch.
  destruct (Parallel _digest_sentence sb) as [stats|] eqn:Hstats; simpl;
    [|done].
  intros [= <-].
  assert (Hnn : Forall (fun st : gmap Word Z * gmap Edge Z =>
                          (forall w, 0 <= Counter.count st.1 w)
                          /\ (forall e, 0 <= Counter.count st.2 e)) stats).
  { eapply Parallel_Forall; [|exact Hstats].
    intros s [ts ps]. apply digest_sentence_nonneg. }
  destruct (merge_stats_grown stats self Hnn) as (Ht & Hp & Hl & Hs).
  pose proof (batch_lines_nonneg sb) as Hbl. unfold batch_lines in Hbl.
  split; [exact Ht|]. split; [exact Hp|]. simpl. split; lia.
Qed.

Lemma read_loop_grown batch_size n eof f :
  forall skip ts sb S,
  grown S (final (read_loop batch_size n eof f skip ts sb S)).
Proof.
  induction f as [|[filename line] f IH]; intros skip ts sb S.
  - apply grown_refl.
  - cbn [read_loop]. destruct (0 <? skip); [apply IH|].
    set (S1 := if decide (_current_file S = Some filename) then S
               else set_current_file (Some filename) S).
    assert (HS1 : grown S S1)
      by (unfold S1; case_decide; by repeat split).
    clearbody S1.
    destruct (parse_line S1 filename line) as [[parse cid]|]; [|exact HS1].
    destruct (parse_line S1 _ _) as [[? next_cid]|]; [|exact HS1].
    set (go := fun ts' sb' (s : t) =>
           if reaches (_sentences_seen s) n
           then committed (cache (to_cache s)) (returns (to_cache s))
           else read_loop batch_size n eof f skip ts' sb' s).
    assert (Hgo : forall ts' sb' S', grown S S' ->
               grown S (final (go ts' sb' S'))).
    { intros ts' sb' S' HS'. unfold go. eapply grown_trans; [exact HS'|].
      destruct (reaches (_sentences_seen S') n); [|apply IH].
      by repeat split. }
    destruct (negb (String.eqb next_cid cid)); [|by apply Hgo].
    match goal with
    | |- context [if ?c then _ else _] => destruct c
    end; [|by apply Hgo].
    destruct (flush_batch S1 _) as [S2|] eqn:Hflush; [|exact HS1].
    apply (Hgo [] [] S2). eapply grown_trans; [exact HS1|].
    by eapply flush_batch_grown.
Qed.

(** X2. A call of [read] never lowers a count or a position: every token
    count and pair count, [_lines_read] and [_sentences_seen] are at least
    what they were before the call, however the call ends. *)
Theorem read_only_grows
    (fs : string -> list string) (batch_size : Z) (self : CachedCorpus.t) :
  grown self (final (read fs batch_size self)).
Proof.
  unfold read. eapply grown_trans; [|apply read_loop_grown].
  destruct (_total self); by repeat split.
Qed.
End reader_invariants.

Section reader_limits.
Import CachedCorpus.

Lemma read_loop_within_limit batch_size n eof f :
  forall skip ts sb S,
  _sentences_seen S + Z.of_nat (length sb) < n ->
  _sentences_seen
    (final (read_loop batch_size (Finite n) eof f skip ts sb S)) <= n.
Proof.
  induction f as [|[filename line] f IH]; intros skip ts sb S Hlt.
  - simpl. lia.
  - cbn [read_loop]. destruct (0 <? skip); [by apply IH|].
    set (S1 := if decide (_current_file S = Some filename) then S
               else set_current_file (Some filename) S).
    assert (HS1 : _sentences_seen S1 = _sentences_seen S)
      by (unfold S1; by case_decide).
    clearbody S1.
    destruct (parse_line S1 filename line) as [[parse cid]|];
      [|simpl; lia].
    destruct (parse_line S1 _ _) as [[? next_cid]|]; [|simpl; lia].
    set (go := fun ts' sb' (s : t) =>
           if reaches (_sentences_seen s) (Finite n)
           then committed (cache (to_cache s)) (returns (to_cache s))
           else read_loop batch_size (Finite n) eof f skip ts' sb' s).
    assert (Hgo : forall ts' sb' S',
               _sentences_seen S' + Z.of_nat (length sb') <= n ->
               (_sentences_seen S' < n ->
                _sentences_seen S' + Z.of_nat (length sb') < n) ->
               _sentences_seen (final (go ts' sb' S')) <= n).
    { intros ts' sb' S' Hle Hlt'. unfold go, reaches.
      destruct (n <=? _sentences_seen S') eqn:Hn.
      - simpl. lia.
      - apply IH, Hlt'. apply Z.leb_gt in Hn. lia. }
    destruct (negb (String.eqb next_cid cid)); [|apply Hgo; lia].
    rewrite length_app. cbn [length].
    destruct (batch_size <=? _) eqn:Hbs; cbn [orb].
    + destruct (flush_batch S1 _) as [S2|] eqn:Hflush; [|simpl; lia].
      apply flush_batch_inv in Hflush as (_ & Hseen & _).
      rewrite length_app in Hseen. cbn [length] in Hseen.
      change (final (committed (cache S2) (go [] [] S2)))
        with (final (go [] [] S2)).
      apply Hgo; simpl; lia.
    + unfold reaches at 1.
      destruct (n <=? _) eqn:Hn.
      * destruct (flush_batch S1 _) as [S2|] eqn:Hflush; [|simpl; lia].
        apply flush_batch_inv in Hflush as (_ & Hseen & _).
        rewrite length_app in Hseen. cbn [length] in Hseen.
        change (final (committed (cache S2) (go [] [] S2)))
          with (final (go [] [] S2)).
        apply Hgo; simpl; lia.
      * apply Z.leb_gt in Hn.
        apply Hgo; rewrite length_app; cbn [length]; lia.
Qed.

(** X3. Started below its sentence limit, [read] never digests more than
    the limit: [_sentences_seen] is at most [n_sentences] when the call
    ends, however it ends. (Started at the limit it digests one sentence
    more.) *)
Theorem read_respects_limit
    (fs : string -> list string) (batch_size n : Z) (self : CachedCorpus.t) :
  _n_sentences self = Finite n ->
  _sentences_seen self < n ->
  _sentences_seen (final (read fs batch_size self)) <= n.
Proof.
  intros Hn Hlt. unfold read. rewrite Hn.
  apply read_loop_within_limit. simpl.
  destruct (_total self); simpl; lia.
Qed.

Lemma read_respects_limit_witness :
  _sentences_seen
    (final (read (single_file six_lines) 1
              (set_n_sentences (Finite 2) fresh_str))) <= 2.
Proof.
  apply (read_respects_limit (single_file six_lines) 1 2
           (set_n_sentences (Finite 2) fresh_str));
    [reflexivity|reflexivity].
Defined.

Lemma read_loop_short_input batch_size eof f :
  forall skip ts sb S,
  Z.of_nat (length sb) + Z.of_nat (length f) < batch_size ->
  commits (read_loop batch_size Infinite eof f skip ts sb S) = [].
Proof.
  induction f as [|[filename line] f IH]; intros skip ts sb S Hlt; [done|].
  cbn [read_loop]. cbn [length] in Hlt.
  destruct (0 <? skip); [apply IH; lia|].
  set (S1 := if decide (_current_file S = Some filename) then S
             else set_current_file (Some filename) S).
  clearbody S1.
  destruct (parse_line S1 filename line) as [[parse cid]|]; [|done].
  destruct (parse_line S1 _ _) as [[? next_cid]|]; [|done].
  cbn [reaches]. cbv iota. rewrite orb_false_r.
  destruct (negb (String.eqb next_cid cid)); [|apply IH; lia].
  rewrite length_app. cbn [length].
  replace (batch_size <=? _) with false
    by (symmetry; apply Z.leb_gt; lia).
  apply IH. rewrite length_app. cbn [length]. lia.
Qed.

(** X4. Without a sentence limit, a corpus of fewer lines than
    [batch_size] is read to no effect: the sentences of the last,
    incomplete batch are never digested, so nothing is committed and the
    tables and counters are those the call started with. *)
Theorem read_drops_incomplete_batch
    (fs : string -> list string) (batch_size : Z) (self : CachedCorpus.t) :
  _n_sentences self = Infinite ->
  Z.of_nat (length (fileinput fs (_files self))) < batch_size ->
  commits (read fs batch_size self) = []
  /\ _token_stats (final (read fs batch_size self)) = _token_stats self
  /\ _pair_stats (final (read fs batch_size self)) = _pair_stats self
  /\ _lines_read (final (read fs batch_size self)) = _lines_read self
  /\ _sentences_seen (final (read fs batch_size self))
     = _sentences_seen self.
Proof.
  intros Hn Hlt. unfold read. rewrite Hn.
  match goal with
  | |- context [read_loop ?bs ?n ?eof ?f ?skip [] [] ?s] =>
      pose proof (read_loop_short_input bs eof f skip [] [] s) as Hc;
      pose proof (read_loop_last_commit bs n eof f skip [] [] s) as Hacc;
      assert (HS0 : accounted None self s)
        by (destruct (_total self); by repeat split)
  end.
  rewrite Hc in Hacc |- * by (simpl; lia).
  unfold accounted in Hacc, HS0. cbn [last] in Hacc.
  destruct Hacc as (H1 & H2 & H3 & H4), HS0 as (H1' & H2' & H3' & H4').
  split; [done|]. rewrite H1, H2, H3, H4. by repeat split.
Qed.

Lemma read_drops_incomplete_batch_witness :
  _token_stats
    (final (read (single_file six_lines) 1024 fresh_str)) = ∅.
Proof.
  refine (proj1 (proj2 (read_drops_incomplete_batch
            (single_file six_lines) 1024 fresh_str _ _)));
    [reflexivity|vm_compute; reflexivity].
Defined.

Lemma read_loop_all_skipped batch_size n eof f :
  forall skip ts sb S,
  Z.of_nat (length f) <= skip ->
  read_loop batch_size n eof f skip ts sb S = returns S.
Proof.
  induction f as [|[filename line] f IH]; intros skip ts sb S Hle; [done|].
  cbn [read_loop]. cbn [length] in Hle.
  replace (0 <? skip) with true by (symmetry; apply Z.ltb_lt; lia).
  apply IH. lia.
Qed.

(** X5. A call of [read] on an object whose [_lines_read] covers the whole
    input skips every line: it returns without an exception, commits
    nothing and leaves tables and counters alone. *)
Theorem read_after_end_is_idle
    (fs : string -> list string) (batch_size : Z) (self : CachedCorpus.t) :
  Z.of_nat (length (fileinput fs (_files self))) <= _lines_read self ->
  raised (read fs batch_size self) = None
  /\ commits (read fs batch_size self) = []
  /\ _token_stats (final (read fs batch_size self)) = _token_stats self
  /\ _pair_stats (final (read fs batch_size self)) = _pair_stats self
  /\ _lines_read (final (read fs batch_size self)) = _lines_read self
  /\ _sentences_seen (final (read fs batch_size self))
     = _sentences_seen self.
Proof.
  intros Hle. unfold read. rewrite read_loop_all_skipped by exact Hle.
  simpl. destruct (_total self); by repeat split.
Qed.

Lemma read_after_end_is_idle_witness :
  raised (read (single_file six_lines) 1
            (set_lines_read 6 fresh_str)) = None.
Proof.
  refine (proj1 (read_after_end_is_idle (single_file six_lines) 1
            (set_lines_read 6 fresh_str) _)).
  vm_compute. discriminate.
Defined.
End reader_limits.

Section checkpoints.
Import CachedCorpus.

(** X6. A run of [read] that is interrupted after a checkpoint written
    before the sentence limit was reached loses nothing: a new object on
    the same files and cache, read to the end, raises what the
    uninterrupted run raises and ends with the same token and pair
    tables. *)
Theorem resumed_read_ends_alike
    (fs : string -> list string) (batch_size : Z) (listing : list string)
    (n_sentences : option Z) (fmt : list string) (sep : string)
    (lowercase : bool) (self : t) (k : nat) (c : store) :
  __init__ listing empty_store n_sentences fmt sep lowercase = Ok self ->
  commits (read fs batch_size self) !! k = Some c ->
  (forall s, c_sentences_seen c = Some s ->
             reaches s (_n_sentences self) = false) ->
  exists self',
    reopen self n_sentences c = Ok self'
    /\ raised (read fs batch_size self') = raised (read fs batch_size self)
    /\ _token_stats (final (read fs batch_size self'))
       = _token_stats (final (read fs batch_size self))
    /\ _pair_stats (final (read fs batch_size self'))
       = _pair_stats (final (read fs batch_size self)).
Proof. apply resume_before_limit_exact. Qed.

Lemma resumed_read_ends_alike_witness :
  let fs := single_file six_lines in
  let self := set_n_sentences (Finite 2) fresh_str in
  exists c self',
    __init__ ["corpus.txt"] empty_store (Some 2) str_fmt TAB true = Ok self
    /\ commits (read fs 1 self) !! 0%nat = Some c
    /\ reopen self (Some 2) c = Ok self'
    /\ _token_stats (final (read fs 1 self'))
       = _token_stats (final (read fs 1 self)).
Proof.
  intros fs self.
  assert (Hinit : __init__ ["corpus.txt"] empty_store (Some 2) str_fmt TAB
                    true = Ok self) by (vm_compute; reflexivity).
  assert (Hseen : c_sentences_seen <$> (commits (read fs 1 self) !! 0%nat)
                  = Some (Some 1)) by (vm_compute; reflexivity).
  destruct (commits (read fs 1 self) !! 0%nat) as [c|] eqn:Hk;
    [|discriminate].
  injection Hseen as Hseen.
  assert (Hc : forall s, c_sentences_seen c = Some s ->
                         reaches s (_n_sentences self) = false).
  { intros s Hs. rewrite Hs in Hseen. injection Hseen as ->. reflexivity. }
  destruct (resumed_read_ends_alike fs 1 ["corpus.txt"] (Some 2) str_fmt
              TAB true self 0 c Hinit Hk Hc) as (self' & Hre & _ & Ht & _).
  exists c, self'. by repeat split.
Defined.

(** X7. A checkpoint restores the reader: an object constructed over the
    cache that [to_cache] wrote has the counters, the tables, the current
    file, the total and the file list of the object that wrote it; the file
    list is the cached one, not the listing given to the constructor, and
    only the sentence limit comes from the new argument. *)
Theorem init_restores_checkpoint
    (listing : list string) (n_sentences : option Z) (fmt : list string)
    (sep : string) (lowercase : bool) (old : t) :
  exists self,
    __init__ listing (cache (to_cache old)) n_sentences fmt sep lowercase
    = Ok self
    /\ _sentences_seen self = _sentences_seen old
    /\ _lines_read self = _lines_read old
    /\ _current_file self = _current_file old
    /\ _token_stats self = _token_stats old
    /\ _pair_stats self = _pair_stats old
    /\ _files self = _files old
    /\ _total self = _total old
    /\ _n_sentences self
       = match n_sentences with
         | Some n => if n =? 0 then Infinite else Finite n
         | None => Infinite
         end
    /\ _fmt self = fmt /\ _sep self = sep /\ _lower self = lowercase.
Proof. eexists. split; [reflexivity|]. by repeat split. Qed.

Lemma load_cache_complete (self : t) :
  complete (cache self) = true -> is_Ok (load_cache false self) = true.
Proof.
  unfold complete, load_cache.
  destruct (cache self) as [a1 a2 a3 a4 a5 a6 a7 a8]. simpl.
  destruct a1; [|done]. destruct a2; [|done]. destruct a3; [|done].
  destruct a4; [|done]. destruct a5; [|done]. destruct a6; [|done].
  destruct a7; [|done]. by destruct a8.
Qed.

(** X8. [load_cache(allow_empty=False)] succeeds exactly on a cache that
    holds all eight attributes, and raises [KeyError] on any other; with
    [allow_empty=True] it never raises. *)
Theorem strict_load_needs_every_attribute (self : t) :
  (if complete (cache self) then is_Ok (load_cache false self) = true
   else load_cache false self = Raise KeyError)
  /\ is_Ok (load_cache true self) = true.
Proof.
  unfold complete, load_cache. split.
  - destruct (cache self) as [a1 a2 a3 a4 a5 a6 a7 a8]. simpl.
    destruct a1; [|done]. destruct a2; [|done]. destruct a3; [|done].
    destruct a4; [|done]. destruct a5; [|done]. destruct a6; [|done].
    destruct a7; [|done]. by destruct a8.
  - assert (Hstep : forall A (e : option A) set s,
              exists s', load_attr true e set s = Ok s')
      by (intros A [?|] set s; by eexists).
    generalize (cache self). intros c.
    repeat match goal with
           | |- context [load_attr true ?e ?set ?s ≫= _] =>
               destruct (Hstep _ e set s) as [? ->]; simpl
           end.
    match goal with
    | |- is_Ok (load_attr true ?e ?set ?s) = true =>
        by destruct (Hstep _ e set s) as [? ->]
    end.
Qed.

Lemma read_loop_commits_complete batch_size n eof f :
  forall skip ts sb S,
  Forall (fun c => complete c = true)
         (commits (read_loop batch_size n eof f skip ts sb S)).
Proof.
  induction f as [|[filename line] f IH]; intros skip ts sb S;
    [constructor|].
  cbn [read_loop]. destruct (0 <? skip); [apply IH|].
  set (S1 := if decide (_current_file S = Some filename) then S
             else set_current_file (Some filename) S).
  clearbody S1.
  destruct (parse_line S1 filename line) as [[parse cid]|]; [|constructor].
  destruct (parse_line S1 _ _) as [[? next_cid]|]; [|constructor].
  set (go := fun ts' sb' (s : t) =>
         if reaches (_sentences_seen s) n
         then committed (cache (to_cache s)) (returns (to_cache s))
         else read_loop batch_size n eof f skip ts' sb' s).
  assert (Hgo : forall ts' sb' S',
             Forall (fun c => complete c = true) (commits (go ts' sb' S'))).
  { intros ts' sb' S'. unfold go.
    destruct (reaches (_sentences_seen S') n); [|apply IH].
    by repeat constructor. }
  destruct (negb (String.eqb next_cid cid)); [|apply Hgo].
  match goal with
  | |- context [if ?c then _ else _] => destruct c
  end; [|apply Hgo].
  destruct (flush_batch S1 _) as [S2|] eqn:Hflush; [|constructor].
  apply flush_batch_inv in Hflush.
  destruct Hflush as (_ & _ & _ & _ & _ & _ & _ & _ & _ & Hcache).
  constructor; [by rewrite Hcache|apply Hgo].
Qed.

(** X9. Every checkpoint [read] commits can be loaded strictly: whatever
    object [o] it is loaded into, [load_cache(allow_empty=False)] finds all
    attributes. *)
Theorem committed_checkpoints_load
    (fs : string -> list string) (batch_size : Z) (self o : t)
    (c : store) :
  c ∈ commits (read fs batch_size self) ->
  is_Ok (load_cache false (set_cache c o)) = true.
Proof.
  intros Hin.
  pose proof (read_loop_commits_complete batch_size (_n_sentences self)
                (List.last (_files self) "")
                (fileinput fs (_files self)) (_lines_read self) [] []
                (set_current_file None
                   (match _total self with
                    | None =>
                        set_total
                          (Some (match _n_sentences self with
                                 | Infinite =>
                                     Z.of_nat
                                       (length (fileinput fs (_files self)))
                                 | Finite n => n
                                 end)) self
                    | Some _ => self
                    end))) as Hall.
  assert (Hc : complete c = true).
  { rewrite Forall_forall in Hall. apply Hall.
    unfold read in Hin. simpl in Hin.
    destruct (_total self); exact Hin. }
  by apply load_cache_complete.
Qed.

Lemma committed_checkpoints_load_witness :
  exists c,
    c ∈ commits (read (single_file six_lines) 1 fresh_str)
    /\ is_Ok (load_cache false (set_cache c fresh_str)) = true.
Proof.
  assert (Hsome : from_option (fun _ => true) false
            (commits (read (single_file six_lines) 1 fresh_str) !! 0%nat)
          = true) by (vm_compute; reflexivity).
  destruct (commits (read (single_file six_lines) 1 fresh_str) !! 0%nat)
    as [c|] eqn:Hk; [|discriminate].
  exists c.
  assert (Hin : c ∈ commits (read (single_file six_lines) 1 fresh_str))
    by (by eapply list_elem_of_lookup_2).
  split; [exact Hin|].
  exact (committed_checkpoints_load (single_file six_lines) 1 fresh_str
           fresh_str c Hin).
Defined.
End checkpoints.

Section edges.
Import CachedCorpus.

Lemma list_index_Ok {A} (xs : list A) (i : Z) :
  is_Ok (list_index xs i)
  = (- Z.of_nat (length xs) <=? i) && (i <? Z.of_nat (length xs)).
Proof.
  unfold list_index.
  destruct (i <? 0) eqn:Hneg.
  - apply Z.ltb_lt in Hneg.
    destruct ((0 <=? i + Z.of_nat (length xs))
              && (i + Z.of_nat (length xs) <? Z.of_nat (length xs))) eqn:Hr.
    + apply andb_prop in Hr as [H0 H1]. apply Z.leb_le in H0.
      destruct (nth_error xs _) eqn:Hn.
      * simpl. symmetry. apply andb_true_intro.
        split; [apply Z.leb_le|apply Z.ltb_lt]; lia.
      * apply nth_error_None in Hn. lia.
    + simpl. symmetry. apply andb_false_iff.
      apply andb_false_iff in Hr as [Hr|Hr].
      * left. apply Z.leb_gt in Hr. apply Z.leb_gt. lia.
      * apply Z.ltb_ge in Hr. lia.
  - apply Z.ltb_ge in Hneg.
    replace (0 <=? i) with true by (symmetry; by apply Z.leb_le).
    replace (- Z.of_nat (length xs) <=? i) with true
      by (symmetry; apply Z.leb_le; lia).
    simpl. destruct (i <? Z.of_nat (length xs)) eqn:Hr; [|done].
    apply Z.ltb_lt in Hr.
    destruct (nth_error xs _) eqn:Hn; [done|].
    apply nth_error_None in Hn. lia.
Qed.

Lemma list_index_exn {A} (xs : list A) (i : Z) e :
  list_index xs i = Raise e -> e = IndexError.
Proof.
  unfold list_index.
  destruct (_ && _); [destruct (nth_error _ _)|]; congruence.
Qed.

Lemma extract_edges_go_spec (words ws : sentence) :
  match extract_edges_go words ws with
  | Ok es =>
      forallb (head_resolves (length words)) ws = true
      /\ es.*1 = map Word_of (List.filter non_root ws)
  | Raise e =>
      forallb (head_resolves (length words)) ws = false
      /\ (e = TypeError \/ e = IndexError)
  end.
Proof.
  induction ws as [|w ws IH]; [done|].
  cbn [extract_edges_go forallb List.filter].
  assert (Hstep : forall h, h <> 0 -> head w = Some (VInt h) ->
    match
      (p ← list_index words (h - 1);
       rest ← extract_edges_go words ws;
       Ok ((Word_of w, Word_of p) :: rest) : result (list Edge))
    with
    | Ok es =>
        head_resolves (length words) w
        && forallb (head_resolves (length words)) ws = true
        /\ es.*1 = map Word_of (if non_root w
                                then w :: List.filter non_root ws
                                else List.filter non_root ws)
    | Raise e =>
        head_resolves (length words) w
        && forallb (head_resolves (length words)) ws = false
        /\ (e = TypeError \/ e = IndexError)
    end).
  { intros h Hh Hw.
    assert (Hidx : is_Ok (list_index words (h - 1))
                   = head_resolves (length words) w).
    { unfold head_resolves. rewrite Hw, list_index_Ok.
      replace (h =? 0) with false by (symmetry; by apply Z.eqb_neq).
      simpl. f_equal; apply eq_true_iff_eq.
      - rewrite !Z.leb_le. lia.
      - rewrite Z.ltb_lt, Z.leb_le. lia. }
    assert (Hnr : non_root w = true)
      by (unfold non_root; rewrite Hw; by destruct h).
    rewrite <- Hidx, Hnr.
    destruct (list_index words (h - 1)) as [p|e] eqn:Hp; simpl.
    - destruct (extract_edges_go words ws) as [es|e]; simpl.
      + destruct IH as [-> IHes]. split; [done|].
        change (Word_of w :: es.*1 = Word_of w :: map Word_of (List.filter non_root ws)).
        by rewrite IHes.
      + destruct IH as [-> ?]. by split.
    - split; [done|]. right. by eapply list_index_exn. }
  destruct (head w) as [[h|?]|] eqn:Hw.
  - destruct h as [|h|h].
    + unfold head_resolves, non_root. rewrite Hw. simpl. exact IH.
    + by apply Hstep.
    + by apply Hstep.
  - unfold head_resolves. rewrite Hw. simpl. auto.
  - unfold head_resolves. rewrite Hw. simpl. auto.
Qed.

(** X10. [_extract_edges_from_sentence] returns exactly when every word of
    the sentence has an integer parent index that is 0 or lies between
    [1 - len] and [len]: a negative index is accepted and counts from the
    end of the sentence. It then gives one edge per non-root word, in the
    order of the sentence. Otherwise it raises [TypeError] (no integer
    index) or [IndexError]. *)
Theorem extract_edges_spec (s : sentence) :
  match _extract_edges_from_sentence s with
  | Ok es =>
      forallb (head_resolves (length s)) s = true
      /\ es.*1 = map Word_of (List.filter non_root s)
  | Raise e =>
      forallb (head_resolves (length s)) s = false
      /\ (e = TypeError \/ e = IndexError)
  end.
Proof. apply extract_edges_go_spec. Qed.

Lemma Parallel_map {A B} (f : A -> result B) xs ys :
  Parallel f xs = Ok ys -> Forall2 (fun x y => f x = Ok y) xs ys.
Proof.
  revert ys. induction xs as [|x xs IH]; simpl; intros ys.
  - intros [= <-]. constructor.
  - destruct (f x) as [y|] eqn:Hy; simpl; [|done].
    destruct (Parallel f xs) as [zs|]; simpl; [|done].
    intros [= <-]. constructor; [done|by apply IH].
Qed.

Lemma occurrences_app `{EqDecision A} (x : A) l1 l2 :
  occurrences x (l1 ++ l2) = occurrences x l1 + occurrences x l2.
Proof. unfold occurrences. rewrite filter_app, length_app. lia. Qed.

(** X11. A batch is digested into exact counts: after
    [digest_sentencebatch] the count of every (text, category) has grown by
    the number of words of the batch that carry it, and the count of every
    pair by the number of edges [_extract_edges_from_sentence] finds for it
    in the sentences of the batch. *)
Theorem digest_sentencebatch_counts
    (self self' : t) (sb : list sentence) :
  digest_sentencebatch self sb = Ok self' ->
  exists edges,
    Parallel _extract_edges_from_sentence sb = Ok edges
    /\ (forall w, Counter.count (_token_stats self') w
                  = Counter.count (_token_stats self) w
                    + occurrences w (map Word_of (concat sb)))
    /\ (forall e, Counter.count (_pair_stats self') e
                  = Counter.count (_pair_stats self) e
                    + occurrences e (concat edges)).
Proof.
  unfold digest_sentencebatch.
  destruct (Parallel _digest_sentence sb) as [stats|] eqn:Hstats; simpl;
    [|done].
  intros [= <-]. apply Parallel_map in Hstats.
  assert (Hsum : exists edges,
             Parallel _extract_edges_from_sentence sb = Ok edges
             /\ (forall w, sum_counts w (stats.*1)
                           = occurrences w (map Word_of (concat sb)))
             /\ (forall e, sum_counts e (stats.*2)
                           = occurrences e (concat edges))).
  { induction Hstats as [|s st sb stats Hs _ (edges & Hedges & Ht & Hp)].
    - exists []. by repeat split.
    - unfold _digest_sentence in Hs.
      destruct (_extract_edges_from_sentence s) as [es|] eqn:Hes; simpl in Hs;
        [|done].
      injection Hs as <-. exists (es :: edges). simpl.
      rewrite Hes, Hedges. simpl. split; [done|].
      split; intros k; unfold sum_counts; rewrite fmap_cons;
        cbn [map foldr fst snd].
      + rewrite map_app, occurrences_app, count_of_list.
        unfold sum_counts in Ht. rewrite Ht. done.
      + rewrite occurrences_app, count_of_list.
        unfold sum_counts in Hp. rewrite Hp. done. }
  destruct Hsum as (edges & Hedges & Ht & Hp).
  exists edges. split; [done|].
  split; intros k; [rewrite count_merge_tokens, Ht|
                    rewrite count_merge_pairs, Hp]; done.
Qed.

Lemma digest_sentencebatch_counts_witness :
  exists self',
    digest_sentencebatch fresh [s_red_apple] = Ok self'
    /\ Counter.count (_token_stats self')
         (Some (VStr "apple"), Some (VStr "NOUN")) = 1.
Proof.
  assert (Hok : is_Ok (digest_sentencebatch fresh [s_red_apple]) = true)
    by (vm_compute; reflexivity).
  destruct (digest_sentencebatch fresh [s_red_apple]) as [self'|] eqn:Hd;
    [|discriminate].
  exists self'. split; [done|].
  destruct (digest_sentencebatch_counts fresh self' [s_red_apple] Hd)
    as (edges & _ & Ht & _).
  rewrite Ht. vm_compute. reflexivity.
Defined.
End edges.

Section stream_reader.
Import StreamCorpus.

Lemma count_words_counts lowercase :
  forall ws stats stats' sent,
  count_words lowercase stats ws = (stats', Ok sent) ->
  forall k, Counter.count stats' k
            = Counter.count stats k + occurrences k (map word_key sent).
Proof.
  induction ws as [|w ws IH]; intros stats stats' sent; simpl.
  - intros [= <- <-] k. unfold occurrences. simpl. lia.
  - destruct (if lowercase then _ else _) as [w'|]; [|done].
    destruct (count_words lowercase _ ws) as [st r] eqn:Hrest. simpl.
    destruct r as [sent'|]; simpl; [|done].
    intros [= <- <-] k. rewrite (IH _ _ _ Hrest k), count_add.
    unfold occurrences. cbn [map]. fold (word_key w').
    destruct (decide (word_key w' = k)) as [Hk|Hk].
    + rewrite filter_cons_True by done. cbn [length]. lia.
    + rewrite filter_cons_False by done. lia.
Qed.

(** The loop of [read] handles a list of sentences, one after the other:
    each is counted, stored when [store] is set and yielded when
    [return_sentences] is. *)
Lemma stream_loop_account rs n eof f :
  forall ts S,
  exists handled : list sentence,
  let r := read_loop rs n eof f ts S in
  _store (final r) = _store S
  /\ _sentences_seen (final r)
     = _sentences_seen S + Z.of_nat (length handled)
  /\ yielded r = (if rs then handled else [])
  /\ _parsed_sentences (final r)
     = (if _store S then (_parsed_sentences S ++ handled)%list
        else _parsed_sentences S)
  /\ (raised r = None ->
      forall k, Counter.count (_upos_token_stats (final r)) k
                = Counter.count (_upos_token_stats S) k
                  + occurrences k (map word_key (concat handled))).
Proof.
  assert (Hnone : forall S' e,
    _store S' = _store S' ->
    exists handled : list sentence,
    let r := mk_run [] S' e in
    _store (final r) = _store S'
    /\ _sentences_seen (final r)
       = _sentences_seen S' + Z.of_nat (length handled)
    /\ yielded r = (if rs then handled else [])
    /\ _parsed_sentences (final r)
       = (if _store S' then (_parsed_sentences S' ++ handled)%list
          else _parsed_sentences S')
    /\ (raised r = None ->
        forall k, Counter.count (_upos_token_stats (final r)) k
                  = Counter.count (_upos_token_stats S') k
                    + occurrences k (map word_key (concat handled)))).
  { intros S' e _. exists []. simpl. rewrite app_nil_r.
    split; [done|]. split; [lia|]. split; [by destruct rs|].
    split; [by destruct (_store S')|].
    intros _ k. unfold occurrences. simpl. lia. }
  induction f as [|[filename line] f IH]; intros ts S.
  - by apply Hnone.
  - cbn [read_loop]. destruct (String.eqb (strip line) ""); [apply IH|].
    destruct (parse_line S filename line) as [[parse cid]|];
      [|by apply Hnone].
    destruct (parse_line S _ _) as [[? next_cid]|]; [|by apply Hnone].
    destruct (negb (String.eqb next_cid cid)).
    + destruct (count_words _ _ _) as [stats [sent|e]] eqn:Hcw.
      2: { exists []. simpl. rewrite app_nil_r.
           split; [done|]. split; [lia|]. split; [by destruct rs|].
           split; [by destruct (_store S)|]. done. }
      pose proof (count_words_counts _ _ _ _ _ Hcw) as Hcount.
      set (S2 := set_stats stats (_sentences_seen S + 1) _ S).
      assert (Hrest : exists rest : list sentence,
        let r := if reaches (_sentences_seen S2) n then mk_run [] S2 None
                 else read_loop rs n eof f [] S2 in
        _store (final r) = _store S2
        /\ _sentences_seen (final r)
           = _sentences_seen S2 + Z.of_nat (length rest)
        /\ yielded r = (if rs then rest else [])
        /\ _parsed_sentences (final r)
           = (if _store S2 then (_parsed_sentences S2 ++ rest)%list
              else _parsed_sentences S2)
        /\ (raised r = None ->
            forall k, Counter.count (_upos_token_stats (final r)) k
                      = Counter.count (_upos_token_stats S2) k
                        + occurrences k (map word_key (concat rest)))).
      { destruct (reaches (_sentences_seen S2) n); [by apply Hnone|apply IH]. }
      destruct Hrest as (rest & Hst & Hseen & Hy & Hps & Hstats).
      exists (sent :: rest).
      assert (Hfinal : forall r0 : run,
        final (if rs then yields sent r0 else r0) = final r0
        /\ raised (if rs then yields sent r0 else r0) = raised r0
        /\ yielded (if rs then yields sent r0 else r0)
           = if rs then sent :: yielded r0 else yielded r0)
        by (intros r0; by destruct rs).
      cbv zeta in Hst, Hseen, Hy, Hps, Hstats |- *.
      match goal with
      | |- context [final (if rs then yields sent ?r0 else ?r0)] =>
          destruct (Hfinal r0) as (-> & -> & ->)
      end.
      split; [exact Hst|]. split; [rewrite Hseen; simpl; lia|].
      split; [rewrite Hy; by destruct rs|]. split.
      * rewrite Hps. simpl. destruct (_store S); [|done].
        by rewrite <- app_assoc.
      * intros Hr k. rewrite (Hstats Hr k). simpl.
        rewrite Hcount, map_app, occurrences_app. lia.
    + destruct (reaches (_sentences_seen S) n); [by apply Hnone|apply IH].
Qed.

Lemma stream_loop_inv n eof f :
  forall ts S,
  let r := read_loop true n eof f ts S in
  _store (final r) = _store S
  /\ _sentences_seen (final r)
     = _sentences_seen S + Z.of_nat (length (yielded r))
  /\ (_store S = true ->
      _parsed_sentences (final r)
      = (_parsed_sentences S ++ yielded r)%list)
  /\ (raised r = None ->
      forall k, Counter.count (_upos_token_stats (final r)) k
                = Counter.count (_upos_token_stats S) k
                  + occurrences k (map word_key (concat (yielded r)))).
Proof.
  intros ts S.
  destruct (stream_loop_account true n eof f ts S)
    as (handled & Hst & Hseen & Hy & Hps & Hstats).
  cbv zeta in Hst, Hseen, Hy, Hps, Hstats |- *. rewrite Hy.
  split; [exact Hst|]. split; [exact Hseen|]. split; [|exact Hstats].
  intros Hstore. by rewrite Hps, Hstore.
Qed.

Lemma stream_loop_limit rs n eof f :
  forall ts S,
  _sentences_seen S < n ->
  _sentences_seen
    (final (read_loop rs (CachedCorpus.Finite n) eof f ts S)) <= n.
Proof.
  induction f as [|[filename line] f IH]; intros ts S Hlt.
  - simpl. lia.
  - cbn [read_loop]. destruct (String.eqb (strip line) ""); [by apply IH|].
    destruct (parse_line S filename line) as [[parse cid]|]; [|simpl; lia].
    destruct (parse_line S _ _) as [[? next_cid]|]; [|simpl; lia].
    destruct (negb (String.eqb next_cid cid)).
    + destruct (count_words _ _ _) as [stats [sent|e]]; [|simpl; lia].
      set (S2 := set_stats stats (_sentences_seen S + 1) _ S).
      assert (Hgo : _sentences_seen
                (final (if reaches (_sentences_seen S2)
                             (CachedCorpus.Finite n)
                        then mk_run [] S2 None
                        else read_loop rs (CachedCorpus.Finite n) eof f
                               [] S2)) <= n).
      { unfold reaches, CachedCorpus.reaches.
        destruct (n <=? _sentences_seen S2) eqn:Hn.
        - simpl. lia.
        - apply IH. by apply Z.leb_gt in Hn. }
      by destruct rs.
    + unfold reaches, CachedCorpus.reaches.
      destruct (n <=? _sentences_seen S) eqn:Hn; [simpl; lia|by apply IH].
Qed.

(** X12. The generator [read] of the older reader keeps an exact account,
    whatever [return_sentences] is: when it does not replay stored
    sentences, it handles a list of sentences whose number is
    [_sentences_seen] afterwards; it yields exactly these sentences when
    [return_sentences] is true and nothing when it is false; with
    [store=True] the stored sentences are exactly these, and nothing is
    stored otherwise; a positive limit [n_sentences] is never exceeded; and,
    if the iteration ends without an exception, every (category, text)
    count is the number of words of these sentences that carry it. *)
Theorem stream_read_account
    (fs : string -> list string) (return_sentences : bool)
    (self : StreamCorpus.t) :
  _store self && (0 <? Z.of_nat (length (_parsed_sentences self))) = false ->
  exists handled : list sentence,
  let r := read fs return_sentences self in
  _sentences_seen (final r) = Z.of_nat (length handled)
  /\ yielded r = (if return_sentences then handled else [])
  /\ _parsed_sentences (final r) = (if _store self then handled else [])
  /\ (forall n, _n_sentences self = CachedCorpus.Finite n -> 0 < n ->
                _sentences_seen (final r) <= n)
  /\ (raised r = None ->
      forall k, Counter.count (_upos_token_stats (final r)) k
                = occurrences k (map word_key (concat handled))).
Proof.
  intros Hfresh. unfold read. rewrite Hfresh. cbn [_n_sentences _files].
  set (S0 := StreamCorpus.mk _ _ _ _ _ _ _ _ _ _ _).
  set (eof := List.last (_files self) "").
  set (f := CachedCorpus.fileinput fs (_files self)).
  destruct (stream_loop_account return_sentences (_n_sentences self) eof f
              [] S0) as (handled & _ & Hseen & Hy & Hps & Hstats).
  exists handled. cbv zeta in Hseen, Hy, Hps, Hstats |- *.
  change (_sentences_seen S0) with 0 in Hseen.
  change (_parsed_sentences S0) with (@nil sentence) in Hps.
  change (_store S0) with (_store self) in Hps.
  change (_upos_token_stats S0) with (∅ : gmap (field * field) Z) in Hstats.
  split; [lia|]. split; [exact Hy|]. split; [exact Hps|]. split.
  - intros n Hn Hpos. rewrite Hn. by apply stream_loop_limit.
  - intros Hr k. rewrite (Hstats Hr k). unfold Counter.count.
    rewrite lookup_empty. simpl. lia.
Qed.

Lemma stream_read_account_witness :
  exists handled : list sentence,
    _sentences_seen (final (read (single_file six_lines) false storing))
    = Z.of_nat (length handled)
    /\ yielded (read (single_file six_lines) false storing) = []
    /\ _parsed_sentences (final (read (single_file six_lines) false storing))
       = handled.
Proof.
  destruct (stream_read_account (single_file six_lines) false storing
              eq_refl) as (handled & Hseen & Hy & Hps & _).
  exists handled. split; [exact Hseen|]. split; [exact Hy|exact Hps].
Defined.

(** X13. With [store=True], once a first iteration of [read] has yielded
    anything, every later [read] only replays the stored sentences: it
    yields exactly what the first one yielded, whatever the files now
    contain and whatever [return_sentences] says, and it changes nothing,
    even if the first iteration was ended by an exception. *)
Theorem stream_replay
    (fs fs' : string -> list string) (return_sentences : bool)
    (self : StreamCorpus.t) :
  _store self = true ->
  _parsed_sentences self = [] ->
  yielded (read fs true self) <> [] ->
  read fs' return_sentences (final (read fs true self))
  = mk_run (yielded (read fs true self)) (final (read fs true self)) None.
Proof.
  intros Hstore Hnone Hsome.
  assert (Hfresh : _store self
                   && (0 <? Z.of_nat (length (_parsed_sentences self)))
                   = false) by (by rewrite Hnone, andb_false_r).
  assert (Hinv : _store (final (read fs true self)) = true
                 /\ _parsed_sentences (final (read fs true self))
                    = yielded (read fs true self)).
  { unfold read. rewrite Hfresh.
    match goal with
    | |- context [read_loop true ?n ?eof ?f [] ?S] =>
        destruct (stream_loop_inv n eof f [] S) as (-> & _ & Hps & _)
    end.
    split; [exact Hstore|]. by rewrite (Hps Hstore). }
  destruct Hinv as [Hst Hps].
  unfold read at 1. rewrite Hst, Hps.
  destruct (yielded (read fs true self)); [done|]. reflexivity.
Qed.

Lemma stream_replay_witness :
  yielded (read (fun _ => []) false
             (final (read (single_file six_lines) true storing)))
  = yielded (read (single_file six_lines) true storing).
Proof.
  refine (f_equal yielded
            (stream_replay (single_file six_lines) (fun _ => []) false
               storing _ _ _)).
  - reflexivity.
  - reflexivity.
  - assert (H : length (yielded (read (single_file six_lines) true storing))
                = 2%nat) by (vm_compute; reflexivity).
    intros Hnil. rewrite Hnil in H. discriminate.
Defined.
End stream_reader.

Section frame_columns.
Implicit Types (df : DataFrame) (key : string) (rs : list (list cell)).

Lemma nth_error_lookup {A} (l : list A) (i : nat) : nth_error l i = l !! i.
Proof. revert i. induction l; intros [|i]; simpl; auto. Qed.

Lemma index_of_lt key cols i :
  index_of key cols = Some i -> (i < length cols)%nat.
Proof.
  revert i. induction cols as [|c cols IH]; intros i; simpl; [done|].
  destruct (String.eqb c key).
  - intros [= <-]. lia.
  - destruct (index_of key cols) as [j|]; simpl; [|done].
    intros [= <-]. specialize (IH j eq_refl). lia.
Qed.

Lemma index_of_inj key key' cols i :
  index_of key cols = Some i -> index_of key' cols = Some i -> key = key'.
Proof.
  revert i. induction cols as [|c cols IH]; intros i; simpl; [done|].
  destruct (String.eqb c key) eqn:Hk; destruct (String.eqb c key') eqn:Hk'.
  - apply String.eqb_eq in Hk, Hk'. congruence.
  - destruct (index_of key' cols); simpl; [|done]. by intros [= <-].
  - destruct (index_of key cols); simpl; [|done]. by intros [= <-].
  - destruct (index_of key cols) as [j|]; simpl; [|done].
    destruct (index_of key' cols) as [j'|]; simpl; [|done].
    intros [= <-] [= ->]. by apply (IH j).
Qed.

Lemma index_of_app_new key cols :
  index_of key cols = None ->
  index_of key (cols ++ [key]) = Some (length cols).
Proof.
  induction cols as [|c cols IH]; simpl.
  - by rewrite String.eqb_refl.
  - destruct (String.eqb c key); [done|].
    destruct (index_of key cols); simpl; [done|].
    intros _. by rewrite IH.
Qed.

Lemma index_of_app_old key cols extra i :
  index_of key cols = Some i -> index_of key (cols ++ extra) = Some i.
Proof.
  revert i. induction cols as [|c cols IH]; intros i; simpl; [done|].
  destruct (String.eqb c key); [done|].
  destruct (index_of key cols) as [j|]; simpl; [|done].
  intros [= <-]. by rewrite (IH j).
Qed.

Lemma set_column_rectangular df key vs df' :
  rectangular df -> set_column df key vs = Ok df' -> rectangular df'.
Proof.
  intros Hrect [Hl ->]%set_column_inv. unfold rectangular in *.
  destruct (index_of key (columns df)) as [i|]; simpl.
  - revert vs Hl. induction Hrect as [|r rs Hr _ IH]; intros [|v vs] Hl;
      simpl in *; try done; constructor.
    + by rewrite length_insert.
    + apply IH. lia.
  - revert vs Hl. induction Hrect as [|r rs Hr _ IH]; intros [|v vs] Hl;
      simpl in *; try done; constructor.
    + rewrite !length_app. simpl. lia.
    + apply IH. lia.
Qed.

(** Reading back the column that was just assigned gives the assigned
    values. *)
Lemma column_set_column df key vs df' :
  rectangular df -> set_column df key vs = Ok df' -> column df' key = Ok vs.
Proof.
  intros Hrect Hset. unfold column.
  rewrite (set_column_has _ _ _ _ Hset).
  apply set_column_inv in Hset as [Hl ->]. unfold rectangular in Hrect.
  destruct (index_of key (columns df)) as [i|] eqn:Hi; simpl.
  - pose proof (index_of_lt _ _ _ Hi) as Hlt.
    revert vs Hl. induction Hrect as [|r rs Hr _ IH]; intros [|v vs] Hl;
      simpl in *; try done.
    unfold row_get. rewrite Hi, nth_error_lookup.
    rewrite list_lookup_insert_eq by lia. simpl.
    rewrite IH by lia. done.
  - pose proof (index_of_app_new _ _ Hi) as Hi'.
    revert vs Hl. induction Hrect as [|r rs Hr _ IH]; intros [|v vs] Hl;
      simpl in *; try done.
    unfold row_get. rewrite Hi', nth_error_lookup, <- Hr.
    rewrite list_lookup_middle by done. simpl.
    rewrite IH by lia. done.
Qed.

(** Assigning one column leaves the others as they were. *)
Lemma column_set_column_other df key vs df' key' :
  rectangular df -> set_column df key vs = Ok df' -> key <> key' ->
  column df' key' = column df key'.
Proof.
  intros Hrect Hset Hne. unfold column.
  rewrite (set_column_has_other _ _ _ _ _ Hset Hne).
  destruct (has_column df key') eqn:Hhas; [|done].
  apply has_column_index_of in Hhas as [j Hj].
  pose proof (index_of_lt _ _ _ Hj) as Hjlt.
  apply set_column_inv in Hset as [Hl ->]. unfold rectangular in Hrect.
  destruct (index_of key (columns df)) as [i|] eqn:Hi; simpl.
  - assert (i <> j) by (intros ->; apply Hne; by eapply index_of_inj).
    revert vs Hl. induction Hrect as [|r rs Hr _ IH]; intros [|v vs] Hl;
      simpl in *; try done.
    unfold row_get. rewrite Hj, !nth_error_lookup.
    rewrite list_lookup_insert_ne by done.
    destruct (r !! j); simpl; [|done]. by rewrite IH by lia.
  - pose proof (index_of_app_old _ _ [key] _ Hj) as Hj'.
    revert vs Hl. induction Hrect as [|r rs Hr _ IH]; intros [|v vs] Hl;
      simpl in *; try done.
    unfold row_get. rewrite Hj, Hj', !nth_error_lookup.
    rewrite lookup_app_l by lia.
    destruct (r !! j); simpl; [|done]. by rewrite IH by lia.
Qed.

Lemma set_column_rows df key vs df' :
  set_column df key vs = Ok df' -> length (rows df') = length (rows df).
Proof.
  intros [Hl ->]%set_column_inv.
  destruct (index_of key (columns df)); simpl; by apply length_zip_rows.
Qed.

Lemma column_length df key cs :
  column df key = Ok cs -> length cs = length (rows df).
Proof.
  unfold column. destruct (has_column df key); [|done].
  generalize (columns df). intros cols. revert cs.
  induction (rows df) as [|r rs IH]; intros cs; simpl.
  - by intros [= <-].
  - destruct (row_get cols r key); simpl; [|done].
    destruct (column_go cols key rs); simpl; [|done].
    intros [= <-]. simpl. f_equal. by apply IH.
Qed.
End frame_columns.

Section crunch_errors.
Import CompositionAnalysis.

Lemma filter_nil_existsb {A} (P : A -> Prop) `{forall x, Decision (P x)}
    (b : A -> bool) (l : list A) :
  (forall x, b x = true <-> P x) ->
  filter P l = [] <-> existsb b l = false.
Proof.
  intros Hb. induction l as [|x l IH]; simpl; [done|].
  destruct (decide (P x)) as [Hx|Hx].
  - rewrite filter_cons_True by done.
    apply Hb in Hx. rewrite Hx. simpl. split; done.
  - rewrite filter_cons_False by done.
    destruct (b x) eqn:Hbx; [by apply Hb in Hbx|]. simpl. exact IH.
Qed.

Lemma token_records_nil upos items :
  token_records upos items = [] <-> has_category upos items = false.
Proof.
  unfold token_records, has_category.
  rewrite <- (filter_nil_existsb (fun it => it.1.2 = upos)
                (fun it => String.eqb it.1.2 upos)).
  - split; [apply map_eq_nil|by intros ->].
  - intros it. apply String.eqb_eq.
Qed.

Lemma assoc_set_not_nil {K V} `{EqDecision K} (d : list (K * V)) k v :
  assoc_set d k v <> [].
Proof. destruct d as [|[k' v'] d]; simpl; [done|]. by case_decide. Qed.

Lemma assoc_of_items_nil {K V} `{EqDecision K} (items : list (K * V)) :
  assoc_of_items items = [] <-> items = [].
Proof.
  unfold assoc_of_items. split; [|by intros ->].
  destruct items as [|it items]; [done|]. simpl.
  assert (Hne : forall l (d : list (K * V)), d <> [] ->
            foldl (fun d kv => assoc_set d kv.1 kv.2) d l <> []).
  { induction l as [|x l IH]; intros d Hd; simpl; [done|].
    apply IH, assoc_set_not_nil. }
  intros Hnil. by apply Hne in Hnil.
Qed.

Lemma select_pairs_nil cu pu items :
  pair_records (select_pairs cu pu items) = [] <->
  has_pair cu pu items = false.
Proof.
  unfold pair_records, select_pairs, has_pair.
  rewrite <- (filter_nil_existsb
                (fun it => it.1.1.2 = cu /\ it.1.2.2 = pu)
                (fun it => String.eqb it.1.1.2 cu && String.eqb it.1.2.2 pu)).
  - split.
    + intros Hnil. apply map_eq_nil in Hnil.
      apply (proj1 (assoc_of_items_nil _)) in Hnil.
      by apply map_eq_nil in Hnil.
    + by intros ->.
  - intros it. rewrite andb_true_iff, !String.eqb_eq. done.
Qed.

Lemma sort_of_records_nil cols :
  sort_values_desc (of_records cols []) "freq" = Raise KeyError.
Proof. done. Qed.

Lemma sort_of_records_Ok cols recs :
  recs <> [] -> has_column (Frame.mk cols []) "freq" = true ->
  sort_values_desc (of_records cols recs) "freq"
  = Ok (Frame.mk cols (foldr (insert_desc (int_key cols "freq")) [] recs)).
Proof.
  intros Hne Hhas. destruct recs as [|r recs]; [done|].
  unfold sort_values_desc, of_records. unfold has_column in *. simpl in *.
  by rewrite Hhas.
Qed.

(** X14. The constructor's table building, [_crunch_corpus_stats], returns
    exactly when the corpus has a token of the child category, a token of
    the parent category, a pair of these categories and a skip pair of
    these categories; if any of the four selections is empty it raises
    [KeyError] (the frame made from no records has no [freq] column to sort
    by). *)
Theorem crunch_needs_every_selection
    (cu pu : string) (corpus : corpus_tables) :
  is_Ok (_crunch_corpus_stats cu pu corpus)
  = has_category cu (corpus_token_stats corpus)
    && has_category pu (corpus_token_stats corpus)
    && has_pair cu pu (corpus_pair_stats corpus)
    && has_pair cu pu (corpus_skip_pair_stats corpus)
  /\ (forall e, _crunch_corpus_stats cu pu corpus = Raise e -> e = KeyError).
Proof.
  unfold _crunch_corpus_stats.
  assert (Hsort : forall cols recs (flag : bool),
            (recs = [] <-> flag = false) ->
            has_column (Frame.mk cols []) "freq" = true ->
            (flag = false
             /\ sort_values_desc (of_records cols recs) "freq"
                = Raise KeyError)
            \/ (flag = true
                /\ exists df, sort_values_desc (of_records cols recs) "freq"
                              = Ok df)).
  { intros cols recs flag Hflag Hhas. destruct flag.
    - right. split; [done|]. eexists. apply sort_of_records_Ok; [|done].
      intros Hnil. by apply Hflag in Hnil.
    - left. split; [done|].
      rewrite (proj2 Hflag eq_refl). apply sort_of_records_nil. }
  destruct (Hsort ["token"; "upos"; "freq"]
              (token_records cu (corpus_token_stats corpus))
              _ (token_records_nil _ _) eq_refl)
    as [[-> ->]|[-> [cdf ->]]]; [by split; [|intros e [= <-]]|].
  destruct (Hsort ["token"; "upos"; "freq"]
              (token_records pu (corpus_token_stats corpus))
              _ (token_records_nil _ _) eq_refl)
    as [[-> ->]|[-> [pdf ->]]]; [by split; [|intros e [= <-]]|].
  destruct (Hsort ["child"; "parent"; "pair"; "freq"]
              (pair_records (select_pairs cu pu (corpus_pair_stats corpus)))
              _ (select_pairs_nil _ _ _) eq_refl)
    as [[-> ->]|[-> [prdf ->]]]; [by split; [|intros e [= <-]]|].
  destruct (Hsort ["child"; "parent"; "pair"; "freq"]
              (pair_records
                 (select_pairs cu pu (corpus_skip_pair_stats corpus)))
              _ (select_pairs_nil _ _ _) eq_refl)
    as [[-> ->]|[-> [sdf ->]]]; [by split; [|intros e [= <-]]|].
  by split.
Qed.
End crunch_errors.

Section crunch_order.
Import CompositionAnalysis.

Lemma insert_desc_perm k r rs : insert_desc k r rs ≡ₚ r :: rs.
Proof.
  induction rs as [|r' rs IH]; simpl; [done|].
  destruct (k r' <=? k r); [done|].
  rewrite IH. apply perm_swap.
Qed.

Lemma sort_rows_perm k rs : foldr (insert_desc k) [] rs ≡ₚ rs.
Proof.
  induction rs as [|r rs IH]; simpl; [done|].
  by rewrite insert_desc_perm, IH.
Qed.

Lemma insert_desc_sorted (k : list cell -> Z) r rs :
  descending (map k rs) -> descending (map k (insert_desc k r rs)).
Proof.
  induction rs as [|r' rs IH]; simpl.
  - by repeat split.
  - intros [Hall Hs]. destruct (k r' <=? k r) eqn:Hle.
    + apply Z.leb_le in Hle. simpl. split; [|by split].
      constructor; [done|].
      eapply Forall_impl; [exact Hall|]. simpl. intros; lia.
    + apply Z.leb_gt in Hle. simpl. split; [|by apply IH].
      rewrite insert_desc_perm. simpl. constructor; [lia|done].
Qed.

Lemma sort_rows_sorted (k : list cell -> Z) rs :
  descending (map k (foldr (insert_desc k) [] rs)).
Proof.
  induction rs; simpl; [done|by apply insert_desc_sorted].
Qed.

Lemma column_freq_last cols rs :
  index_of "freq" cols = Some (length cols - 1)%nat ->
  Forall (fun r => exists pre n, r = (pre ++ [CInt n])%list
                                  /\ length r = length cols) rs ->
  column (Frame.mk cols rs) "freq"
  = Ok (map CInt (map (int_key cols "freq") rs)).
Proof.
  intros Hi Hall. unfold column.
  assert (has_column (Frame.mk cols rs) "freq" = true) as ->
    by (apply has_column_index_of; simpl; by rewrite Hi).
  simpl. induction Hall as [|r rs (pre & n & -> & Hlen) _ IH]; [done|].
  assert (Hrow : row_get cols (pre ++ [CInt n]) "freq" = Ok (CInt n)).
  { unfold row_get. rewrite Hi, nth_error_lookup.
    rewrite length_app in Hlen. simpl in Hlen.
    replace (length cols - 1)%nat with (length pre) by lia.
    by rewrite list_lookup_middle by done. }
  cbn [column_go map]. unfold int_key at 1. rewrite Hrow.
  simpl in IH. rewrite IH. done.
Qed.

Lemma sorted_frame cols recs :
  index_of "freq" cols = Some (length cols - 1)%nat ->
  Forall (fun r => exists pre n, r = (pre ++ [CInt n])%list
                                  /\ length r = length cols) recs ->
  sorted_by_freq
    (Frame.mk cols (foldr (insert_desc (int_key cols "freq")) [] recs)) recs.
Proof.
  intros Hi Hall. split; [apply sort_rows_perm|].
  eexists. split.
  - apply column_freq_last; [done|]. by apply sort_rows_Forall.
  - apply sort_rows_sorted.
Qed.

(** X15. The four frames [_crunch_corpus_stats] builds hold the selected
    records, each exactly once, ordered by decreasing [freq]: the token
    frames hold the tokens of the child and of the parent category, the
    pair frames one row per selected pair. *)
Theorem crunch_frames_sorted
    (cu pu : string) (corpus : corpus_tables) (self : t) :
  _crunch_corpus_stats cu pu corpus = Ok self ->
  sorted_by_freq (child_df self)
    (token_records cu (corpus_token_stats corpus))
  /\ sorted_by_freq (parent_df self)
       (token_records pu (corpus_token_stats corpus))
  /\ sorted_by_freq (pair_df self) (pair_records (pair_stats self))
  /\ sorted_by_freq (skip_pair_df self)
       (pair_records (skip_pair_stats self)).
Proof.
  intros Hcrunch.
  destruct (crunch_inv _ _ _ _ Hcrunch)
    as (_ & _ & -> & -> & _ & -> & _ & _ & -> & _).
  assert (Htok : forall upos items,
            Forall (fun r => exists pre n, r = (pre ++ [CInt n])%list
                                            /\ length r = 3%nat)
                   (token_records upos items)).
  { intros upos items. unfold token_records. apply Forall_map, Forall_true.
    intros it. by exists [CStr it.1.1; CStr it.1.2], it.2. }
  assert (Hpair : forall stats,
            Forall (fun r => exists pre n, r = (pre ++ [CInt n])%list
                                            /\ length r = 4%nat)
                   (pair_records stats)).
  { intros stats. unfold pair_records. apply Forall_map, Forall_true.
    intros it.
    by exists [CStr it.1.1; CStr it.1.2; CPair it.1.1 it.1.2], it.2. }
  repeat split; by apply sorted_frame.
Qed.

Lemma crunch_frames_sorted_witness :
  exists self,
    _crunch_corpus_stats "ADJ" "NOUN" two_nouns = Ok self
    /\ sorted_by_freq (pair_df self) (pair_records (pair_stats self)).
Proof.
  assert (Hok : is_Ok (_crunch_corpus_stats "ADJ" "NOUN" two_nouns) = true)
    by (vm_compute; reflexivity).
  destruct (_crunch_corpus_stats "ADJ" "NOUN" two_nouns) as [self|] eqn:Hc;
    [|discriminate].
  exists self. split; [done|].
  exact (proj1 (proj2 (proj2 (crunch_frames_sorted _ _ _ _ Hc)))).
Defined.
End crunch_order.

Section combinations.
Import CompositionAnalysis.

Lemma bump_get d k n k' :
  default 0 (assoc_get (bump d k n) k')
  = default 0 (assoc_get d k') + (if decide (k = k') then n else 0).
Proof.
  unfold bump. rewrite assoc_get_set.
  destruct (decide (k = k')) as [->|]; simpl; lia.
Qed.

Lemma tally_values (d : list ((string * string) * Z)) (w : string) :
  default 0 (assoc_get (child_to_parent (tally d)) w) = total_with fst w d
  /\ default 0 (assoc_get (collapsed_child_to_parent (tally d)) w)
     = number_with fst w d
  /\ default 0 (assoc_get (parent_to_child (tally d)) w) = total_with snd w d
  /\ default 0 (assoc_get (collapsed_parent_to_child (tally d)) w)
     = number_with snd w d.
Proof.
  unfold tally.
  set (step := fun acc (it : (string * string) * Z) =>
         let '((w, p), ct) := it in
         mk_tallies (bump (child_to_parent acc) w ct)
                    (bump (collapsed_child_to_parent acc) w 1)
                    (bump (parent_to_child acc) p ct)
                    (bump (collapsed_parent_to_child acc) p 1)).
  assert (Hgen : forall acc,
    default 0 (assoc_get (child_to_parent (foldl step acc d)) w)
    = default 0 (assoc_get (child_to_parent acc) w) + total_with fst w d
    /\ default 0 (assoc_get (collapsed_child_to_parent (foldl step acc d)) w)
       = default 0 (assoc_get (collapsed_child_to_parent acc) w)
         + number_with fst w d
    /\ default 0 (assoc_get (parent_to_child (foldl step acc d)) w)
       = default 0 (assoc_get (parent_to_child acc) w) + total_with snd w d
    /\ default 0 (assoc_get (collapsed_parent_to_child (foldl step acc d)) w)
       = default 0 (assoc_get (collapsed_parent_to_child acc) w)
         + number_with snd w d).
  { induction d as [|[[c p] ct] d IH]; intros acc.
    - unfold total_with, number_with. simpl. lia.
    - cbn [foldl]. destruct (IH (step acc ((c, p), ct)))
        as (H1 & H2 & H3 & H4).
      rewrite H1, H2, H3, H4. simpl. rewrite !bump_get.
      unfold total_with, number_with.
      destruct (decide (c = w)) as [Hc|Hc];
        destruct (decide (p = w)) as [Hp|Hp];
        rewrite ?(filter_cons_True (fun it => it.1.1 = w)) by done;
        rewrite ?(filter_cons_False (fun it => it.1.1 = w)) by done;
        rewrite ?(filter_cons_True (fun it => it.1.2 = w)) by done;
        rewrite ?(filter_cons_False (fun it => it.1.2 = w)) by done;
        simpl; lia. }
  destruct (Hgen (mk_tallies [] [] [] [])) as (H1 & H2 & H3 & H4).
  simpl in *. rewrite H1, H2, H3, H4. lia.
Qed.

Lemma lookup_counts_CStr d names :
  lookup_counts d (map CStr names)
  = map (fun w => CInt (default 0 (assoc_get d w))) names.
Proof. unfold lookup_counts. by rewrite map_map. Qed.

(** What one pass of [compute_combinations] that is not skipped does to
    the two token frames. *)
Lemma combinations_step_values key d self cn pn :
  rectangular (child_df self) -> rectangular (parent_df self) ->
  column (child_df self) "token" = Ok (map CStr cn) ->
  column (parent_df self) "token" = Ok (map CStr pn) ->
  has_column (child_df self) key && has_column (parent_df self) key = false ->
  key <> "token" -> key +:+ "_collapsed" <> "token" ->
  key +:+ "_collapsed" <> key ->
  exists self',
    combinations_step key d self = Ok self'
    /\ rectangular (child_df self') /\ rectangular (parent_df self')
    /\ column (child_df self') key
       = Ok (map (fun w => CInt (total_with fst w d)) cn)
    /\ column (child_df self') (key +:+ "_collapsed")
       = Ok (map (fun w => CInt (number_with fst w d)) cn)
    /\ column (parent_df self') key
       = Ok (map (fun w => CInt (total_with snd w d)) pn)
    /\ column (parent_df self') (key +:+ "_collapsed")
       = Ok (map (fun w => CInt (number_with snd w d)) pn)
    /\ (forall k, k <> key -> k <> key +:+ "_collapsed" ->
          column (child_df self') k = column (child_df self) k
          /\ column (parent_df self') k = column (parent_df self) k
          /\ has_column (child_df self') k = has_column (child_df self) k)
    /\ pair_stats self' = pair_stats self
    /\ skip_pair_stats self' = skip_pair_stats self
    /\ pair_df self' = pair_df self /\ skip_pair_df self' = skip_pair_df self.
Proof.
  intros Hrc Hrp Hct Hpt Hgate Hk1 Hk2 Hk3.
  unfold combinations_step. rewrite Hgate.
  pose proof (column_length _ _ _ Hct) as Hcl.
  pose proof (column_length _ _ _ Hpt) as Hpl.
  rewrite length_map in Hcl, Hpl.
  (* child, key *)
  rewrite Hct. cbn [mbind result_bind]. rewrite lookup_counts_CStr.
  destruct (set_column (child_df self) key _) as [cdf1|] eqn:Hc1.
  2: { rewrite set_column_Ok in Hc1; [done|]. by rewrite length_map. }
  cbn [mbind result_bind].
  change (parent_df (set_child_df cdf1 self)) with (parent_df self).
  rewrite Hpt. cbn [mbind result_bind]. rewrite lookup_counts_CStr.
  destruct (set_column (parent_df self) key _) as [pdf1|] eqn:Hp1.
  2: { rewrite set_column_Ok in Hp1; [done|]. by rewrite length_map. }
  cbn [mbind result_bind].
  change (child_df (set_parent_df pdf1 (set_child_df cdf1 self))) with cdf1.
  pose proof (set_column_rectangular _ _ _ _ Hrc Hc1) as Hrc1.
  pose proof (set_column_rectangular _ _ _ _ Hrp Hp1) as Hrp1.
  assert (Hct1 : column cdf1 "token" = Ok (map CStr cn))
    by (by rewrite (column_set_column_other _ _ _ _ _ Hrc Hc1 Hk1)).
  assert (Hpt1 : column pdf1 "token" = Ok (map CStr pn))
    by (by rewrite (column_set_column_other _ _ _ _ _ Hrp Hp1 Hk1)).
  rewrite Hct1. cbn [mbind result_bind]. rewrite lookup_counts_CStr.
  destruct (set_column cdf1 (key +:+ "_collapsed") _) as [cdf2|] eqn:Hc2.
  2: { rewrite set_column_Ok in Hc2; [done|].
       rewrite length_map, (set_column_rows _ _ _ _ Hc1). done. }
  cbn [mbind result_bind].
  change (parent_df (set_child_df cdf2
            (set_parent_df pdf1 (set_child_df cdf1 self)))) with pdf1.
  rewrite Hpt1. cbn [mbind result_bind]. rewrite lookup_counts_CStr.
  destruct (set_column pdf1 (key +:+ "_collapsed") _) as [pdf2|] eqn:Hp2.
  2: { rewrite set_column_Ok in Hp2; [done|].
       rewrite length_map, (set_column_rows _ _ _ _ Hp1). done. }
  eexists. split; [reflexivity|]. simpl.
  assert (Hval : forall (sel : tallies -> list (string * Z)) side names,
            (forall w, default 0 (assoc_get (sel (tally d)) w) = side w) ->
            map (fun w => CInt (default 0 (assoc_get (sel (tally d)) w))) names
            = map (fun w => CInt (side w)) names).
  { intros sel side names Hs. apply map_ext. intros w. by rewrite Hs. }
  split; [exact (set_column_rectangular _ _ _ _ Hrc1 Hc2)|].
  split; [exact (set_column_rectangular _ _ _ _ Hrp1 Hp2)|].
  split.
  { rewrite (column_set_column_other _ _ _ _ _ Hrc1 Hc2 Hk3).
    rewrite (column_set_column _ _ _ _ Hrc Hc1).
    f_equal. apply Hval. intros w. apply tally_values. }
  split.
  { rewrite (column_set_column _ _ _ _ Hrc1 Hc2).
    f_equal. apply Hval. intros w. apply tally_values. }
  split.
  { rewrite (column_set_column_other _ _ _ _ _ Hrp1 Hp2 Hk3).
    rewrite (column_set_column _ _ _ _ Hrp Hp1).
    f_equal. apply Hval. intros w. apply tally_values. }
  split.
  { rewrite (column_set_column _ _ _ _ Hrp1 Hp2).
    f_equal. apply Hval. intros w. apply tally_values. }
  split; [|done].
  intros k Hk Hk'. split; [|split].
  - rewrite (column_set_column_other _ _ _ _ _ Hrc1 Hc2) by congruence.
    by rewrite (column_set_column_other _ _ _ _ _ Hrc Hc1) by congruence.
  - rewrite (column_set_column_other _ _ _ _ _ Hrp1 Hp2) by congruence.
    by rewrite (column_set_column_other _ _ _ _ _ Hrp Hp1) by congruence.
  - rewrite (set_column_has_other _ _ _ _ _ Hc2) by congruence.
    by rewrite (set_column_has_other _ _ _ _ _ Hc1) by congruence.
Qed.

Lemma column_token_first cols rs :
  index_of "token" cols = Some 0%nat ->
  Forall (fun r => exists s rest, r = CStr s :: rest) rs ->
  exists names, column (Frame.mk cols rs) "token" = Ok (map CStr names).
Proof.
  intros Hi Hall. unfold column.
  assert (has_column (Frame.mk cols rs) "token" = true) as ->
    by (apply has_column_index_of; simpl; by rewrite Hi).
  simpl. induction Hall as [|r rs (s & rest & ->) _ [names IH]].
  - by exists [].
  - exists (s :: names). cbn [column_go map]. unfold row_get at 1.
    rewrite Hi. simpl. by rewrite IH.
Qed.

(** After [_crunch_corpus_stats] the two token frames have three cells in
    every row and a [token] column of strings. *)
Lemma crunch_token_frames cu pu corpus self :
  _crunch_corpus_stats cu pu corpus = Ok self ->
  rectangular (child_df self) /\ rectangular (parent_df self)
  /\ columns (child_df self) = ["token"; "upos"; "freq"]
  /\ columns (parent_df self) = ["token"; "upos"; "freq"]
  /\ (exists cn, column (child_df self) "token" = Ok (map CStr cn))
  /\ (exists pn, column (parent_df self) "token" = Ok (map CStr pn)).
Proof.
  intros Hcrunch.
  destruct (crunch_inv _ _ _ _ Hcrunch) as (_ & _ & -> & -> & _).
  assert (Hrec : forall upos items,
            Forall (fun r => length r = 3%nat
                             /\ exists s rest, r = CStr s :: rest)
                   (token_records upos items)).
  { intros upos items. unfold token_records. apply Forall_map, Forall_true.
    intros it. split; [done|]. by eexists _, _. }
  assert (Hsorted : forall upos items,
            Forall (fun r => length r = 3%nat
                             /\ exists s rest, r = CStr s :: rest)
                   (foldr (insert_desc
                             (int_key ["token"; "upos"; "freq"] "freq")) []
                          (token_records upos items)))
    by (intros; by apply sort_rows_Forall).
  repeat split; try done.
  - eapply Forall_impl; [apply Hsorted|]. by intros r [? _].
  - eapply Forall_impl; [apply Hsorted|]. by intros r [? _].
  - apply column_token_first; [done|].
    eapply Forall_impl; [apply Hsorted|]. by intros r [_ ?].
  - apply column_token_first; [done|].
    eapply Forall_impl; [apply Hsorted|]. by intros r [_ ?].
Qed.

(** X16. On the tables built by the constructor, [compute_combinations]
    returns and gives every token its numbers of partners: for the child
    in row [i], [combinations] is the sum of the counts of the selected
    pairs with this child and [combinations_collapsed] the number of such
    pairs; for a parent likewise over the pairs with this parent; the
    [skip_] columns are the same numbers over the skip pairs. *)
Theorem combinations_count_partners
    (cu pu : string) (corpus : corpus_tables) (self : t) :
  _crunch_corpus_stats cu pu corpus = Ok self ->
  exists self' cn pn,
    compute_combinations self = Ok self'
    /\ column (child_df self') "token" = Ok (map CStr cn)
    /\ column (parent_df self') "token" = Ok (map CStr pn)
    /\ column (child_df self') "combinations"
       = Ok (map (fun w => CInt (total_with fst w (pair_stats self))) cn)
    /\ column (child_df self') "combinations_collapsed"
       = Ok (map (fun w => CInt (number_with fst w (pair_stats self))) cn)
    /\ column (parent_df self') "combinations"
       = Ok (map (fun w => CInt (total_with snd w (pair_stats self))) pn)
    /\ column (parent_df self') "combinations_collapsed"
       = Ok (map (fun w => CInt (number_with snd w (pair_stats self))) pn)
    /\ column (child_df self') "skip_combinations"
       = Ok (map (fun w => CInt (total_with fst w (skip_pair_stats self))) cn)
    /\ column (child_df self') "skip_combinations_collapsed"
       = Ok (map (fun w => CInt (number_with fst w (skip_pair_stats self)))
                 cn)
    /\ column (parent_df self') "skip_combinations"
       = Ok (map (fun w => CInt (total_with snd w (skip_pair_stats self))) pn)
    /\ column (parent_df self') "skip_combinations_collapsed"
       = Ok (map (fun w => CInt (number_with snd w (skip_pair_stats self)))
                 pn).
Proof.
  intros Hcrunch.
  destruct (crunch_token_frames _ _ _ _ Hcrunch)
    as (Hrc & Hrp & Hcc & Hpc & [cn Hcn] & [pn Hpn]).
  assert (Hgate : has_column (child_df self) "combinations"
                  && has_column (parent_df self) "combinations" = false)
    by (unfold has_column; by rewrite Hcc).
  destruct (combinations_step_values "combinations" (pair_stats self) self
              cn pn Hrc Hrp Hcn Hpn Hgate)
    as (s1 & H1 & Hrc1 & Hrp1 & Hc1 & Hcc1 & Hp1 & Hpc1 & Hkeep1 & _ & Hsk
        & _); [done..|].
  destruct (Hkeep1 "token") as (Hct1 & Hpt1 & _); [done..|].
  rewrite Hcn in Hct1. rewrite Hpn in Hpt1.
  assert (Hgate1 : has_column (child_df s1) "skip_combinations"
                   && has_column (parent_df s1) "skip_combinations" = false).
  { destruct (Hkeep1 "skip_combinations") as (_ & _ & ->); [done..|].
    unfold has_column. by rewrite Hcc. }
  destruct (combinations_step_values "skip_combinations"
              (skip_pair_stats s1) s1 cn pn Hrc1 Hrp1 Hct1 Hpt1 Hgate1)
    as (s2 & H2 & _ & _ & Hc2 & Hcc2 & Hp2 & Hpc2 & Hkeep2 & _);
    [done..|].
  exists s2, cn, pn. unfold compute_combinations. rewrite H1. simpl.
  split; [exact H2|].
  destruct (Hkeep2 "token") as (-> & -> & _); [done..|].
  destruct (Hkeep2 "combinations") as (-> & -> & _); [done..|].
  destruct (Hkeep2 "combinations_collapsed") as (-> & -> & _); [done..|].
  rewrite Hsk in Hc2, Hcc2, Hp2, Hpc2.
  by repeat split.
Qed.

Lemma combinations_count_partners_witness :
  exists self self' cn,
    _crunch_corpus_stats "ADJ" "NOUN" two_nouns = Ok self
    /\ compute_combinations self = Ok self'
    /\ column (child_df self') "token" = Ok (map CStr cn)
    /\ column (child_df self') "combinations"
       = Ok (map (fun w => CInt (total_with fst w (pair_stats self))) cn).
Proof.
  assert (Hok : is_Ok (_crunch_corpus_stats "ADJ" "NOUN" two_nouns) = true)
    by (vm_compute; reflexivity).
  destruct (_crunch_corpus_stats "ADJ" "NOUN" two_nouns) as [self|] eqn:Hc;
    [|discriminate].
  destruct (combinations_count_partners _ _ _ _ Hc)
    as (self' & cn & pn & H1 & H2 & _ & H3 & _).
  by exists self, self', cn.
Defined.
End combinations.

Section matrix_shape.
Import CompositionAnalysis.

Lemma fill_matrix_shape cols stat ctoks ptoks (n : nat) :
  forall rs cix pix m m',
  fill_matrix cols stat ctoks ptoks rs cix pix m = Ok m' ->
  Forall (fun r => length r = n) m ->
  length m' = length m /\ Forall (fun r => length r = n) m'.
Proof.
  induction rs as [|row rs IH]; intros cix pix m m'; simpl.
  - by intros [= <-].
  - destruct (row_get cols row "child") as [c|]; simpl; [|done].
    destruct (row_get cols row "parent") as [p|]; simpl; [|done].
    destruct (row_get cols row stat) as [v|]; simpl; [|done].
    destruct (match to_ix ctoks 0 None c with
              | Some ci => _ | None => _ end) as [[i|] [j|]]; try done.
    destruct (to_float v) as [x|]; simpl; [|done].
    intros Hfill Hall. apply IH in Hfill.
    + by rewrite length_alter in Hfill.
    + apply Forall_alter; [done|]. intros r _ Hr. by rewrite length_insert.
Qed.

(** X17. The matrix [generate_adjacency_matrix] builds has one row per
    row of [child_df] and one column per row of [parent_df], and it is
    stored as the object's matrix; nothing else of the object changes. *)
Theorem adjacency_matrix_shape
    (skip : bool) (stat : string) (self self' : t) (m : ndarray) :
  matrix self = None ->
  generate_adjacency_matrix skip stat self = Ok (m, self') ->
  length (data m) = length (rows (child_df self))
  /\ ncols m = length (rows (parent_df self))
  /\ Forall (fun r => length r = ncols m) (data m)
  /\ self' = set_matrix (Some m) self.
Proof.
  intros Hnone. unfold generate_adjacency_matrix. rewrite Hnone.
  destruct (column (child_df self) "token") as [ctoks|] eqn:Hc; simpl;
    [|done].
  destruct (column (parent_df self) "token") as [ptoks|] eqn:Hp; simpl;
    [|done].
  destruct (fill_matrix _ _ _ _ _ _ _ _) as [m0|] eqn:Hfill; simpl; [|done].
  intros [= <- <-]. simpl.
  apply (fill_matrix_shape _ _ _ _ (length ptoks)) in Hfill as [Hlen Hall].
  - rewrite repeat_length in Hlen.
    split; [by rewrite Hlen, (column_length _ _ _ Hc)|].
    split; [by rewrite (column_length _ _ _ Hp)|]. by split.
  - apply Forall_forall. intros r Hr.
    apply list_elem_of_In, repeat_spec in Hr. subst r.
    apply repeat_length.
Qed.

Lemma adjacency_matrix_shape_witness :
  exists self m self',
    _crunch_corpus_stats "ADJ" "NOUN" two_nouns = Ok self
    /\ generate_adjacency_matrix false "freq" self = Ok (m, self')
    /\ length (data m) = length (rows (child_df self))
    /\ ncols m = length (rows (parent_df self)).
Proof.
  assert (Hok : is_Ok (_crunch_corpus_stats "ADJ" "NOUN" two_nouns) = true)
    by (vm_compute; reflexivity).
  destruct (_crunch_corpus_stats "ADJ" "NOUN" two_nouns) as [self|] eqn:Hc;
    [|discriminate].
  destruct (crunch_inv _ _ _ _ Hc) as (_ & _ & Hcdf & Hpdf & _ & Hprdf & _
                                        & _ & _ & Hnone).
  destruct (generate_adjacency_matrix false "freq" self) as [[m self']|]
    eqn:Hgen.
  - destruct (adjacency_matrix_shape false "freq" self self' m Hnone Hgen)
      as (H1 & H2 & _).
    by exists self, m, self'.
  - exfalso. unfold generate_adjacency_matrix in Hgen.
    rewrite Hnone, Hcdf, Hpdf, Hprdf in Hgen.
    pose proof Hc as Hc'. vm_compute in Hc'. injection Hc' as <-.
    cbv in Hgen. discriminate.
Defined.
End matrix_shape.

Section entropy_columns.
Import CompositionAnalysis.

Lemma generate_adjacency_matrix_inv skip stat self m s1 :
  generate_adjacency_matrix skip stat self = Ok (m, s1) ->
  matrix s1 = Some m
  /\ (forall m0, matrix self = Some m0 -> m0 = m)
  /\ child_df s1 = child_df self /\ parent_df s1 = parent_df self
  /\ pair_df s1 = pair_df self /\ skip_pair_df s1 = skip_pair_df self
  /\ token_stats s1 = token_stats self /\ n_tokens s1 = n_tokens self
  /\ pair_stats s1 = pair_stats self
  /\ skip_pair_stats s1 = skip_pair_stats self
  /\ child_upos s1 = child_upos self /\ parent_upos s1 = parent_upos self.
Proof.
  unfold generate_adjacency_matrix. destruct (matrix self) as [m0|] eqn:Hm.
  - intros [= <- <-]. rewrite Hm. repeat split; try done. by intros ? [= ->].
  - intros Hs.
    apply bind_Ok in Hs as (? & _ & Hs). apply bind_Ok in Hs as (? & _ & Hs).
    apply bind_Ok in Hs as (? & _ & Hs). injection Hs as <- <-.
    by repeat split.
Qed.

(** What one pass of [compute_entropy] that is not skipped does to the two
    token frames. *)
Lemma entropy_step_inv name skip self self' :
  rectangular (child_df self) -> rectangular (parent_df self) ->
  name <> "freq" -> name +:+ "_ceilinged" <> name ->
  entropy_step name skip self = Ok self' ->
  exists m cfreq pfreq,
    matrix self' = Some m
    /\ (exists s1, generate_adjacency_matrix skip "freq" self = Ok (m, s1))
    /\ (forall m0, matrix self = Some m0 -> m0 = m)
    /\ column (child_df self) "freq" ≫= int_cells = Ok cfreq
    /\ column (parent_df self) "freq" ≫= int_cells = Ok pfreq
    /\ column (child_df self') name
       = Ok (map CFloat (map fillna0 (entropy_rows m)))
    /\ column (parent_df self') name
       = Ok (map CFloat (map fillna0 (entropy_columns m)))
    /\ column (child_df self') (name +:+ "_ceilinged")
       = Ok (ceilinged (map fillna0 (entropy_rows m))
               (map (norm_denom (Z.of_nat (ncols m))) cfreq))
    /\ column (parent_df self') (name +:+ "_ceilinged")
       = Ok (ceilinged (map fillna0 (entropy_columns m))
               (map (norm_denom (Z.of_nat (length (data m)))) pfreq))
    /\ rectangular (child_df self') /\ rectangular (parent_df self')
    /\ (forall k, k <> name -> k <> name +:+ "_ceilinged" ->
          column (child_df self') k = column (child_df self) k
          /\ column (parent_df self') k = column (parent_df self) k
          /\ has_column (child_df self') k = has_column (child_df self) k
          /\ has_column (parent_df self') k = has_column (parent_df self) k)
    /\ token_stats self' = token_stats self /\ n_tokens self' = n_tokens self
    /\ pair_stats self' = pair_stats self
    /\ skip_pair_stats self' = skip_pair_stats self
    /\ pair_df self' = pair_df self /\ skip_pair_df self' = skip_pair_df self.
Proof.
  intros Hrc Hrp Hn1 Hn2. unfold entropy_step. intros Hs.
  apply bind_Ok in Hs as ([m s1] & Hm & Hs).
  pose proof Hm as Hgen.
  apply generate_adjacency_matrix_inv in Hm
    as (Hm1 & Hm0 & Hc & Hp & Hpd & Hsd & Hts & Hnt & Hps & Hsps & _).
  apply bind_Ok in Hs as (cdf1 & Hc1 & Hs).
  apply bind_Ok in Hs as (pdf1 & Hp1 & Hs).
  apply bind_Ok in Hs as (pfreq & Hpf & Hs).
  apply bind_Ok in Hs as (cfreq & Hcf & Hs).
  apply bind_Ok in Hs as (pdf2 & Hp2 & Hs).
  apply bind_Ok in Hs as (cdf2 & Hc2 & Hs).
  injection Hs as <-. rewrite Hc in Hc1. rewrite Hp in Hp1.
  pose proof (set_column_rectangular _ _ _ _ Hrc Hc1) as Hrc1.
  pose proof (set_column_rectangular _ _ _ _ Hrp Hp1) as Hrp1.
  rewrite (column_set_column_other _ _ _ _ _ Hrp Hp1 Hn1) in Hpf.
  rewrite (column_set_column_other _ _ _ _ _ Hrc Hc1 Hn1) in Hcf.
  exists m, cfreq, pfreq. simpl.
  split; [exact Hm1|]. split; [by exists s1|]. split; [exact Hm0|].
  split; [exact Hcf|]. split; [exact Hpf|].
  split.
  { rewrite (column_set_column_other _ _ _ _ _ Hrc1 Hc2) by congruence.
    exact (column_set_column _ _ _ _ Hrc Hc1). }
  split.
  { rewrite (column_set_column_other _ _ _ _ _ Hrp1 Hp2) by congruence.
    exact (column_set_column _ _ _ _ Hrp Hp1). }
  split; [exact (column_set_column _ _ _ _ Hrc1 Hc2)|].
  split; [exact (column_set_column _ _ _ _ Hrp1 Hp2)|].
  split; [exact (set_column_rectangular _ _ _ _ Hrc1 Hc2)|].
  split; [exact (set_column_rectangular _ _ _ _ Hrp1 Hp2)|].
  split; [|by repeat split].
  intros k Hk Hk'. repeat split.
  - rewrite (column_set_column_other _ _ _ _ _ Hrc1 Hc2) by congruence.
    by rewrite (column_set_column_other _ _ _ _ _ Hrc Hc1) by congruence.
  - rewrite (column_set_column_other _ _ _ _ _ Hrp1 Hp2) by congruence.
    by rewrite (column_set_column_other _ _ _ _ _ Hrp Hp1) by congruence.
  - rewrite (set_column_has_other _ _ _ _ _ Hc2) by congruence.
    by rewrite (set_column_has_other _ _ _ _ _ Hc1) by congruence.
  - rewrite (set_column_has_other _ _ _ _ _ Hp2) by congruence.
    by rewrite (set_column_has_other _ _ _ _ _ Hp1) by congruence.
Qed.

(** X18. The skip entropies are copies: when [compute_entropy] returns on
    the tables built by the constructor, the columns [entropy_skip] and
    [entropy_skip_ceilinged] of both token frames hold exactly the values
    of [entropy] and [entropy_ceilinged], since the second pass gets the
    cached matrix of the direct pairs; the skip pairs are never read. *)
Theorem skip_entropy_repeats_entropy
    (cu pu : string) (corpus : corpus_tables) (self self' : t) :
  _crunch_corpus_stats cu pu corpus = Ok self ->
  compute_entropy self = Ok self' ->
  exists ce pe cc pc,
    column (child_df self') "entropy" = Ok ce
    /\ column (child_df self') "entropy_skip" = Ok ce
    /\ column (parent_df self') "entropy" = Ok pe
    /\ column (parent_df self') "entropy_skip" = Ok pe
    /\ column (child_df self') "entropy_ceilinged" = Ok cc
    /\ column (child_df self') "entropy_skip_ceilinged" = Ok cc
    /\ column (parent_df self') "entropy_ceilinged" = Ok pc
    /\ column (parent_df self') "entropy_skip_ceilinged" = Ok pc.
Proof.
  intros Hcrunch.
  destruct (crunch_token_frames _ _ _ _ Hcrunch)
    as (Hrc & Hrp & Hcc & Hpc & _ & _).
  unfold compute_entropy.
  assert (has_column (child_df self) "entropy"
          && has_column (parent_df self) "entropy" = false) as ->
    by (unfold has_column; by rewrite Hcc).
  intros Hs. apply bind_Ok in Hs as (s1 & H1 & Hs).
  apply entropy_step_inv in H1
    as (m & cfreq & pfreq & Hm & _ & _ & Hcf & Hpf & Hce & Hpe & Hcec & Hpec
        & Hrc1 & Hrp1 & Hkeep1 & _); [|done..].
  assert (has_column (child_df s1) "entropy_skip"
          && has_column (parent_df s1) "entropy_skip" = false) as Hgate.
  { destruct (Hkeep1 "entropy_skip") as (_ & _ & -> & _); [done..|].
    unfold has_column. by rewrite Hcc. }
  rewrite Hgate in Hs.
  apply entropy_step_inv in Hs
    as (m' & cfreq' & pfreq' & _ & _ & Hm' & Hcf' & Hpf' & Hce' & Hpe'
        & Hcec' & Hpec' & _ & _ & Hkeep2 & _); [|done..].
  rewrite <- (Hm' m Hm) in *.
  destruct (Hkeep1 "freq") as (Hf1 & Hf2 & _); [done..|].
  rewrite Hf1, Hcf in Hcf'. rewrite Hf2, Hpf in Hpf'.
  injection Hcf' as <-. injection Hpf' as <-.
  destruct (Hkeep2 "entropy") as (-> & -> & _); [done..|].
  destruct (Hkeep2 "entropy_ceilinged") as (-> & -> & _); [done..|].
  eexists _, _, _, _. repeat split; eassumption.
Qed.

Lemma skip_entropy_repeats_entropy_witness :
  exists self self' ce,
    _crunch_corpus_stats "ADJ" "NOUN" two_nouns = Ok self
    /\ compute_entropy self = Ok self'
    /\ column (child_df self') "entropy" = Ok ce
    /\ column (child_df self') "entropy_skip" = Ok ce.
Proof.
  destruct (_crunch_corpus_stats "ADJ" "NOUN" two_nouns) as [self|] eqn:Hc;
    [|vm_compute in Hc; discriminate].
  assert (Hok : is_Ok (compute_entropy self) = true).
  { pose proof Hc as Hself. vm_compute in Hself. injection Hself as <-.
    cbv -[entropy fdiv np_log2 IZR]. reflexivity. }
  destruct (compute_entropy self) as [self'|] eqn:Hent; [|discriminate].
  destruct (skip_entropy_repeats_entropy _ _ _ _ _ Hc Hent)
    as (ce & _ & _ & _ & H1 & H2 & _).
  by exists self, self', ce.
Defined.
End entropy_columns.

Section analyses_keep_tables.
Import CompositionAnalysis.

Lemma same_tables_refl self : same_tables self self.
Proof. by repeat split. Qed.

Lemma same_tables_trans a b c :
  same_tables a b -> same_tables b c -> same_tables a c.
Proof.
  unfold same_tables. intros Hab Hbc.
  repeat match goal with H : _ /\ _ |- _ => destruct H end.
  repeat split; congruence.
Qed.

Lemma combinations_step_tables key d self self' :
  combinations_step key d self = Ok self' -> same_tables self self'.
Proof.
  unfold combinations_step.
  destruct (has_column (child_df self) key
            && has_column (parent_df self) key).
  - intros [= <-]. apply same_tables_refl.
  - intros Hs.
    apply bind_Ok in Hs as (ct1 & _ & Hs).
    apply bind_Ok in Hs as (cdf1 & Hc1 & Hs).
    apply bind_Ok in Hs as (pt1 & _ & Hs).
    apply bind_Ok in Hs as (pdf1 & Hp1 & Hs).
    apply bind_Ok in Hs as (ct2 & _ & Hs).
    apply bind_Ok in Hs as (cdf2 & Hc2 & Hs).
    apply bind_Ok in Hs as (pt2 & _ & Hs).
    apply bind_Ok in Hs as (pdf2 & Hp2 & Hs).
    injection Hs as <-. simpl in *.
    apply set_column_rows in Hc1, Hp1, Hc2, Hp2.
    unfold same_tables. simpl. repeat split; congruence.
Qed.

Lemma entropy_step_tables name skip self self' :
  entropy_step name skip self = Ok self' -> same_tables self self'.
Proof.
  unfold entropy_step. intros Hs.
  apply bind_Ok in Hs as ([m s1] & Hm & Hs).
  apply generate_adjacency_matrix_inv in Hm
    as (_ & _ & Hc & Hp & Hpd & Hsd & Hts & Hnt & Hps & Hsps & Hcu & Hpu).
  apply bind_Ok in Hs as (cdf1 & Hc1 & Hs).
  apply bind_Ok in Hs as (pdf1 & Hp1 & Hs).
  apply bind_Ok in Hs as (pfreq & _ & Hs).
  apply bind_Ok in Hs as (cfreq & _ & Hs).
  apply bind_Ok in Hs as (pdf2 & Hp2 & Hs).
  apply bind_Ok in Hs as (cdf2 & Hc2 & Hs).
  injection Hs as <-.
  apply set_column_rows in Hc1, Hp1, Hc2, Hp2.
  unfold same_tables. simpl. repeat split; congruence.
Qed.

Lemma pmi_step_rows key df self df' :
  pmi_step key df self = Ok df' -> length (rows df') = length (rows df).
Proof.
  unfold pmi_step.
  destruct (has_column (child_df self) key
            && has_column (parent_df self) key).
  - by intros [= <-].
  - intros Hs. apply bind_Ok in Hs as (pmi & _ & Hs).
    by apply set_column_rows in Hs.
Qed.

Lemma compute_combinations_tables self self' :
  compute_combinations self = Ok self' -> same_tables self self'.
Proof.
  unfold compute_combinations. intros Hs.
  apply bind_Ok in Hs as (s1 & H1 & H2).
  eapply same_tables_trans; by eapply combinations_step_tables.
Qed.

Lemma compute_entropy_tables self self' :
  compute_entropy self = Ok self' -> same_tables self self'.
Proof.
  unfold compute_entropy.
  destruct (has_column (child_df self) "entropy"
            && has_column (parent_df self) "entropy").
  - intros [= <-]. apply same_tables_refl.
  - intros Hs. apply bind_Ok in Hs as (s1 & H1 & Hs).
    apply entropy_step_tables in H1.
    destruct (has_column (child_df s1) "entropy_skip"
              && has_column (parent_df s1) "entropy_skip").
    + by injection Hs as <-.
    + eapply same_tables_trans; [exact H1|]. by eapply entropy_step_tables.
Qed.

Lemma compute_pmi_tables self self' :
  compute_pmi self = Ok self' -> same_tables self self'.
Proof.
  unfold compute_pmi. intros Hs.
  apply bind_Ok in Hs as (df1 & H1 & Hs).
  apply bind_Ok in Hs as (df2 & H2 & Hs).
  injection Hs as <-.
  apply pmi_step_rows in H1, H2. simpl in H2.
  unfold same_tables. simpl. repeat split; congruence.
Qed.

(** X19. The derived-statistic computations only add columns: when
    [run_analyses] returns, the selection, [n_tokens], [token_stats],
    [pair_stats] and [skip_pair_stats] are what they were, and each of the
    four frames has as many rows as before. *)
Theorem analyses_keep_tables (self self' : t) :
  run_analyses self = Ok self' -> same_tables self self'.
Proof.
  unfold run_analyses. intros Hs.
  apply bind_Ok in Hs as (s1 & H1 & Hs).
  apply bind_Ok in Hs as (s2 & H2 & H3).
  apply compute_combinations_tables in H1.
  apply compute_entropy_tables in H2.
  apply compute_pmi_tables in H3.
  eapply same_tables_trans; [exact H1|].
  by eapply same_tables_trans.
Qed.

Lemma analyses_keep_tables_witness :
  exists self self',
    _crunch_corpus_stats "ADJ" "NOUN" two_nouns = Ok self
    /\ run_analyses self = Ok self'
    /\ same_tables self self'.
Proof.
  destruct (_crunch_corpus_stats "ADJ" "NOUN" two_nouns) as [self|] eqn:Hc;
    [|vm_compute in Hc; discriminate].
  assert (Hok : is_Ok (run_analyses self) = true).
  { pose proof Hc as Hself. vm_compute in Hself. injection Hself as <-.
    cbv -[entropy fdiv np_log2 fsub IZR]. reflexivity. }
  destruct (run_analyses self) as [self'|] eqn:Hrun; [|discriminate].
  exists self, self'. split; [done|]. split; [done|].
  exact (analyses_keep_tables self self' Hrun).
Defined.

(** X20. [compute_combinations] is memoized: a second call returns the
    object unchanged. *)
Theorem combinations_memoized (self self' : t) :
  compute_combinations self = Ok self' ->
  compute_combinations self' = Ok self'.
Proof. apply compute_combinations_twice. Qed.

Lemma combinations_memoized_witness :
  exists self self',
    _crunch_corpus_stats "ADJ" "NOUN" two_nouns = Ok self
    /\ compute_combinations self = Ok self'
    /\ compute_combinations self' = Ok self'.
Proof.
  destruct (_crunch_corpus_stats "ADJ" "NOUN" two_nouns) as [self|] eqn:Hc;
    [|vm_compute in Hc; discriminate].
  assert (Hok : is_Ok (compute_combinations self) = true).
  { pose proof Hc as Hself. vm_compute in Hself. injection Hself as <-.
    vm_compute. reflexivity. }
  destruct (compute_combinations self) as [self'|] eqn:Hrun; [|discriminate].
  exists self, self'. split; [done|]. split; [done|].
  exact (combinations_memoized self self' Hrun).
Defined.

(** X21. [compute_entropy] is memoized: a second call returns the object
    unchanged. *)
Theorem entropy_memoized (self self' : t) :
  compute_entropy self = Ok self' -> compute_entropy self' = Ok self'.
Proof. apply compute_entropy_twice. Qed.

Lemma entropy_memoized_witness :
  exists self self',
    _crunch_corpus_stats "ADJ" "NOUN" two_nouns = Ok self
    /\ compute_entropy self = Ok self'
    /\ compute_entropy self' = Ok self'.
Proof.
  destruct (_crunch_corpus_stats "ADJ" "NOUN" two_nouns) as [self|] eqn:Hc;
    [|vm_compute in Hc; discriminate].
  assert (Hok : is_Ok (compute_entropy self) = true).
  { pose proof Hc as Hself. vm_compute in Hself. injection Hself as <-.
    cbv -[entropy fdiv np_log2 IZR]. reflexivity. }
  destruct (compute_entropy self) as [self'|] eqn:Hrun; [|discriminate].
  exists self, self'. split; [done|]. split; [done|].
  exact (entropy_memoized self self' Hrun).
Defined.
End analyses_keep_tables.

Section ceilinged_entropy.
Import CompositionAnalysis.

Lemma int_cells_length cs ns : int_cells cs = Ok ns -> length ns = length cs.
Proof.
  revert ns. induction cs as [|c cs IH]; intros ns; simpl.
  - by intros [= <-].
  - destruct c; try done.
    destruct (int_cells cs) as [ns'|]; simpl; [|done].
    intros [= <-]. simpl. f_equal. by apply IH.
Qed.

(** Dividing a filled entropy by [np.log2(1)] gives no finite number. *)
Lemma fdiv_log2_1 (x : float) v : fdiv (fillna0 x) (np_log2 1) <> FReal v.
Proof.
  unfold np_log2. simpl. rewrite log2_1.
  destruct x as [e| |s]; simpl.
  - destruct (Req_EM_T 0 0) as [_|Hne]; [|done].
    by destruct (Req_EM_T e 0).
  - destruct (Req_EM_T 0 0) as [_|Hne]; [|done].
    by destruct (Req_EM_T 0 0).
  - done.
Qed.

Lemma ceilinged_rare (ents : list float) (other : Z) (freqs : list Z)
    (i : nat) (c : cell) :
  1 < other -> freqs !! i = Some 1 ->
  ceilinged (map fillna0 ents) (map (norm_denom other) freqs) !! i = Some c ->
  exists x, c = CFloat x /\ forall v, x <> FReal v.
Proof.
  intros Hother Hf. unfold ceilinged. rewrite list_lookup_fmap.
  destruct (zip (map fillna0 ents) (map (norm_denom other) freqs) !! i)
    as [[e d]|] eqn:Hz; simpl; [|done].
  intros [= <-]. apply lookup_zip_with_Some in Hz
    as (e' & d' & [= <- <-] & He & Hd).
  rewrite list_lookup_fmap, Hf in Hd. simpl in Hd. injection Hd as <-.
  rewrite list_lookup_fmap in He.
  destruct (ents !! i) as [x|]; simpl in He; [|done]. injection He as <-.
  eexists. split; [done|]. intros v.
  unfold norm_denom. replace (1 <? other) with true
    by (symmetry; by apply Z.ltb_lt).
  apply fdiv_log2_1.
Qed.

Lemma generate_adjacency_matrix_dims skip stat self m s1 :
  matrix self = None ->
  generate_adjacency_matrix skip stat self = Ok (m, s1) ->
  ncols m = length (rows (parent_df self))
  /\ length (data m) = length (rows (child_df self)).
Proof.
  intros Hnone. unfold generate_adjacency_matrix. rewrite Hnone.
  destruct (column (child_df self) "token") as [ctoks|] eqn:Hc; simpl;
    [|done].
  destruct (column (parent_df self) "token") as [ptoks|] eqn:Hp; simpl;
    [|done].
  destruct (fill_matrix _ _ _ _ _ _ _ _) as [m0|] eqn:Hfill; simpl; [|done].
  intros [= <- <-]. simpl.
  apply (fill_matrix_shape _ _ _ _ (length ptoks)) in Hfill as [Hlen _].
  - rewrite repeat_length in Hlen.
    by rewrite Hlen, (column_length _ _ _ Hc), (column_length _ _ _ Hp).
  - apply Forall_forall. intros r Hr.
    apply list_elem_of_In, repeat_spec in Hr. subst r.
    apply repeat_length.
Qed.

(** X29. The ceilinged entropy of a token seen once is not a number: when
    [compute_entropy] returns on the tables built by the constructor and
    there is more than one token on the other axis, every child and every
    parent of frequency 1 gets an [entropy_ceilinged] that is NaN or
    infinite, its entropy being divided by [np.log2(1)], which is 0. *)
Theorem ceilinged_entropy_of_rare_tokens
    (cu pu : string) (corpus : corpus_tables) (self self' : t) :
  _crunch_corpus_stats cu pu corpus = Ok self ->
  compute_entropy self = Ok self' ->
  exists cfreq pfreq cc pc,
    column (child_df self) "freq" ≫= int_cells = Ok cfreq
    /\ column (parent_df self) "freq" ≫= int_cells = Ok pfreq
    /\ column (child_df self') "entropy_ceilinged" = Ok cc
    /\ column (parent_df self') "entropy_ceilinged" = Ok pc
    /\ (forall i, cfreq !! i = Some 1 ->
          (1 < length (rows (parent_df self)))%nat ->
          exists x, cc !! i = Some (CFloat x) /\ forall v, x <> FReal v)
    /\ (forall i, pfreq !! i = Some 1 ->
          (1 < length (rows (child_df self)))%nat ->
          exists x, pc !! i = Some (CFloat x) /\ forall v, x <> FReal v).
Proof.
  intros Hcrunch Hent.
  pose proof (compute_entropy_tables _ _ Hent)
    as (_ & _ & _ & _ & _ & _ & Hrc' & Hrp' & _).
  destruct (crunch_token_frames _ _ _ _ Hcrunch)
    as (Hrc & Hrp & Hcc & Hpc & _ & _).
  destruct (crunch_inv _ _ _ _ Hcrunch) as (_ & _ & _ & _ & _ & _ & _ & _
                                             & _ & Hnone).
  revert Hent. unfold compute_entropy.
  assert (has_column (child_df self) "entropy"
          && has_column (parent_df self) "entropy" = false) as ->
    by (unfold has_column; by rewrite Hcc).
  intros Hs. apply bind_Ok in Hs as (s1 & H1 & Hs).
  apply entropy_step_inv in H1
    as (m & cfreq & pfreq & _ & [s0 Hgen] & _ & Hcf & Hpf & _ & _ & Hcec
        & Hpec & Hrc1 & Hrp1 & Hkeep1 & _); [|done..].
  change ("entropy" +:+ "_ceilinged") with "entropy_ceilinged" in Hcec, Hpec.
  destruct (generate_adjacency_matrix_dims _ _ _ _ _ Hnone Hgen)
    as [Hncols Hdata].
  assert (Hcols : column (child_df self') "entropy_ceilinged"
                  = column (child_df s1) "entropy_ceilinged"
                  /\ column (parent_df self') "entropy_ceilinged"
                     = column (parent_df s1) "entropy_ceilinged").
  { destruct (has_column (child_df s1) "entropy_skip"
              && has_column (parent_df s1) "entropy_skip").
    - by injection Hs as <-.
    - apply entropy_step_inv in Hs
        as (_ & _ & _ & _ & _ & _ & _ & _ & _ & _ & _ & _ & _ & _ & Hkeep2
            & _); [|done..].
      by destruct (Hkeep2 "entropy_ceilinged") as (-> & -> & _). }
  destruct Hcols as [Hcc' Hpc'].
  eexists cfreq, pfreq, _, _.
  split; [exact Hcf|]. split; [exact Hpf|].
  split; [by rewrite Hcc', Hcec|]. split; [by rewrite Hpc', Hpec|].
  assert (Hlc : length cfreq = length (rows (child_df self))).
  { apply bind_Ok in Hcf as (cs & Hcs & Hint).
    by rewrite (int_cells_length _ _ Hint), (column_length _ _ _ Hcs). }
  assert (Hlp : length pfreq = length (rows (parent_df self))).
  { apply bind_Ok in Hpf as (cs & Hcs & Hint).
    by rewrite (int_cells_length _ _ Hint), (column_length _ _ _ Hcs). }
  split.
  - intros i Hi Hmany.
    pose proof (lookup_lt_Some _ _ _ Hi) as Hlt.
    assert (Hlen : (i < length (ceilinged (map fillna0 (entropy_rows m))
                          (map (norm_denom (Z.of_nat (ncols m))) cfreq)))%nat).
    { rewrite Hcec in Hcc'. apply column_length in Hcc'. lia. }
    destruct (lookup_lt_is_Some_2 _ _ Hlen) as [c Hc].
    assert (Hbig : 1 < Z.of_nat (ncols m)) by lia.
    destruct (ceilinged_rare _ _ _ i c Hbig Hi Hc) as (x & -> & Hx).
    by exists x.
  - intros i Hi Hmany.
    pose proof (lookup_lt_Some _ _ _ Hi) as Hlt.
    assert (Hlen : (i < length (ceilinged (map fillna0 (entropy_columns m))
                          (map (norm_denom (Z.of_nat (length (data m))))
                               pfreq)))%nat).
    { rewrite Hpec in Hpc'. apply column_length in Hpc'. lia. }
    destruct (lookup_lt_is_Some_2 _ _ Hlen) as [c Hc].
    assert (Hbig : 1 < Z.of_nat (length (data m))) by lia.
    destruct (ceilinged_rare _ _ _ i c Hbig Hi Hc) as (x & -> & Hx).
    by exists x.
Qed.

Lemma ceilinged_entropy_of_rare_tokens_witness :
  exists self self' cc x,
    _crunch_corpus_stats "ADJ" "NOUN" rare_red = Ok self
    /\ compute_entropy self = Ok self'
    /\ column (child_df self') "entropy_ceilinged" = Ok cc
    /\ cc !! 0%nat = Some (CFloat x) /\ forall v, x <> FReal v.
Proof.
  destruct (_crunch_corpus_stats "ADJ" "NOUN" rare_red) as [self|] eqn:Hc;
    [|vm_compute in Hc; discriminate].
  assert (Hfacts : is_Ok (compute_entropy self) = true
                   /\ column (child_df self) "freq" ≫= int_cells = Ok [1]
                   /\ length (rows (parent_df self)) = 2%nat).
  { pose proof Hc as Hself. vm_compute in Hself. injection Hself as <-.
    split; [cbv -[entropy fdiv np_log2 IZR]; reflexivity|].
    split; vm_compute; reflexivity. }
  destruct Hfacts as (Hok & Hfreq & Hrows).
  destruct (compute_entropy self) as [self'|] eqn:Hent; [|discriminate].
  destruct (ceilinged_entropy_of_rare_tokens _ _ _ _ _ Hc Hent)
    as (cfreq & pfreq & cc & pc & Hcf & _ & Hcc & _ & Hchild & _).
  rewrite Hfreq in Hcf. injection Hcf as <-.
  destruct (Hchild 0%nat eq_refl) as (x & Hx & Hnot); [lia|].
  by exists self, self', cc, x.
Defined.
End ceilinged_entropy.

Section schema_labels.
Import CachedCorpus.

Lemma dict_get_set {V} (d : dict V) (k k' : string) (v : V) :
  dict_get (dict_set d k v) k'
  = if String.eqb k k' then Ok v else dict_get d k'.
Proof.
  induction d as [|[k0 v0] d IH]; simpl.
  - done.
  - destruct (String.eqb k0 k) eqn:Hk0; simpl.
    + apply String.eqb_eq in Hk0 as ->.
      by destruct (String.eqb k k').
    + destruct (String.eqb k0 k') eqn:Hk0'.
      * apply String.eqb_eq in Hk0' as ->.
        by rewrite String.eqb_sym, Hk0.
      * exact IH.
Qed.

(** The record [segment_line] returns has a value under a label exactly
    when the label is in the schema. *)
Lemma segment_fields_labels (row : list string) (k : string) :
  forall fmt doc i doc',
  segment_fields row doc i fmt = Ok doc' ->
  is_Ok (dict_get doc' k)
  = is_Ok (dict_get doc k)
    || existsb (fun item => match split item ":" with
                            | Ok (label :: _) => String.eqb label k
                            | _ => false
                            end) fmt.
Proof.
  induction fmt as [|item fmt IH]; intros doc i doc'.
  - simpl. intros [= <-]. by rewrite orb_false_r.
  - cbn [segment_fields existsb].
    destruct (split item ":") as [parts|]; cbn [mbind result_bind]; [|done].
    destruct parts as [|label [|typ [|? ?]]]; try done.
    destruct (nth_error row i) as [field|]; [|done].
    destruct (typecast _ field) as [value|]; cbn [mbind result_bind];
      [|done].
    intros Hrest. rewrite (IH _ _ _ Hrest), dict_get_set.
    destruct (String.eqb label k); simpl; [by rewrite orb_true_r|done].
Qed.

Lemma parse_line_needs_sentence_id self filename line :
  names_sentence_id (_fmt self) = false ->
  exists e, parse_line self filename line = Raise e.
Proof.
  intros Hno. unfold parse_line, segment_line.
  destruct (split (strip line) (_sep self)) as [row|e];
    cbn [mbind result_bind]; [|by eexists].
  destruct (segment_fields row [] 0 (_fmt self)) as [doc|e] eqn:Hdoc;
    cbn [mbind result_bind]; [|by eexists].
  pose proof (segment_fields_labels row "sentence_id" _ _ _ _ Hdoc) as Hk.
  unfold names_sentence_id in Hno. rewrite Hno in Hk. simpl in Hk.
  destruct (dict_get doc "sentence_id"); [done|]. by eexists.
Qed.

(** X30. A reader whose schema has no field named [sentence_id] is
    constructed without complaint but cannot read: on any non-empty input
    a first [read] ends with an exception at the first line, commits
    nothing and leaves the tables and the sentence counter as they
    were. *)
Theorem read_without_sentence_id_fails
    (fs : string -> list string) (batch_size : Z) (self : t) :
  names_sentence_id (_fmt self) = false ->
  _lines_read self <= 0 ->
  fileinput fs (_files self) <> [] ->
  (exists e, raised (read fs batch_size self) = Some e)
  /\ commits (read fs batch_size self) = []
  /\ _token_stats (final (read fs batch_size self)) = _token_stats self
  /\ _pair_stats (final (read fs batch_size self)) = _pair_stats self
  /\ _sentences_seen (final (read fs batch_size self)) = _sentences_seen self.
Proof.
  intros Hno Hskip Hlines. unfold read.
  destruct (fileinput fs (_files self)) as [|[filename line] f]; [done|].
  cbn [read_loop].
  replace (0 <? _lines_read self) with false
    by (symmetry; apply Z.ltb_ge; lia).
  match goal with
  | |- context [parse_line ?s filename line] =>
      assert (Hno' : names_sentence_id (_fmt s) = false)
        by (destruct (_total self); by case_decide);
      destruct (parse_line_needs_sentence_id s filename line Hno') as [e ->]
  end.
  split; [by eexists|]. split; [done|]. simpl.
  destruct (_total self); by case_decide.
Qed.

Lemma read_without_sentence_id_fails_witness :
  (exists e, raised (read (single_file six_lines) 1024 fresh_no_id) = Some e)
  /\ commits (read (single_file six_lines) 1024 fresh_no_id) = [].
Proof.
  destruct (read_without_sentence_id_fails (single_file six_lines) 1024
              fresh_no_id) as (He & Hc & _);
    [reflexivity|done|done|].
  by split.
Defined.
End schema_labels.

Section upos_pairs.
Import UposPairs.

Lemma upos_pairs_go_edges (words : sentence) cu pu ic :
  forall ws edges,
  extract_edges_go words ws = Ok edges ->
  (forall w, w ∈ ws -> upos w = Some (VStr cu) -> head w <> Some (VInt 0)) ->
  upos_pairs_go words ws cu pu ic
  = (map (fun e : Edge => (e.1, e.2, if ic then Some words else None))
         (filter (fun e : Edge => e.1.2 = Some (VStr cu)
                                  /\ e.2.2 = Some (VStr pu)) edges),
     None).
Proof.
  induction ws as [|w ws IH]; intros edges Hedges Hroot.
  - injection Hedges as <-. done.
  - assert (Hroot' : forall w', w' ∈ ws -> upos w' = Some (VStr cu) ->
                                head w' <> Some (VInt 0))
      by (intros w' Hin; apply Hroot, elem_of_cons; by right).
    assert (Hw : upos w = Some (VStr cu) -> head w <> Some (VInt 0))
      by (apply Hroot, elem_of_cons; by left).
    cbn [extract_edges_go upos_pairs_go] in Hedges |- *.
    destruct (head w) as [[h|?]|] eqn:Hh; [|done..].
    destruct (Z.eq_dec h 0) as [->|Hne].
    + rewrite decide_False by (intros Hu; by apply Hw). by apply IH.
    + assert (Hstep : (p ← list_index words (h - 1);
                       rest ← extract_edges_go words ws;
                       Ok ((Word_of w, Word_of p) :: rest)) = Ok edges)
        by (by destruct h).
      clear Hedges. apply bind_Ok in Hstep as (p & Hp & Hstep).
      apply bind_Ok in Hstep as (rest & Hrest & Hstep).
      injection Hstep as <-. rewrite Hp, (IH rest Hrest Hroot').
      cbn [fst snd].
      destruct (decide (upos w = Some (VStr cu))) as [Hcu|Hcu].
      * destruct (decide (upos p = Some (VStr pu))) as [Hpu|Hpu].
        -- by rewrite filter_cons_True by done.
        -- rewrite filter_cons_False; [done|]. by intros [_ ?].
      * rewrite filter_cons_False; [done|]. by intros [? _].
Qed.

(** X26. In a sentence in which no word of the child category is the
    root, [_extract_upos_pairs] yields exactly the edges of
    [_extract_edges] whose child has the child category and whose parent
    has the parent category, in the order of the sentence, and ends
    without an exception. *)
Theorem upos_pairs_are_selected_edges
    (s : sentence) (cu pu : string) (ic : bool) (edges : list Edge) :
  _extract_edges_from_sentence s = Ok edges ->
  (forall w, w ∈ s -> upos w = Some (VStr cu) -> head w <> Some (VInt 0)) ->
  _extract_upos_pairs s cu pu ic
  = (map (fun e : Edge => (e.1, e.2, if ic then Some s else None))
         (filter (fun e : Edge => e.1.2 = Some (VStr cu)
                                  /\ e.2.2 = Some (VStr pu)) edges),
     None).
Proof. apply upos_pairs_go_edges. Qed.

Lemma upos_pairs_go_yields (words : sentence) cu pu ic (w p : word) h :
  forall ws,
  (upos_pairs_go words ws cu pu ic).2 = None ->
  w ∈ ws -> upos w = Some (VStr cu) -> head w = Some (VInt h) ->
  list_index words (h - 1) = Ok p -> upos p = Some (VStr pu) ->
  (Word_of w, Word_of p, if ic then Some words else None)
  ∈ (upos_pairs_go words ws cu pu ic).1.
Proof.
  intros ws Hend Hin Hcu Hh Hp Hpu.
  induction ws as [|x ws IH]; [by apply elem_of_nil in Hin|].
  cbn [upos_pairs_go] in Hend |- *.
  apply elem_of_cons in Hin as [<-|Hin].
  - rewrite decide_True by done. rewrite Hh, Hp.
    rewrite decide_True by done. apply elem_of_cons. by left.
  - destruct (decide (upos x = Some (VStr cu))); [|by apply IH].
    destruct (head x) as [[hx|?]|]; [|done..].
    destruct (list_index words (hx - 1)) as [px|]; [|done].
    destruct (decide (upos px = Some (VStr pu))); [|by apply IH].
    apply elem_of_cons. right. by apply IH.
Qed.

(** X27. [_extract_upos_pairs] does not skip the root: a root of the
    child category is paired with the last word of the sentence
    ([words[0 - 1]]) whenever that word has the parent category, although
    the root has no parent. *)
Theorem root_is_paired_with_last_word
    (pre : sentence) (last r : word) (cu pu : string) (ic : bool) :
  r ∈ (pre ++ [last])%list ->
  head r = Some (VInt 0) ->
  upos r = Some (VStr cu) -> upos last = Some (VStr pu) ->
  (_extract_upos_pairs (pre ++ [last])%list cu pu ic).2 = None ->
  (Word_of r, Word_of last, if ic then Some (pre ++ [last])%list else None)
  ∈ (_extract_upos_pairs (pre ++ [last])%list cu pu ic).1.
Proof.
  intros Hin Hh Hcu Hpu Hend.
  apply (upos_pairs_go_yields _ cu pu ic r last 0); try done.
  unfold list_index. rewrite length_app. cbn [length].
  replace (0 - 1 <? 0) with true by done.
  replace ((0 <=? 0 - 1 + Z.of_nat (length pre + 1))
           && (0 - 1 + Z.of_nat (length pre + 1)
               <? Z.of_nat (length pre + 1))) with true
    by (symmetry; apply andb_true_intro; split;
        [apply Z.leb_le|apply Z.ltb_lt]; lia).
  replace (Z.to_nat (0 - 1 + Z.of_nat (length pre + 1))) with (length pre)
    by lia.
  by rewrite nth_error_lookup, list_lookup_middle.
Qed.

Lemma upos_pairs_are_selected_edges_witness :
  exists edges,
    _extract_edges_from_sentence s_red_apple = Ok edges
    /\ _extract_upos_pairs s_red_apple "ADJ" "NOUN" false
       = (map (fun e : Edge => (e.1, e.2, None))
              (filter (fun e : Edge => e.1.2 = Some (VStr "ADJ")
                                       /\ e.2.2 = Some (VStr "NOUN")) edges),
          None).
Proof.
  assert (Hok : is_Ok (_extract_edges_from_sentence s_red_apple) = true)
    by (vm_compute; reflexivity).
  destruct (_extract_edges_from_sentence s_red_apple) as [edges|] eqn:He;
    [|discriminate].
  exists edges. split; [done|].
  apply (upos_pairs_are_selected_edges s_red_apple "ADJ" "NOUN" false edges
           He).
  intros w Hin Hu. unfold s_red_apple in Hin.
  apply elem_of_cons in Hin as [->|Hin];
    [|apply elem_of_cons in Hin as [->|Hin%elem_of_nil]; [|done]]; done.
Defined.

Lemma root_is_paired_with_last_word_witness :
  let apple := mk_word (Some (VStr "apple")) (Some (VStr "NOUN"))
                       (Some (VInt 0)) in
  (Word_of apple, Word_of apple, None)
  ∈ (_extract_upos_pairs s_red_apple "NOUN" "NOUN" false).1.
Proof.
  intros apple.
  refine (root_is_paired_with_last_word
            [mk_word (Some (VStr "red")) (Some (VStr "ADJ")) (Some (VInt 2))]
            apple apple "NOUN" "NOUN" false _ _ _ _ _);
    [|reflexivity..].
  apply elem_of_cons. right. apply elem_of_cons. by left.
Defined.

Lemma yield_from_each_spec sentences at_end cu pu ic :
  (forall x, x ∈ (yield_from_each sentences at_end cu pu ic).1 ->
             exists s, s ∈ sentences
                       /\ x ∈ (_extract_upos_pairs s cu pu ic).1)
  /\ (forall e, at_end = Some e ->
                (yield_from_each sentences at_end cu pu ic).2 <> None)
  /\ ((yield_from_each sentences at_end cu pu ic).2 = None ->
      at_end = None
      /\ (yield_from_each sentences at_end cu pu ic).1
         = concat (map (fun s => (_extract_upos_pairs s cu pu ic).1)
                       sentences)).
Proof.
  induction sentences as [|s sentences (IH1 & IH2 & IH3)].
  - simpl. split; [by intros x ?%elem_of_nil|]. split; [by intros e ->|done].
  - cbn [yield_from_each].
    destruct (_extract_upos_pairs s cu pu ic) as [ys [e|]] eqn:Hs;
      cbn [fst snd].
    + split; [|split; [done|done]].
      intros x Hx. exists s. split; [apply elem_of_cons; by left|].
      by rewrite Hs.
    + split; [|split].
      * intros x [Hx|Hx]%elem_of_app.
        -- exists s. split; [apply elem_of_cons; by left|]. by rewrite Hs.
        -- destruct (IH1 x Hx) as (s' & Hin & Hx').
           exists s'. split; [apply elem_of_cons; by right|done].
      * exact IH2.
      * intros Hend. destruct (IH3 Hend) as [-> ->]. split; [done|].
        cbn [map concat]. by rewrite Hs.
Qed.

(** X28. [extract_upos_pairs] follows [read]: every pair it yields comes
    from a sentence [read] yields; an exception that ends [read] is never
    swallowed; and if the iteration ends without an exception then [read]
    ended without one and the pairs are those of all its sentences, in
    order. *)
Theorem extract_upos_pairs_follows_read
    (fs : string -> list string) (cu pu : string) (ic : bool)
    (self : StreamCorpus.t) :
  (forall x, x ∈ (extract_upos_pairs fs cu pu ic self).1 ->
             exists s, s ∈ StreamCorpus.yielded (StreamCorpus.read fs true self)
                       /\ x ∈ (_extract_upos_pairs s cu pu ic).1)
  /\ (forall e, StreamCorpus.raised (StreamCorpus.read fs true self) = Some e ->
                (extract_upos_pairs fs cu pu ic self).2 <> None)
  /\ ((extract_upos_pairs fs cu pu ic self).2 = None ->
      StreamCorpus.raised (StreamCorpus.read fs true self) = None
      /\ (extract_upos_pairs fs cu pu ic self).1
         = concat (map (fun s => (_extract_upos_pairs s cu pu ic).1)
                       (StreamCorpus.yielded
                          (StreamCorpus.read fs true self)))).
Proof. apply yield_from_each_spec. Qed.
End upos_pairs.

Section wordgraph.
Import CompositionAnalysis WordGraph.

Section assoc_lists.
Context {K V : Type} `{EqDecision K}.
Implicit Types (d : list (K * V)) (k : K) (v : V).

Lemma assoc_get_None d k : assoc_get d k = None <-> k ∉ d.*1.
Proof.
  induction d as [|[k' v'] d IH]; simpl.
  - split; [intros _; apply not_elem_of_nil|done].
  - rewrite not_elem_of_cons. destruct (decide (k' = k)) as [->|Hne].
    + split; [done|]. by intros [? _].
    + rewrite IH. split; [by split|by intros [_ ?]].
Qed.

Lemma assoc_get_app d d' k :
  assoc_get (d ++ d') k
  = match assoc_get d k with
    | Some v => Some v
    | None => assoc_get d' k
    end.
Proof.
  induction d as [|[k' v'] d IH]; simpl; [done|].
  by destruct (decide (k' = k)).
Qed.

Lemma assoc_set_same d k v : assoc_get d k = Some v -> assoc_set d k v = d.
Proof.
  induction d as [|[k' v'] d IH]; simpl; [done|].
  destruct (decide (k' = k)) as [->|Hne].
  - by intros [= ->].
  - intros Hg. by rewrite IH.
Qed.

Lemma assoc_set_new d k v :
  assoc_get d k = None -> assoc_set d k v = (d ++ [(k, v)])%list.
Proof.
  induction d as [|[k' v'] d IH]; simpl; [done|].
  destruct (decide (k' = k)) as [->|Hne]; [done|].
  intros Hg. by rewrite IH.
Qed.

Lemma assoc_set_keys d k v :
  (assoc_set d k v).*1
  = if decide (k ∈ d.*1) then d.*1 else (d.*1 ++ [k])%list.
Proof.
  induction d as [|[k' v'] d IH].
  - first [done|case_decide as Hin; [by apply elem_of_nil in Hin|done]].
  - cbn [assoc_set].
    destruct (decide (k' = k)) as [->|Hne]; rewrite !fmap_cons; cbn [fst].
    + rewrite decide_True by (apply elem_of_cons; by left). done.
    + rewrite IH. destruct (decide (k ∈ d.*1)) as [Hin|Hin].
      * rewrite decide_True by (apply elem_of_cons; by right). done.
      * rewrite decide_False; [done|].
        rewrite not_elem_of_cons. split; [congruence|done].
Qed.

Lemma assoc_set_NoDup d k v : NoDup d.*1 -> NoDup (assoc_set d k v).*1.
Proof.
  intros Hnd. rewrite assoc_set_keys. case_decide; [done|].
  apply NoDup_app. split; [done|]. split; [|apply NoDup_singleton].
  intros x Hx Hx'. apply list_elem_of_singleton in Hx'. by subst.
Qed.

Lemma foldl_assoc_set_NoDup (acc d : list (K * V)) :
  NoDup ((acc ++ d)%list).*1 ->
  foldl (fun a kv => assoc_set a kv.1 kv.2) acc d = (acc ++ d)%list.
Proof.
  revert acc. induction d as [|[k v] d IH]; intros acc Hnd; simpl.
  - by rewrite app_nil_r.
  - rewrite assoc_set_new.
    + rewrite IH; rewrite <- app_assoc; done.
    + apply assoc_get_None. rewrite fmap_app in Hnd.
      apply NoDup_app in Hnd as (_ & Hdisj & _).
      intros Hin. apply (Hdisj _ Hin). simpl. apply elem_of_cons. by left.
Qed.
End assoc_lists.

Lemma positions_snoc words w :
  positions (words ++ [w]) = (positions words ++ [(w, length words)])%list.
Proof.
  unfold positions. rewrite length_app. simpl.
  rewrite Nat.add_1_r, seq_S, zip_with_app by (by rewrite length_seq).
  done.
Qed.

Lemma word_nodes_snoc words w :
  word_nodes (words ++ [w])
  = (word_nodes words ++ [(length words, node_attrs w)])%list.
Proof.
  unfold word_nodes. rewrite length_app. simpl.
  rewrite Nat.add_1_r, seq_S, map_app, zip_with_app
    by (by rewrite length_seq, length_map).
  done.
Qed.

Lemma positions_keys words : (positions words).*1 = words.
Proof.
  unfold positions. apply fst_zip. by rewrite length_seq.
Qed.

Lemma word_nodes_keys words :
  (word_nodes words).*1 = seq 0 (length words).
Proof.
  unfold word_nodes. apply fst_zip. by rewrite length_seq, length_map.
Qed.

Lemma length_positions words : length (positions words) = length words.
Proof. by rewrite <- (positions_keys words) at 2; rewrite length_fmap. Qed.

(** The dictionary of positions sends a word to its position. *)
Lemma positions_get words :
  NoDup words ->
  forall i w, assoc_get (positions words) w = Some i <-> words !! i = Some w.
Proof.
  induction words as [|x words IH] using rev_ind; intros Hnd i w.
  - unfold positions. simpl. split; [done|]. intros Hi. by destruct i.
  - apply NoDup_app in Hnd as (Hnd & Hdisj & _).
    rewrite positions_snoc, assoc_get_app.
    destruct (assoc_get (positions words) w) as [j|] eqn:Hj.
    + apply IH in Hj; [|done]. split.
      * intros [= <-]. by apply lookup_app_l_Some.
      * intros Hi. f_equal.
        apply lookup_app_Some in Hi as [Hi|[Hlen Hi]].
        -- eapply NoDup_lookup; eauto.
        -- apply list_lookup_singleton_Some in Hi as [_ ->].
           exfalso. apply (Hdisj w).
           ++ by eapply list_elem_of_lookup_2.
           ++ apply elem_of_cons. by left.
    + assert (Hnot : w ∉ words).
      { apply assoc_get_None in Hj. by rewrite positions_keys in Hj. }
      simpl. destruct (decide (x = w)) as [->|Hne]; split.
      * intros [= <-]. by apply list_lookup_middle.
      * intros Hi. f_equal.
        apply lookup_app_Some in Hi as [Hi|[Hlen Hi]].
        -- exfalso. apply Hnot. by eapply list_elem_of_lookup_2.
        -- apply list_lookup_singleton_Some in Hi as [Hi _]. lia.
      * done.
      * intros Hi. apply lookup_app_Some in Hi as [Hi|[Hlen Hi]].
        -- exfalso. apply Hnot. by eapply list_elem_of_lookup_2.
        -- apply list_lookup_singleton_Some in Hi as [_ Hi]. congruence.
Qed.

Lemma word_nodes_get words i :
  assoc_get (word_nodes words) i = node_attrs <$> words !! i.
Proof.
  induction words as [|x words IH] using rev_ind.
  - unfold word_nodes. by destruct i.
  - rewrite word_nodes_snoc, assoc_get_app, IH.
    destruct (words !! i) as [w|] eqn:Hi; simpl.
    + by rewrite (lookup_app_l_Some _ _ _ _ Hi).
    + apply lookup_ge_None in Hi.
      destruct (decide (length words = i)) as [<-|Hne].
      * by rewrite list_lookup_middle.
      * rewrite lookup_ge_None_2; [done|]. rewrite length_app. simpl. lia.
Qed.

Lemma learn_NoDup words w : NoDup words -> NoDup (learn words w).
Proof.
  intros Hnd. unfold learn. case_decide; [done|].
  apply NoDup_app. split; [done|]. split; [|apply NoDup_singleton].
  intros x Hx Hx'. apply list_elem_of_singleton in Hx'. by subst.
Qed.

Lemma elem_of_learn words w x : x ∈ learn words w <-> x ∈ words \/ x = w.
Proof.
  unfold learn. case_decide.
  - split; [by left|]. intros [?| ->]; done.
  - rewrite elem_of_app, list_elem_of_singleton. done.
Qed.

Lemma learn_prefix words w : words `prefix_of` learn words w.
Proof. unfold learn. case_decide; [done|]. by apply prefix_app_r. Qed.

(** [nodes[w] = nodes.get(w, len(nodes))] learns the word. *)
Lemma learn_positions words w :
  NoDup words ->
  assoc_set (positions words) w
    (default (length (positions words)) (assoc_get (positions words) w))
  = positions (learn words w).
Proof.
  intros Hnd. unfold learn.
  destruct (assoc_get (positions words) w) as [i|] eqn:Hi; simpl.
  - rewrite assoc_set_same by done.
    apply (positions_get _ Hnd) in Hi.
    rewrite decide_True; [done|]. by eapply list_elem_of_lookup_2.
  - rewrite assoc_set_new by done.
    apply assoc_get_None in Hi. rewrite positions_keys in Hi.
    rewrite decide_False by done.
    by rewrite positions_snoc, length_positions.
Qed.

(** [g.add_node(nodes[w], label=str(w), group=str(w.upos))] adds the node
    of a word just learnt and leaves the node of a known word as it is. *)
Lemma learn_word_nodes words w i :
  NoDup (learn words w) -> learn words w !! i = Some w ->
  assoc_set (word_nodes words) i (node_attrs w) = word_nodes (learn words w).
Proof.
  unfold learn. case_decide as Hin; intros Hnd Hi.
  - apply assoc_set_same. by rewrite word_nodes_get, Hi.
  - assert (i = length words) as ->.
    { apply lookup_app_Some in Hi as [Hi|[Hlen Hi]].
      - exfalso. apply Hin. by eapply list_elem_of_lookup_2.
      - apply list_lookup_singleton_Some in Hi as [Hi _]. lia. }
    rewrite word_nodes_snoc. apply assoc_set_new.
    rewrite word_nodes_get, lookup_ge_None_2; done.
Qed.

Lemma occurrences_nonneg `{EqDecision A} (x : A) l : 0 <= occurrences x l.
Proof. unfold occurrences. lia. Qed.

Lemma occurrences_absent `{EqDecision A} (x : A) l :
  x ∉ l -> occurrences x l = 0.
Proof.
  intros Hnot. unfold occurrences.
  induction l as [|y l IH]; [done|].
  apply not_elem_of_cons in Hnot as [Hne Hnot].
  rewrite filter_cons_False by congruence. by apply IH.
Qed.

Lemma elem_of_words_of (w p : Word) pairs :
  (w, p) ∈ pairs -> w ∈ words_of pairs /\ p ∈ words_of pairs.
Proof.
  unfold words_of. intros Hin.
  split; apply list_elem_of_In, in_flat_map; exists (w, p);
    (split; [by apply list_elem_of_In|]); simpl; auto.
Qed.

Lemma edge_label_default n : 0 <= n -> default 0 (edge_label n) = n.
Proof.
  intros Hn. unfold edge_label. destruct (0 <? n) eqn:Hp; [done|].
  apply Z.ltb_ge in Hp. simpl. lia.
Qed.

(** The edge table stays right when words are learnt. *)
Lemma edges_of_extend words words' seen edges :
  edges_of words seen edges -> words `prefix_of` words' -> NoDup words' ->
  (forall x, x ∈ words_of seen -> x ∈ words) ->
  edges_of words' seen edges.
Proof.
  intros (Hnd & Hout & Hin) [ext ->] Hnd' Hseen.
  split; [done|]. split.
  - intros i j Hij. apply Hout. rewrite length_app in Hij. lia.
  - intros i j w p Hi Hj.
    destruct (decide (i < length words)%nat) as [Hil|Hil];
      [destruct (decide (j < length words)%nat) as [Hjl|Hjl]|].
    + rewrite lookup_app_l in Hi, Hj by done. by apply Hin.
    + rewrite Hout by lia. rewrite occurrences_absent; [done|].
      intros Hwp. apply elem_of_words_of in Hwp as [_ Hp%Hseen].
      apply list_elem_of_lookup in Hp as [k Hk].
      pose proof (lookup_lt_Some _ _ _ Hk).
      assert (k = j) by (eapply NoDup_lookup;
                         [exact Hnd'|by apply lookup_app_l_Some|done]).
      lia.
    + rewrite Hout by lia. rewrite occurrences_absent; [done|].
      intros Hwp. apply elem_of_words_of in Hwp as [Hw%Hseen _].
      apply list_elem_of_lookup in Hw as [k Hk].
      pose proof (lookup_lt_Some _ _ _ Hk).
      assert (k = i) by (eapply NoDup_lookup;
                         [exact Hnd'|by apply lookup_app_l_Some|done]).
      lia.
Qed.

(** [edges[nodes[w], nodes[p]] += 1] counts the pair. *)
Lemma edges_of_visit words seen edges (iw ip : nat) (w p : Word) :
  edges_of words seen edges -> NoDup words ->
  words !! iw = Some w -> words !! ip = Some p ->
  edges_of words (seen ++ [(w, p)])
    (assoc_set edges (iw, ip) (default 0 (assoc_get edges (iw, ip)) + 1)).
Proof.
  intros (Hnd & Hout & Hin) Hndw Hw Hp.
  pose proof (lookup_lt_Some _ _ _ Hw). pose proof (lookup_lt_Some _ _ _ Hp).
  split; [by apply assoc_set_NoDup|]. split.
  - intros i j Hij. rewrite assoc_get_set.
    rewrite decide_False by (intros [= <- <-]; lia). by apply Hout.
  - intros i j w' p' Hi Hj. rewrite assoc_get_set, occurrences_app.
    destruct (decide ((iw, ip) = (i, j))) as [[= <- <-]|Hne].
    + rewrite Hi in Hw. rewrite Hj in Hp. injection Hw as ->.
      injection Hp as ->. rewrite (Hin _ _ _ _ Hi Hj).
      rewrite edge_label_default by apply occurrences_nonneg.
      assert (occurrences (w, p) [(w, p)] = 1) as ->
        by (unfold occurrences; by rewrite filter_cons_True by done).
      unfold edge_label.
      pose proof (occurrences_nonneg (w, p) seen).
      by replace (0 <? occurrences (w, p) seen + 1) with true
        by (symmetry; apply Z.ltb_lt; lia).
    + rewrite (Hin _ _ _ _ Hi Hj).
      rewrite (occurrences_absent (w', p') [(w, p)]);
        [by rewrite Z.add_0_r|].
      rewrite list_elem_of_singleton. intros [= -> ->].
      apply Hne. f_equal; eapply NoDup_lookup; eauto.
Qed.

Lemma getitem_positions words i w :
  NoDup words -> words !! i = Some w ->
  getitem (positions words) w = Ok i.
Proof.
  intros Hnd Hi. unfold getitem.
  by rewrite (proj2 (positions_get _ Hnd i w) Hi).
Qed.

Lemma str_word_text w label :
  str_word w = Ok label -> node_attrs w = Some (label, str_field w.2).
Proof.
  unfold str_word, node_attrs, text_str.
  destruct w.1 as [[?|?]|]; try done. by intros [= ->].
Qed.

Lemma str_word_exn w e : str_word w = Raise e -> e = TypeError.
Proof. unfold str_word. destruct w.1 as [[?|?]|]; congruence. Qed.

(** One pair of the loop. *)
Lemma visit_inv words seen l (w p : Word) :
  graph_inv words seen l ->
  match visit l (w, p) with
  | Ok l' =>
      is_Ok (str_word w) && is_Ok (str_word p) = true
      /\ graph_inv (learn (learn words w) p) (seen ++ [(w, p)]) l'
  | Raise e =>
      is_Ok (str_word w) && is_Ok (str_word p) = false /\ e = TypeError
  end.
Proof.
  intros (Hnd & Hseen & Hnodes & Hgn & Hge & Hedges).
  set (words1 := learn words w). set (words2 := learn words1 p).
  assert (Hnd1 : NoDup words1) by (by apply learn_NoDup).
  assert (Hnd2 : NoDup words2) by (by apply learn_NoDup).
  assert (Hw1 : w ∈ words1) by (apply elem_of_learn; by right).
  assert (Hp2 : p ∈ words2) by (apply elem_of_learn; by right).
  apply list_elem_of_lookup in Hw1 as [iw Hiw].
  apply list_elem_of_lookup in Hp2 as [ip Hip].
  assert (Hiw2 : words2 !! iw = Some w)
    by (eapply prefix_lookup_Some; [exact Hiw|apply learn_prefix]).
  unfold visit. rewrite Hnodes, (learn_positions _ _ Hnd).
  fold words1. rewrite (learn_positions _ _ Hnd1). fold words2.
  rewrite (getitem_positions _ _ _ Hnd2 Hiw2). cbn [mbind result_bind].
  destruct (str_word w) as [lw|e] eqn:Hlw; cbn [mbind result_bind is_Ok];
    [|split; [done|by eapply str_word_exn]].
  rewrite (getitem_positions _ _ _ Hnd2 Hip). cbn [mbind result_bind].
  destruct (str_word p) as [lp|e] eqn:Hlp; cbn [mbind result_bind is_Ok];
    [|split; [done|by eapply str_word_exn]].
  split; [done|]. unfold graph_inv. cbn [nodes edges g].
  split; [exact Hnd2|]. split.
  { intros x. unfold words2, words1. rewrite !elem_of_learn, Hseen.
    unfold words_of. rewrite flat_map_app, elem_of_app. simpl.
    rewrite !elem_of_cons, elem_of_nil. tauto. }
  split; [done|]. split.
  { unfold add_node. cbn [g_nodes]. rewrite Hgn.
    rewrite <- (str_word_text _ _ Hlw), <- (str_word_text _ _ Hlp).
    rewrite (learn_word_nodes words w iw Hnd1 Hiw). fold words1.
    by rewrite (learn_word_nodes words1 p ip Hnd2 Hip). }
  split; [done|].
  apply edges_of_visit; [|done..].
  apply (edges_of_extend words); [done| |done|by intros x ?%Hseen].
  etrans; apply learn_prefix.
Qed.

Lemma visit_all_inv pairs :
  forall words seen l,
  graph_inv words seen l ->
  match visit_all l pairs with
  | Ok l' =>
      forallb (fun w => is_Ok (str_word w)) (words_of pairs) = true
      /\ graph_inv (foldl learn words (words_of pairs)) (seen ++ pairs) l'
  | Raise e =>
      forallb (fun w => is_Ok (str_word w)) (words_of pairs) = false
      /\ e = TypeError
  end.
Proof.
  induction pairs as [|[w p] pairs IH]; intros words seen l Hinv.
  - simpl. by rewrite app_nil_r.
  - cbn [visit_all]. pose proof (visit_inv words seen l w p Hinv) as Hstep.
    change (words_of ((w, p) :: pairs)) with (w :: p :: words_of pairs).
    cbn [forallb foldl]. rewrite andb_assoc.
    destruct (visit l (w, p)) as [l1|e]; cbn [mbind result_bind].
    + destruct Hstep as [-> Hinv1]. specialize (IH _ _ _ Hinv1).
      rewrite <- app_assoc in IH. exact IH.
    + destruct Hstep as [-> ->]. done.
Qed.

Lemma graph_inv_init : graph_inv [] [] (mk_locals [] [] (mk_graph [] [])).
Proof.
  split; [constructor|]. split; [done|]. split; [done|]. split; [done|].
  split; [done|]. split; [constructor|]. split; [done|].
  intros i j w p Hi. by destruct i.
Qed.

(** The second loop, over [edges.items()], only adds the edges. *)
Lemma add_edges words seen l :
  graph_inv words seen l ->
  foldl (fun g e => add_edge g e.1.1 e.1.2 e.2) (g l) (edges l)
  = mk_graph (word_nodes words) (edges l).
Proof.
  intros (Hnd & _ & _ & Hgn & Hge & Hnde & Hout & _).
  assert (Hgen : forall es gr,
            g_nodes gr = word_nodes words ->
            (forall i j n, ((i, j), n) ∈ es ->
                           (i < length words)%nat /\ (j < length words)%nat) ->
            foldl (fun g e => add_edge g e.1.1 e.1.2 e.2) gr es
            = mk_graph (word_nodes words)
                (foldl (fun a kv => assoc_set a kv.1 kv.2) (g_edges gr) es)).
  { induction es as [|[[i j] n] es IH]; intros gr Hn Hrange.
    - simpl. rewrite <- Hn. by destruct gr.
    - cbn [foldl]. rewrite IH.
      + done.
      + destruct (Hrange i j n) as [Hi Hj]; [apply elem_of_cons; by left|].
        unfold add_edge, with_node. cbn [g_nodes fst snd]. rewrite Hn.
        rewrite word_nodes_get.
        destruct (lookup_lt_is_Some_2 words i Hi) as [wi ->]. simpl.
        rewrite word_nodes_get.
        by destruct (lookup_lt_is_Some_2 words j Hj) as [wj ->].
      + intros i' j' n' Hin. apply (Hrange i' j' n').
        apply elem_of_cons. by right. }
  rewrite Hgen.
  - rewrite Hge. by rewrite foldl_assoc_set_NoDup.
  - exact Hgn.
  - intros i j n Hin.
    assert (Hkey : (i, j) ∈ (edges l).*1)
      by (apply list_elem_of_fmap; by exists ((i, j), n)).
    destruct (decide (i < length words)%nat) as [Hi|Hi];
      [destruct (decide (j < length words)%nat) as [Hj|Hj]; [done|]|];
      exfalso; revert Hkey; apply assoc_get_None, Hout; lia.
Qed.

Lemma wordgraph_inv pairs :
  match WordGraph.__init__ pairs with
  | Ok gr =>
      forallb (fun w => is_Ok (str_word w)) (words_of pairs) = true
      /\ NoDup (distinct (words_of pairs))
      /\ (forall w, w ∈ distinct (words_of pairs) <-> w ∈ words_of pairs)
      /\ g_nodes gr = word_nodes (distinct (words_of pairs))
      /\ edges_of (distinct (words_of pairs)) pairs (g_edges gr)
  | Raise e =>
      forallb (fun w => is_Ok (str_word w)) (words_of pairs) = false
      /\ e = TypeError
  end.
Proof.
  unfold WordGraph.__init__.
  pose proof (visit_all_inv pairs [] [] _ graph_inv_init) as Hall.
  destruct (visit_all _ pairs) as [l|e]; cbn [mbind result_bind]; [|done].
  destruct Hall as [Hok Hinv]. simpl in Hinv. fold (distinct (words_of pairs)) in Hinv.
  rewrite (add_edges _ _ _ Hinv). cbn [g_nodes g_edges].
  destruct Hinv as (Hnd & Hseen & _ & _ & _ & Hedges). done.
Qed.

(** X22. [WordGraph(wordpairs)] returns exactly when the text of every
    word of every pair is a string; otherwise [str(w)] raises [TypeError]
    and no graph is built. *)
Theorem wordgraph_needs_string_texts (pairs : list (Word * Word)) :
  is_Ok (WordGraph.__init__ pairs)
  = forallb (fun w => is_Ok (str_word w)) (words_of pairs)
  /\ (forall e, WordGraph.__init__ pairs = Raise e -> e = TypeError).
Proof.
  pose proof (wordgraph_inv pairs) as Hinv.
  destruct (WordGraph.__init__ pairs) as [gr|e].
  - destruct Hinv as [-> _]. by split.
  - destruct Hinv as [-> ->]. split; [done|]. by intros e [= <-].
Qed.

(** X23. The graph has one node per distinct word of the pairs: the words
    are numbered from 0 in the order of their first appearance (as child
    or parent), node [i] carries the text of word [i] as its label and the
    category as its group, and [len(wg)] is the number of distinct
    words. *)
Theorem wordgraph_nodes (pairs : list (Word * Word)) (gr : DiGraph) :
  WordGraph.__init__ pairs = Ok gr ->
  NoDup (distinct (words_of pairs))
  /\ (forall w, w ∈ distinct (words_of pairs) <-> w ∈ words_of pairs)
  /\ g_nodes gr = word_nodes (distinct (words_of pairs))
  /\ __len__ gr = length (distinct (words_of pairs)).
Proof.
  intros Hgr. pose proof (wordgraph_inv pairs) as Hinv.
  rewrite Hgr in Hinv. destruct Hinv as (_ & Hnd & Hin & Hn & _).
  repeat split; try done; try by apply Hin.
  unfold __len__. rewrite Hn.
  by rewrite <- (length_fmap fst), word_nodes_keys, length_seq.
Qed.

(** X24. The edges count the pairs: for the words numbered [i] and [j],
    the edge from [i] to [j] carries the number of times the pair (word
    [i], word [j]) occurs among the word pairs, and there is no such edge
    if the pair does not occur; there are no edges between other
    numbers. *)
Theorem wordgraph_edges (pairs : list (Word * Word)) (gr : DiGraph) :
  WordGraph.__init__ pairs = Ok gr ->
  (forall i j w p,
     distinct (words_of pairs) !! i = Some w ->
     distinct (words_of pairs) !! j = Some p ->
     assoc_get (g_edges gr) (i, j) = edge_label (occurrences (w, p) pairs))
  /\ (forall i j,
        (length (distinct (words_of pairs)) <= i
         \/ length (distinct (words_of pairs)) <= j)%nat ->
        assoc_get (g_edges gr) (i, j) = None).
Proof.
  intros Hgr. pose proof (wordgraph_inv pairs) as Hinv.
  rewrite Hgr in Hinv. destruct Hinv as (_ & _ & _ & _ & _ & Hout & Hin).
  by split.
Qed.

Lemma wordgraph_nodes_witness :
  exists gr,
    WordGraph.__init__ red_pairs = Ok gr /\ __len__ gr = 3%nat.
Proof.
  assert (Hok : is_Ok (WordGraph.__init__ red_pairs) = true)
    by (vm_compute; reflexivity).
  destruct (WordGraph.__init__ red_pairs) as [gr|] eqn:Hgr; [|discriminate].
  exists gr. split; [done|].
  destruct (wordgraph_nodes red_pairs gr Hgr) as (_ & _ & _ & ->).
  vm_compute. reflexivity.
Defined.

Lemma wordgraph_edges_witness :
  exists gr,
    WordGraph.__init__ red_pairs = Ok gr
    /\ assoc_get (g_edges gr) (0%nat, 1%nat) = Some 2.
Proof.
  assert (Hok : is_Ok (WordGraph.__init__ red_pairs) = true)
    by (vm_compute; reflexivity).
  destruct (WordGraph.__init__ red_pairs) as [gr|] eqn:Hgr; [|discriminate].
  exists gr. split; [done|].
  destruct (wordgraph_edges red_pairs gr Hgr) as [Hin _].
  rewrite (Hin 0%nat 1%nat (Some (VStr "red"), Some (VStr "ADJ"))
             (Some (VStr "apple"), Some (VStr "NOUN")));
    [|vm_compute; reflexivity..].
  vm_compute. reflexivity.
Defined.
End wordgraph.

Section matrix_cells.
Import CompositionAnalysis.

Lemma to_ix_strings (names : list string) :
  forall (ix : nat) (found : option nat) (c : string),
  NoDup names ->
  to_ix (map CStr names) ix found (CStr c)
  = match list_find (fun x => x = c) names with
    | Some (k, _) => Some (ix + k)%nat
    | None => found
    end.
Proof.
  induction names as [|x names IH]; intros ix found c Hnd; [done|].
  apply NoDup_cons in Hnd as [Hx Hnd].
  cbn [map to_ix cell_eqb]. rewrite IH by done.
  cbn [list_find]. destruct (String.eqb_spec x c) as [->|Hne].
  - rewrite decide_True by done.
    destruct (list_find (fun x => x = c) names) as [[k y]|] eqn:Hfind.
    + apply list_find_Some in Hfind as (Hk & -> & _).
      exfalso. apply Hx. by eapply list_elem_of_lookup_2.
    + simpl. f_equal. lia.
  - rewrite decide_False by done.
    destruct (list_find (fun x => x = c) names) as [[k y]|]; simpl;
      [f_equal; lia|done].
Qed.

Lemma to_ix_index names i c :
  NoDup names -> names !! i = Some c ->
  to_ix (map CStr names) 0 None (CStr c) = Some i.
Proof.
  intros Hnd Hi. rewrite to_ix_strings by done.
  destruct (list_find (fun x => x = c) names) as [[k y]|] eqn:Hfind.
  - apply list_find_Some in Hfind as (Hk & -> & _). simpl. f_equal.
    eapply NoDup_lookup; eauto.
  - apply list_find_None in Hfind.
    rewrite Forall_forall in Hfind. exfalso.
    apply (Hfind c); [by eapply list_elem_of_lookup_2|done].
Qed.

(** The cells of a matrix after the loop over the pair rows. *)
Lemma fill_matrix_cells (cn pn : list string) :
  NoDup cn -> NoDup pn ->
  forall (st : list ((string * string) * Z)) cix pix (m : list (list float)),
  NoDup st.*1 ->
  (forall c p ct, ((c, p), ct) ∈ st -> c ∈ cn /\ p ∈ pn) ->
  length m = length cn -> Forall (fun r => length r = length pn) m ->
  exists m',
    fill_matrix ["child"; "parent"; "pair"; "freq"] "freq"
      (map CStr cn) (map CStr pn) (pair_records st) cix pix m = Ok m'
    /\ length m' = length cn /\ Forall (fun r => length r = length pn) m'
    /\ (forall i j c p, cn !! i = Some c -> pn !! j = Some p ->
          (m' !! i ≫= fun r => r !! j)
          = match assoc_get st (c, p) with
            | Some ct => Some (of_int ct)
            | None => m !! i ≫= fun r => r !! j
            end).
Proof.
  intros Hndc Hndp.
  induction st as [|[[c0 p0] ct0] st IH]; intros cix pix m Hnd Hknown Hlen Hall.
  - exists m. by repeat split.
  - rewrite fmap_cons in Hnd. apply NoDup_cons in Hnd as [Hnew Hnd].
    destruct (Hknown c0 p0 ct0) as [Hc0 Hp0]; [apply elem_of_cons; by left|].
    apply list_elem_of_lookup in Hc0 as [i0 Hi0].
    apply list_elem_of_lookup in Hp0 as [j0 Hj0].
    cbn [pair_records map fill_matrix fst snd].
    change (row_get ["child"; "parent"; "pair"; "freq"]
              [CStr c0; CStr p0; CPair c0 p0; CInt ct0] "child")
      with (@Ok cell (CStr c0)).
    change (row_get ["child"; "parent"; "pair"; "freq"]
              [CStr c0; CStr p0; CPair c0 p0; CInt ct0] "parent")
      with (@Ok cell (CStr p0)).
    change (row_get ["child"; "parent"; "pair"; "freq"]
              [CStr c0; CStr p0; CPair c0 p0; CInt ct0] "freq")
      with (@Ok cell (CInt ct0)).
    cbn [mbind result_bind].
    rewrite (to_ix_index cn i0 c0 Hndc Hi0), (to_ix_index pn j0 p0 Hndp Hj0).
    cbn [to_float mbind result_bind].
    destruct (IH (Some i0) (Some j0)
                (alter (fun r => <[j0 := of_int ct0]> r) i0 m))
      as (m' & Hfill & Hlen' & Hall' & Hcells).
    + done.
    + intros c p ct Hin. apply (Hknown c p ct). apply elem_of_cons. by right.
    + by rewrite length_alter.
    + apply Forall_alter; [done|]. intros r _ Hr. by rewrite length_insert.
    + exists m'. split; [exact Hfill|]. split; [done|]. split; [done|].
      intros i j c p Hi Hj. rewrite (Hcells i j c p Hi Hj).
      cbn [assoc_get].
      pose proof (lookup_lt_Some _ _ _ Hi0) as Hi0lt.
      pose proof (lookup_lt_Some _ _ _ Hj0) as Hj0lt.
      destruct (decide ((c0, p0) = (c, p))) as [[= <- <-]|Hne].
      * assert (assoc_get st (c0, p0) = None) as ->
          by (by apply assoc_get_None).
        assert (i = i0) as -> by exact (NoDup_lookup cn i i0 c0 Hndc Hi Hi0).
        assert (j = j0) as -> by exact (NoDup_lookup pn j j0 p0 Hndp Hj Hj0).
        rewrite list_lookup_alter_eq.
        destruct (m !! i0) as [r|] eqn:Hr; simpl.
        -- rewrite list_lookup_insert_eq; [done|].
           rewrite Forall_forall in Hall.
           rewrite (Hall r) by (by eapply list_elem_of_lookup_2). done.
        -- apply lookup_ge_None in Hr. lia.
      * destruct (assoc_get st (c, p)); [done|].
        destruct (decide (i0 = i)) as [->|Hi'].
        -- rewrite list_lookup_alter_eq.
           destruct (m !! i) as [r|]; simpl; [|done].
           rewrite list_lookup_insert_ne; [done|].
           intros ->. apply Hne. f_equal; congruence.
        -- by rewrite list_lookup_alter_ne.
Qed.

Section more_assoc.
Context {K V : Type} `{EqDecision K}.
Implicit Types (d : list (K * V)) (k : K) (v : V).

Lemma assoc_get_elem d k v :
  NoDup d.*1 -> assoc_get d k = Some v <-> (k, v) ∈ d.
Proof.
  induction d as [|[k' v'] d IH]; intros Hnd.
  - simpl. split; [done|]. by intros ?%elem_of_nil.
  - rewrite fmap_cons in Hnd. apply NoDup_cons in Hnd as [Hnew Hnd].
    cbn [assoc_get]. rewrite elem_of_cons.
    destruct (decide (k' = k)) as [->|Hne].
    + split; [intros [= ->]; by left|].
      intros [[= ->]|Hin]; [done|].
      exfalso. apply Hnew. apply list_elem_of_fmap. by exists (k, v).
    + rewrite IH by done. split; [by right|].
      intros [[= -> ->]|Hin]; done.
Qed.

Lemma assoc_get_perm d d' k :
  NoDup d.*1 -> d ≡ₚ d' -> assoc_get d k = assoc_get d' k.
Proof.
  intros Hnd Hperm.
  assert (Hnd' : NoDup d'.*1) by (by rewrite <- Hperm).
  destruct (assoc_get d k) as [v|] eqn:Hd.
  - apply assoc_get_elem in Hd; [|done]. rewrite Hperm in Hd.
    symmetry. by apply assoc_get_elem.
  - destruct (assoc_get d' k) as [v|] eqn:Hd'; [|done].
    apply assoc_get_elem in Hd'; [|done]. rewrite <- Hperm in Hd'.
    apply assoc_get_elem in Hd'; [|done]. congruence.
Qed.

Lemma assoc_of_items_keys (items : list (K * V)) :
  NoDup (assoc_of_items items).*1
  /\ (forall k, k ∈ (assoc_of_items items).*1 -> k ∈ items.*1).
Proof.
  unfold assoc_of_items.
  assert (Hgen : forall (acc : list (K * V)),
            NoDup acc.*1 ->
            NoDup (foldl (fun d kv => assoc_set d kv.1 kv.2) acc items).*1
            /\ (forall k,
                  k ∈ (foldl (fun d kv => assoc_set d kv.1 kv.2) acc items).*1
                  -> k ∈ acc.*1 \/ k ∈ items.*1)).
  { induction items as [|[k0 v0] items IH]; intros acc Hnd.
    - simpl. split; [done|]. by left.
    - cbn [foldl fst snd].
      destruct (IH (assoc_set acc k0 v0)) as [Hnd' Hin];
        [by apply assoc_set_NoDup|].
      split; [done|]. intros k Hk. apply Hin in Hk as [Hk|Hk].
      + rewrite assoc_set_keys in Hk. rewrite fmap_cons, elem_of_cons.
        case_decide; [by left|].
        apply elem_of_app in Hk as [Hk|Hk%list_elem_of_singleton];
          [by left|right; by left].
      + right. rewrite fmap_cons, elem_of_cons. by right. }
  destruct (Hgen [] (NoDup_nil_2)) as [Hnd Hin]. split; [done|].
  intros k Hk. by destruct (Hin k Hk) as [?%elem_of_nil|?].
Qed.
End more_assoc.

Lemma NoDup_texts upos (ts : list ((string * string) * Z)) :
  NoDup ts.*1 ->
  NoDup (map first_text (token_records upos ts))
  /\ (forall t, (t, upos) ∈ ts.*1 ->
                t ∈ map first_text (token_records upos ts)).
Proof.
  unfold token_records. rewrite map_map. simpl.
  induction ts as [|[[t u] n] ts IH]; intros Hnd.
  - split; [constructor|]. by intros t ?%elem_of_nil.
  - rewrite fmap_cons in Hnd. apply NoDup_cons in Hnd as [Hnew Hnd].
    destruct (IH Hnd) as [IHnd IHin].
    destruct (decide (u = upos)) as [->|Hne].
    + rewrite filter_cons_True by done. cbn [map fst snd]. split.
      * apply NoDup_cons. split; [|done].
        intros Hin. apply Hnew.
        apply list_elem_of_In, in_map_iff in Hin as ([[t' u'] n'] & Ht & Hin).
        apply list_elem_of_In, list_elem_of_filter in Hin as [Hu Hin].
        simpl in *. subst. apply list_elem_of_fmap. by exists (t, upos, n').
      * intros t' Hin. rewrite fmap_cons in Hin.
        apply elem_of_cons in Hin as [[= ->]|Hin];
          apply elem_of_cons; [by left|right; by apply IHin].
    + rewrite filter_cons_False by done. split; [done|].
      intros t' Hin. rewrite fmap_cons in Hin.
      apply elem_of_cons in Hin as [[= -> ->]|Hin]; [done|by apply IHin].
Qed.

Lemma column_token_texts cols rs :
  index_of "token" cols = Some 0%nat ->
  Forall (fun r => exists s rest, r = CStr s :: rest) rs ->
  column (Frame.mk cols rs) "token" = Ok (map CStr (map first_text rs)).
Proof.
  intros Hi Hall. unfold column.
  assert (has_column (Frame.mk cols rs) "token" = true) as ->
    by (apply has_column_index_of; simpl; by rewrite Hi).
  simpl. induction Hall as [|r rs (s & rest & ->) _ IH]; [done|].
  cbn [column_go map first_text]. unfold row_get at 1.
  rewrite Hi. simpl. simpl in IH. by rewrite IH.
Qed.

(** The token column of a token frame built by [_crunch_corpus_stats],
    for a token table without repeated keys. *)
Lemma crunch_token_column upos (ts : list ((string * string) * Z)) :
  NoDup ts.*1 ->
  exists names,
    column (Frame.mk ["token"; "upos"; "freq"]
              (foldr (insert_desc
                        (int_key ["token"; "upos"; "freq"] "freq")) []
                     (token_records upos ts))) "token"
    = Ok (map CStr names)
    /\ NoDup names
    /\ (forall t, (t, upos) ∈ ts.*1 -> t ∈ names).
Proof.
  intros Hnd. destruct (NoDup_texts upos ts Hnd) as [Hndt Hin].
  eexists. split; [apply column_token_texts; [done|]|].
  - apply sort_rows_Forall. unfold token_records.
    apply Forall_map, Forall_true. intros it. by eexists _, _.
  - pose proof (sort_rows_perm
                  (int_key ["token"; "upos"; "freq"] "freq")
                  (token_records upos ts)) as Hperm.
    apply (Permutation_map first_text) in Hperm.
    split.
    + by rewrite Hperm.
    + intros t Ht. rewrite Hperm. by apply Hin.
Qed.

Lemma lookup_repeat {A} (x : A) (n i : nat) :
  (i < n)%nat -> repeat x n !! i = Some x.
Proof.
  revert i. induction n as [|n IH]; intros i Hi; [lia|].
  destruct i as [|i]; [done|]. simpl. apply IH. lia.
Qed.

(** X25. For corpus tables in which no (text, category) key is repeated
    and every word of a selected pair is counted in [token_stats], the
    matrix [generate_adjacency_matrix()] builds is the one its docstring
    describes: the cell in the row of child [c] and the column of parent
    [p] holds the count of the pair ([c], [p]), and 0 if the pair was not
    observed. *)
Theorem adjacency_matrix_cells
    (cu pu : string) (corpus : corpus_tables) (self : t) :
  _crunch_corpus_stats cu pu corpus = Ok self ->
  NoDup (corpus_token_stats corpus).*1 ->
  (forall it, it ∈ corpus_pair_stats corpus ->
              it.1.1.2 = cu -> it.1.2.2 = pu ->
              it.1.1 ∈ (corpus_token_stats corpus).*1
              /\ it.1.2 ∈ (corpus_token_stats corpus).*1) ->
  exists m self' cn pn,
    generate_adjacency_matrix false "freq" self = Ok (m, self')
    /\ column (child_df self) "token" = Ok (map CStr cn)
    /\ column (parent_df self) "token" = Ok (map CStr pn)
    /\ (forall i j c p, cn !! i = Some c -> pn !! j = Some p ->
          matrix_cell m i j
          = Some (of_int (default 0 (assoc_get (pair_stats self) (c, p))))).
Proof.
  intros Hcrunch Hnd Hknown.
  destruct (crunch_inv _ _ _ _ Hcrunch)
    as (_ & _ & Hcdf & Hpdf & Hps & Hprdf & _ & _ & _ & Hnone).
  destruct (crunch_token_column cu _ Hnd) as (cn & Hcn & Hndc & Hcin).
  destruct (crunch_token_column pu _ Hnd) as (pn & Hpn & Hndp & Hpin).
  rewrite <- Hcdf in Hcn. rewrite <- Hpdf in Hpn.
  (* the rows of the pair frame are the pairs, in some order *)
  pose proof (sort_rows_perm
                (int_key ["child"; "parent"; "pair"; "freq"] "freq")
                (pair_records (pair_stats self))) as Hperm.
  apply Permutation_map_inv in Hperm as (st & Hrows & Hst).
  destruct (assoc_of_items_keys
              (map (fun it : (string * string) * (string * string) * Z =>
                      ((it.1.1.1, it.1.2.1), it.2))
                   (filter (fun it => it.1.1.2 = cu /\ it.1.2.2 = pu)
                           (corpus_pair_stats corpus))))
    as [Hndps Hkeys].
  fold (select_pairs cu pu (corpus_pair_stats corpus)) in Hndps, Hkeys.
  rewrite <- Hps in Hndps, Hkeys.
  assert (Hndst : NoDup st.*1) by (by rewrite <- Hst).
  assert (Hwords : forall c p ct, ((c, p), ct) ∈ st -> c ∈ cn /\ p ∈ pn).
  { intros c p ct Hin. rewrite <- Hst in Hin.
    assert (Hk : (c, p) ∈ (pair_stats self).*1)
      by (apply list_elem_of_fmap; by exists ((c, p), ct)).
    apply Hkeys, list_elem_of_fmap in Hk as ([k v] & Hk & Hin').
    simpl in Hk. subst k.
    apply list_elem_of_In, in_map_iff in Hin' as (it & Hit & Hin').
    apply list_elem_of_In, list_elem_of_filter in Hin' as [[Hcu Hpu] Hin'].
    injection Hit as Hc Hp _.
    destruct (Hknown it Hin' Hcu Hpu) as [H1 H2].
    split; [apply Hcin|apply Hpin].
    - by rewrite <- Hc, <- Hcu, <- surjective_pairing.
    - by rewrite <- Hp, <- Hpu, <- surjective_pairing. }
  destruct (fill_matrix_cells cn pn Hndc Hndp st None None
              (repeat (repeat (FReal 0%R) (length (map CStr pn)))
                      (length (map CStr cn)))
              Hndst Hwords)
    as (m & Hfill & Hlen & Hall & Hcells).
  { by rewrite repeat_length, length_map. }
  { apply Forall_forall. intros r Hr.
    apply list_elem_of_In, repeat_spec in Hr. subst r.
    by rewrite repeat_length, length_map. }
  exists (mk_array (length (map CStr pn)) m), (set_matrix (Some (mk_array (length (map CStr pn)) m)) self), cn, pn.
  split.
  { unfold generate_adjacency_matrix. rewrite Hnone, Hcn, Hpn.
    cbn [mbind result_bind]. rewrite Hprdf. cbn [columns rows].
    rewrite Hrows. unfold pair_records in Hfill |- *. rewrite Hfill.
    done. }
  split; [done|]. split; [done|].
  intros i j c p Hi Hj. unfold matrix_cell. cbn [data].
  rewrite (Hcells i j c p Hi Hj).
  rewrite <- (assoc_get_perm _ _ (c, p) Hndps Hst).
  destruct (assoc_get (pair_stats self) (c, p)) as [ct|]; [done|].
  pose proof (lookup_lt_Some _ _ _ Hi). pose proof (lookup_lt_Some _ _ _ Hj).
  rewrite !length_map, lookup_repeat by done. simpl.
  by rewrite lookup_repeat by done.
Qed.

Lemma adjacency_matrix_cells_witness :
  exists self m self' cn pn,
    _crunch_corpus_stats "ADJ" "NOUN" two_nouns = Ok self
    /\ generate_adjacency_matrix false "freq" self = Ok (m, self')
    /\ column (child_df self) "token" = Ok (map CStr cn)
    /\ column (parent_df self) "token" = Ok (map CStr pn)
    /\ (forall i j c p, cn !! i = Some c -> pn !! j = Some p ->
          matrix_cell m i j
          = Some (of_int (default 0 (assoc_get (pair_stats self) (c, p))))).
Proof.
  assert (Hok : is_Ok (_crunch_corpus_stats "ADJ" "NOUN" two_nouns) = true)
    by (vm_compute; reflexivity).
  destruct (_crunch_corpus_stats "ADJ" "NOUN" two_nouns) as [self|] eqn:Hc;
    [|discriminate].
  assert (Hnd : NoDup (corpus_token_stats two_nouns).*1) by compute_done.
  assert (Hknown : forall it, it ∈ corpus_pair_stats two_nouns ->
            it.1.1.2 = "ADJ" -> it.1.2.2 = "NOUN" ->
            it.1.1 ∈ (corpus_token_stats two_nouns).*1
            /\ it.1.2 ∈ (corpus_token_stats two_nouns).*1).
  { intros it Hin _ _. unfold two_nouns in Hin. cbn [corpus_pair_stats] in Hin.
    apply elem_of_cons in Hin as [->|Hin];
      [|apply elem_of_cons in Hin as [->|Hin%elem_of_nil]; [|done]];
      split; apply list_elem_of_In; simpl; tauto. }
  destruct (adjacency_matrix_cells "ADJ" "NOUN" two_nouns self Hc Hnd Hknown)
    as (m & self' & cn & pn & Hgen & Hcn & Hpn & Hcells).
  by exists self, m, self', cn, pn.
Defined.
End matrix_cells.
